(** * GovTrack core: entity repository, relation engine, identifiers and
      text heuristics

    A shallow embedding of [src/core/id.js], [src/core/storage.js],
    [src/core/entity.js], [src/core/relation.js] and [src/core/ai.js],
    followed by the properties of these modules.

    Conventions of the embedding:
    - a JavaScript string is a [string]; its characters are code units
      below 256 (Rocq's [ascii]), which covers ASCII and Latin-1 text;
    - a JavaScript [Set] is the list of its elements in insertion order;
    - a number obtained by dividing two small integers is the rational
      it denotes, kept in lowest terms ([Qred]);
    - the clock, the random bytes and the digests are inputs of the
      functions that read them;
    - every exception is an [Error] with a message; the embedding keeps one
      constructor per message and classifies them into the four kinds the
      specification names. *)

From Stdlib Require Import ZArith QArith Qround Ascii String DecimalString List Lia.
From Stdlib Require OrderedTypeEx.
From stdpp Require Import base gmap sets list strings sorting.

(* ================================================================== *)
(** * JavaScript string primitives                                     *)
(* ================================================================== *)

Module Js.

Definition code (c : ascii) : N := N_of_ascii c.

Definition between (lo hi : N) (c : ascii) : bool :=
  ((lo <=? code c) && (code c <=? hi))%N.

Definition is_upper (c : ascii) : bool := between 65 90 c.
Definition is_lower (c : ascii) : bool := between 97 122 c.
Definition is_digit (c : ascii) : bool := between 48 57 c.

(** Upper-case letters of the Latin-1 block: U+00C0..U+00DE without the
    multiplication sign U+00D7. *)
Definition is_upper_latin1 (c : ascii) : bool :=
  between 192 214 c || between 216 222 c.

(** [String.prototype.toLowerCase], one code unit at a time. *)
Definition lower_char (c : ascii) : ascii :=
  if is_upper c || is_upper_latin1 c then ascii_of_N (code c + 32) else c.

(** The class [\s] (and the characters [trim] removes): TAB, LF, VT, FF,
    CR, SPACE and NO-BREAK SPACE. *)
Definition is_space (c : ascii) : bool :=
  between 9 13 c || (code c =? 32)%N || (code c =? 160)%N.

(** The class [\w]: [A-Za-z0-9_]. *)
Definition is_word (c : ascii) : bool :=
  is_upper c || is_lower c || is_digit c || (code c =? 95)%N.

(** The class [a-z0-9]. *)
Definition is_alnum (c : ascii) : bool := is_lower c || is_digit c.

Definition chars : string -> list ascii := list_ascii_of_string.
Definition str : list ascii -> string := string_of_list_ascii.

Definition toLowerCase (s : list ascii) : list ascii := map lower_char s.

Fixpoint trimStart (s : list ascii) : list ascii :=
  match s with
  | c :: s' => if is_space c then trimStart s' else s
  | [] => []
  end.

Definition trimEnd (s : list ascii) : list ascii :=
  rev (trimStart (rev s)).

(** [String.prototype.trim]. *)
Definition trim (s : list ascii) : list ascii := trimEnd (trimStart s).

(** [s.split(/\s+/)]: the pieces between maximal runs of white space.  A
    leading or trailing run yields an empty first or last piece, and the
    empty string splits into one empty piece. *)
Fixpoint split_ws_go (in_sep : bool) (cur : list ascii) (s : list ascii)
  : list (list ascii) :=
  match s with
  | [] => [rev cur]
  | c :: s' =>
      if is_space c then
        if in_sep then split_ws_go true cur s'
        else rev cur :: split_ws_go true [] s'
      else split_ws_go false (c :: cur) s'
  end.

Definition split_ws (s : list ascii) : list (list ascii) :=
  split_ws_go false [] s.

(** [s.replace(/\s+/g, ' ')]. *)
Fixpoint collapse_ws_go (in_run : bool) (s : list ascii) : list ascii :=
  match s with
  | [] => []
  | c :: s' =>
      if is_space c then
        if in_run then collapse_ws_go true s'
        else " "%char :: collapse_ws_go true s'
      else c :: collapse_ws_go false s'
  end.

Definition collapse_ws (s : list ascii) : list ascii :=
  collapse_ws_go false s.

Fixpoint is_prefix (p s : list ascii) : bool :=
  match p, s with
  | [], _ => true
  | _ :: _, [] => false
  | a :: p', b :: s' => bool_decide (a = b) && is_prefix p' s'
  end.

(** [s.includes(k)]. *)
Fixpoint includes (s k : list ascii) : bool :=
  is_prefix k s ||
  match s with
  | [] => false
  | _ :: s' => includes s' k
  end.

(** [new Set(array)]: the distinct elements, in order of first
    occurrence. *)
Definition set_add {A} `{EqDecision A} (s : list A) (x : A) : list A :=
  if decide (x ∈ s) then s else s ++ [x].

Definition new_Set {A} `{EqDecision A} (l : list A) : list A :=
  foldl set_add [] l.

Definition has {A} `{EqDecision A} (s : list A) (x : A) : bool :=
  bool_decide (x ∈ s).

(** The Number nearest to an integer: integers up to 2^53 in absolute
    value are Numbers; a larger one is rounded to 53 significant bits, a
    tie going to the even significand.  (No integer met here reaches
    2^1024.) *)
Definition to_number (z : Z) : Z :=
  let a := Z.abs z in
  if (a <=? 2 ^ 53)%Z then z
  else
    let u := (2 ^ (Z.log2 a - 52))%Z in
    let q := (a / u)%Z in
    let r := (a mod u)%Z in
    let q' := if (2 * r <? u)%Z then q
              else if (u <? 2 * r)%Z then (q + 1)%Z
              else if Z.even q then q else (q + 1)%Z in
    (Z.sgn z * (q' * u))%Z.

(** [x + y] on Numbers that hold integers: the sum, rounded. *)
Definition add (x y : Z) : Z := to_number (x + y).

(** [array.slice(start, end)] with integer arguments: a negative index
    counts from the end, and both are clamped to the array. *)
Definition slice {A} (l : list A) (start stop : Z) : list A :=
  let len := Z.of_nat (length l) in
  let clamp (k : Z) :=
    if (k <? 0)%Z then Z.max (len + k) 0 else Z.min k len in
  let from := clamp start in
  let to := clamp stop in
  take (Z.to_nat (to - from)) (drop (Z.to_nat from) l).

End Js.

(** The four entity kinds, in the order of [ENTITY_TYPES]. *)
Inductive EntityType := Goal | Problem | Idea | Action.

#[global] Instance EntityType_eq_dec : EqDecision EntityType.
Proof. solve_decision. Defined.

Definition ENTITY_TYPES : list EntityType := [Goal; Problem; Idea; Action].

Definition type_name (t : EntityType) : string :=
  match t with
  | Goal => "goal" | Problem => "problem" | Idea => "idea" | Action => "action"
  end.

(* ================================================================== *)
(** * Classification and similarity heuristics ([src/core/ai.js])       *)
(* ================================================================== *)

Module Ai.

(** [TYPE_KEYWORDS], keyed in the order goal, problem, idea, action. *)
Definition TYPE_KEYWORDS (t : EntityType) : list string :=
  match t with
  | Goal =>
      ["improve"; "increase"; "reduce"; "enhance"; "promote"; "ensure";
       "achieve"; "establish"; "create"; "build"; "develop"; "maintain";
       "safe"; "sustainable"; "accessible"; "affordable"; "efficient";
       "vision"; "objective"; "target"; "aim"; "aspiration"]
  | Problem =>
      ["broken"; "damaged"; "issue"; "problem"; "complaint"; "concern";
       "pothole"; "graffiti"; "noise"; "pollution"; "crime"; "dangerous";
       "unsafe"; "blocked"; "flooded"; "cracked"; "missing"; "faulty";
       "abandoned"; "neglected"; "deteriorating"; "overcrowded"]
  | Idea =>
      ["suggest"; "propose"; "idea"; "solution"; "could"; "should"; "might";
       "consider"; "implement"; "install"; "create"; "establish"; "introduce";
       "program"; "initiative"; "pilot"; "project"; "scheme"; "plan"]
  | Action =>
      ["task"; "action"; "do"; "complete"; "fix"; "repair"; "install";
       "remove"; "clean"; "paint"; "replace"; "update"; "review"; "inspect";
       "schedule"; "assign"; "deadline"; "responsible"; "priority"]
  end.

(** The keywords of [t] that occur in the lower-cased text. *)
Definition matched (lowerText : list ascii) (t : EntityType) : list string :=
  List.filter (fun kw => Js.includes lowerText (Js.chars kw))
              (TYPE_KEYWORDS t).

(** The [scores] object after the counting loop, as its entries. *)
Definition count_scores (lowerText : list ascii) : list (EntityType * nat) :=
  map (fun t => (t, length (matched lowerText t))) ENTITY_TYPES.

(** One round of the loop that looks for the highest score; the state is
    [(bestType, bestScore, totalScore)]. *)
Definition best_step (acc : EntityType * nat * nat) (e : EntityType * nat)
  : EntityType * nat * nat :=
  let '(bestType, bestScore, totalScore) := acc in
  let '(type, score) := e in
  if bestScore <? score then (type, score, totalScore + score)
  else (bestType, bestScore, totalScore + score).

(** [Math.round(x * 100) / 100]; [Math.round] rounds halves upwards.  The
    double computation agrees with this exact one for every quotient of a
    best score by a total that the keyword lists can produce. *)
Definition round2 (x : Q) : Q :=
  Qred (Qfloor (x * 100 + (1 # 2)) # 100).

Fixpoint join (sep : string) (l : list string) : string :=
  match l with
  | [] => ""
  | [x] => x
  | x :: l' => x +:+ sep +:+ join sep l'
  end.

(** [getSuggestions]: the entries sorted by decreasing score; the sort is
    stable. *)
Fixpoint insert_desc (x : EntityType * nat) (l : list (EntityType * nat))
  : list (EntityType * nat) :=
  match l with
  | [] => [x]
  | y :: l' => if y.2 <=? x.2 then x :: y :: l' else y :: insert_desc x l'
  end.

Definition getSuggestions (scores : list (EntityType * nat))
  : list (EntityType * nat) :=
  foldr insert_desc [] scores.

Record Classification := {
  cl_type : EntityType;
  cl_confidence : Q;
  cl_scores : list (EntityType * nat);
  cl_reasoning : string;
  cl_suggestions : list (EntityType * nat)
}.

(** [classifyText]; its local [words] is never read and is left out. *)
Definition classifyText (text : string) : Classification :=
  let lowerText := Js.toLowerCase (Js.chars text) in
  let scores := count_scores lowerText in
  let '(bestType, bestScore, totalScore) :=
    fold_left best_step scores (Idea, 0, 0) in
  let confidence : Q :=
    if 0 <? totalScore
    then Z.of_nat bestScore # Pos.of_nat totalScore
    else 25 # 100 in
  let matchedKeywords := matched lowerText bestType in
  {| cl_type := bestType;
     cl_confidence := round2 confidence;
     cl_scores := scores;
     cl_reasoning :=
       if 0 <? length matchedKeywords
       then "Matched keywords: " +:+ join ", " (take 5 matchedKeywords)
       else "Default classification (no strong keyword matches)";
     cl_suggestions := getSuggestions scores |}.

(** [normalizeText]. *)
Definition normalizeText (text : list ascii) : list ascii :=
  Js.trim
    (Js.collapse_ws
       (List.filter (fun c => Js.is_word c || Js.is_space c)
                    (Js.toLowerCase text))).

(** [new Set(normalizeText(text).split(/\s+/))]. *)
Definition words (text : string) : list string :=
  Js.new_Set (map Js.str (Js.split_ws (normalizeText (Js.chars text)))).

Definition intersection (words1 words2 : list string) : list string :=
  Js.new_Set (List.filter (fun x => Js.has words2 x) words1).

Definition union (words1 words2 : list string) : list string :=
  Js.new_Set (words1 ++ words2).

(** Which [return] of [calculateSimilarity] produces the result. *)
Inductive SimilarityBranch := EmptyInput | EmptyUnion | Quotient.

Definition similarity_branch (text1 text2 : string) : SimilarityBranch :=
  if bool_decide (text1 = "") || bool_decide (text2 = "") then EmptyInput
  else if length (union (words text1) (words text2)) =? 0 then EmptyUnion
  else Quotient.

Definition calculateSimilarity (text1 text2 : string) : Q :=
  if bool_decide (text1 = "") || bool_decide (text2 = "") then 0
  else
    let words1 := words text1 in
    let words2 := words text2 in
    let intersection := intersection words1 words2 in
    let union := union words1 words2 in
    if length union =? 0 then 0
    else Qred (Z.of_nat (length intersection) # Pos.of_nat (length union)).

End Ai.

(** The classification and the similarity as the specification words
    them, for comparison with [Ai.classifyText] and
    [Ai.calculateSimilarity]. *)
Module AiSpec.

(** Number of keywords of [t] that occur, case-insensitively, as
    substrings of [text]. *)
Definition score (text : string) (t : EntityType) : nat :=
  length
    (List.filter (fun kw => Js.includes (Js.toLowerCase (Js.chars text))
                                        (Js.toLowerCase (Js.chars kw)))
                 (Ai.TYPE_KEYWORDS t)).

Definition max_score (text : string) : nat :=
  foldr Nat.max 0 (map (score text) ENTITY_TYPES).

Definition total_score (text : string) : nat :=
  foldr Nat.add 0 (map (score text) ENTITY_TYPES).

(** The first type of the enumeration whose score is the highest one, or
    idea when every score is zero. *)
Definition best_type (text : string) : EntityType :=
  if max_score text =? 0 then Idea
  else
    match List.filter (fun t => score text t =? max_score text)
                      ENTITY_TYPES with
    | t :: _ => t
    | [] => Idea
    end.

(** [bestScore / sumOfAllScores], or one quarter when every score is
    zero. *)
Definition confidence (text : string) : Q :=
  if total_score text =? 0 then 1 # 4
  else Qred (Z.of_nat (max_score text) # Pos.of_nat (total_score text)).

(** The words of a text, without recourse to [Ai.normalizeText]: the text
    is put in lower case, every character that is neither a letter, a
    digit, an underscore nor white space is dropped, and the words are the
    maximal runs of characters other than white space.  [next_char] reads
    a text from its end: the flag tells whether the text read so far begins
    inside a word. *)
Definition next_char (c : ascii) (r : list (list ascii) * bool)
  : list (list ascii) * bool :=
  if Js.is_space c then (r.1, false)
  else match r with
       | (w :: ws, true) => ((c :: w) :: ws, true)
       | (ws, _) => ([c] :: ws, true)
       end.

Definition word_list (l : list ascii) : list (list ascii) :=
  (foldr next_char ([], false) l).1.

Definition stripped (text : string) : list ascii :=
  List.filter (fun c => Js.is_word c || Js.is_space c)
              (map Js.lower_char (Js.chars text)).

(** The set of the words; a text without a word has the one empty token
    that the split of the empty string yields. *)
Definition token_set (text : string) : gset string :=
  match word_list (stripped text) with
  | [] => {[ Js.str [] ]}
  | ws => list_to_set (map Js.str ws)
  end.

(** Jaccard coefficient: size of the intersection over size of the
    union. *)
Definition jaccard (A B : gset string) : Q :=
  Qred (Z.of_nat (size (A ∩ B)) # Pos.of_nat (size (A ∪ B))).

Definition similarity (text1 text2 : string) : Q :=
  if bool_decide (text1 = "") || bool_decide (text2 = "") then 0
  else jaccard (token_set text1) (token_set text2).

End AiSpec.

(* ================================================================== *)
(** * Identifiers and slugs ([src/core/id.js])                          *)
(* ================================================================== *)

Module Id.

(** [ENTITY_PREFIXES] on the four entity kinds. *)
Definition getPrefixForType (t : EntityType) : string :=
  match t with
  | Goal => "gg" | Problem => "gp" | Idea => "gd" | Action => "ga"
  end.

Definition hex_digit (n : N) : ascii :=
  if (n <? 10)%N then ascii_of_N (48 + n) else ascii_of_N (87 + n).

Definition is_hex (c : ascii) : bool :=
  Js.is_digit c || Js.between 97 102 c.

(** [Buffer.toString('hex')]. *)
Definition hex_of_bytes (bs : list Byte.byte) : list ascii :=
  flat_map (fun b => let n := Byte.to_N b in
                     [hex_digit (n / 16); hex_digit (n mod 16)]) bs.

(** Decimal notation of a counter, as a template literal prints it. *)
Definition decimal (n : nat) : string :=
  NilEmpty.string_of_uint (Nat.to_uint n).

(** The loop of [generateId]: [n] attempts remain, [attempt] is the loop
    variable.  [digest k] is the hexadecimal SHA-256 digest computed in
    attempt [k]; it depends on the clock and on fresh random bytes. *)
Fixpoint generateId_loop (n attempt hashLength : nat) (prefix : string)
    (digest : nat -> list ascii) (existsCheck : option (string -> bool))
  : option string :=
  match n with
  | 0 => None
  | S n' =>
      let hash := take hashLength (digest attempt) in
      let id := prefix +:+ "-" +:+ Js.str hash in
      if negb (from_option (fun f => f id) false existsCheck) then Some id
      else
        let hashLength := if attempt =? 2 then 5 else hashLength in
        generateId_loop n' (S attempt) hashLength prefix digest existsCheck
  end.

(** [generateId]; [digest 5] is the digest of the fallback. *)
Definition generateId (prefix : string) (digest : nat -> list ascii)
    (existsCheck : option (string -> bool)) : string :=
  match generateId_loop 5 0 4 prefix digest existsCheck with
  | Some id => id
  | None => prefix +:+ "-" +:+ Js.str (take 8 (digest 5))
  end.

(** [s.replace(/[^a-z0-9]+/g, '-')]. *)
Fixpoint hyphenate_go (in_run : bool) (s : list ascii) : list ascii :=
  match s with
  | [] => []
  | c :: s' =>
      if Js.is_alnum c then c :: hyphenate_go false s'
      else if in_run then hyphenate_go true s'
      else "-"%char :: hyphenate_go true s'
  end.

Definition hyphenate (s : list ascii) : list ascii := hyphenate_go false s.

Definition strip_leading_hyphen (s : list ascii) : list ascii :=
  match s with
  | c :: s' => if bool_decide (c = "-"%char) then s' else s
  | [] => []
  end.

Definition strip_trailing_hyphen (s : list ascii) : list ascii :=
  rev (strip_leading_hyphen (rev s)).

(** [s.replace(/^-|-$/g, '')]: a hyphen at the start is removed, then a
    hyphen at the end of what is left. *)
Definition strip_hyphens (s : list ascii) : list ascii :=
  strip_trailing_hyphen (strip_leading_hyphen s).

Definition generateSlug (name : string) : string :=
  Js.str
    (take 100
       (strip_hyphens
          (hyphenate (Js.trim (Js.toLowerCase (Js.chars name)))))).

Definition candidate (baseSlug : string) (counter : nat) : string :=
  baseSlug +:+ "-" +:+ decimal counter.

(** The [while (counter < 1000)] loop of [makeSlugUnique], with [n]
    iterations left. *)
Fixpoint try_counters (n counter : nat) (baseSlug : string)
    (existsCheck : string -> bool) : option string :=
  match n with
  | 0 => None
  | S n' =>
      let slug := candidate baseSlug counter in
      if negb (existsCheck slug) then Some slug
      else try_counters n' (S counter) baseSlug existsCheck
  end.

(** [makeSlugUnique]; [random] are the bytes of [randomBytes(3)].  The
    counter starts at 2 and the loop runs while it is below 1000. *)
Definition makeSlugUnique (baseSlug : string) (existsCheck : string -> bool)
    (random : Byte.byte * Byte.byte * Byte.byte) : string :=
  if negb (existsCheck baseSlug) then baseSlug
  else
    match try_counters (1000 - 2) 2 baseSlug existsCheck with
    | Some slug => slug
    | None =>
        let '(b0, b1, b2) := random in
        baseSlug +:+ "-" +:+ Js.str (hex_of_bytes [b0; b1; b2])
    end.

(** [isValidId]: the pattern [^prefix-[a-f0-9]{4,8}$], for a prefix that
    has no character with a meaning of its own in a pattern, as the
    prefixes of [ENTITY_PREFIXES]: the prefix is matched letter by
    letter. *)
Definition isValidId (id prefix : string) : bool :=
  let p := Js.chars (prefix +:+ "-") in
  let s := Js.chars id in
  Js.is_prefix p s &&
  (let h := drop (length p) s in
   (4 <=? length h) && (length h <=? 8) && forallb is_hex h).

(** [ENTITY_PREFIXES], as its entries. *)
Definition ENTITY_PREFIXES : list (string * string) :=
  [("goal", "gg"); ("problem", "gp"); ("idea", "gd"); ("action", "ga");
   ("government", "gt"); ("issue", "gi")].

(** [PREFIX_TO_TYPE[prefix]]; [Object.fromEntries] keeps the last entry of a
    key. *)
Definition PREFIX_TO_TYPE (prefix : string) : option string :=
  fst <$> last (List.filter (fun e => bool_decide (e.2 = prefix)) ENTITY_PREFIXES).

(** [getTypeFromId]: the pattern [^([a-z]{2})-]. *)
Definition getTypeFromId (id : string) : option string :=
  match Js.chars id with
  | a :: b :: c :: _ =>
      if Js.is_lower a && Js.is_lower b && bool_decide (c = "-"%char)
      then PREFIX_TO_TYPE (Js.str [a; b])
      else None
  | _ => None
  end.

Definition isEntityType (id type : string) : bool :=
  bool_decide (getTypeFromId id = Some type).

End Id.

(** [generateSlug] as the specification words it: lower-case, turn every
    run of non-alphanumeric characters into one hyphen, drop the hyphens
    at both ends, keep 100 characters. *)
Module IdSpec.

Definition generateSlug (name : string) : string :=
  Js.str
    (take 100
       (Id.strip_hyphens (Id.hyphenate (Js.toLowerCase (Js.chars name))))).

(** A run of white space, and a run of characters outside [a-z0-9]. *)
Definition spaces (ws : list ascii) : Prop :=
  Forall (fun c => Js.is_space c = true) ws.

Definition separators (u : list ascii) : Prop :=
  Forall (fun c => Js.is_alnum c = false) u.

(** The length of the hash in attempt [attempt] of [generateId], and the id
    that attempt proposes. *)
Definition hash_length (attempt : nat) : nat := if attempt <=? 2 then 4 else 5.

Definition attempt_id (prefix : string) (digest : nat -> list ascii)
    (attempt : nat) : string :=
  prefix +:+ "-" +:+ Js.str (take (hash_length attempt) (digest attempt)).

(** A slug read from its first character: only characters of [a-z0-9] and
    hyphens, no hyphen at the start ([after_hyphen] says that the character
    before was a hyphen, or that there was none), no two hyphens in a row. *)
Fixpoint well_hyphenated (after_hyphen : bool) (l : list ascii) : bool :=
  match l with
  | [] => true
  | c :: l' =>
      if bool_decide (c = "-"%char)
      then negb after_hyphen && well_hyphenated true l'
      else Js.is_alnum c && well_hyphenated false l'
  end.

End IdSpec.

(* ================================================================== *)
(** * Data model                                                        *)
(* ================================================================== *)

(** An outgoing edge, as stored in the [relations] array of its source. *)
Record Relation := { rel_type : string; rel_target : string }.

#[global] Instance Relation_eq_dec : EqDecision Relation.
Proof. solve_decision. Defined.

Record Location := {
  address : option string;
  lat : option Q;
  lng : option Q
}.

(** The values a history entry records as [old_value] and [new_value]. *)
Inductive HistoryValue :=
| HNull
| HString (s : string)
| HNumber (n : Z)
| HRelations (l : list Relation).

Record HistoryEntry := {
  h_timestamp : string;
  h_action : string;
  h_field : option string;
  h_old_value : option HistoryValue;
  h_new_value : option HistoryValue
}.

(** A record of [entities.jsonl].  A field that is [null] or missing is
    [None]; the fields after [history] exist for one entity kind only. *)
Record Entity := {
  id : string;
  type : EntityType;
  title : string;
  body : option string;
  priority : Z;
  status : string;
  gov_id : option string;
  relations : list Relation;
  metadata : gmap string string;
  created_at : string;
  updated_at : string;
  closed_at : option string;
  history : list HistoryEntry;
  location : option Location;
  report_count : option Z;
  supporters : option (list string);
  support_count : option Z;
  similar_ideas : option (list string);
  ai_classification : option string;
  assignee : option string;
  due_date : option string
}.

(** A record of [governments.jsonl]. *)
Record Government := {
  g_id : string;
  g_slug : string;
  g_name : string
}.

(** The data directory: the two record files, each as the list
    [readAll] returns.  A file that does not exist reads as the empty
    list. *)
Record Store := {
  entities : list Entity;
  governments : list Government
}.

(** What one call reads from outside: the clock of the entity module, the
    clock of [updateRecord], and the digests [generateId] computes. *)
Record Env := {
  env_now : string;
  env_write_time : string;
  env_digest : nat -> list ascii
}.

(** The messages of the exceptions the core throws. *)
Inductive Error :=
| TitleRequired
| TitleTooLong
| BodyTooLong
| InvalidEntityType
| InvalidStatus
| InvalidPriority
| AddressTooLong
| LatitudeOutOfRange
| LongitudeOutOfRange
| RelationIncomplete
| InvalidRelationType (relationType : string)
| RelationNotValidFrom (relationType : string)
| RelationTargetNotFound (target : string)
| RelationTargetType (relationType : string)
| GovernmentNotFound (gov : string)
| SourceNotFound (sourceId : string)
| RelationExists (sourceId relationType targetId : string)
| RelationNotFound (sourceId relationType targetId : string)
| SelfReference
| WouldCreateCycle (sourceId targetId : string)
| IdeaNotFound (ideaId : string)
| NotAnIdea (ideaId : string)
| AlreadySupported (supporterId : string).

#[global] Instance Error_eq_dec : EqDecision Error.
Proof. solve_decision. Defined.

(** The four error kinds of the specification. *)
Inductive ErrorKind := ValidationError | NotFoundError | ConflictError | CycleError.

Definition error_kind (e : Error) : ErrorKind :=
  match e with
  | RelationTargetNotFound _ | GovernmentNotFound _ | SourceNotFound _
  | RelationNotFound _ _ _ | IdeaNotFound _ => NotFoundError
  | RelationExists _ _ _ | AlreadySupported _ => ConflictError
  | WouldCreateCycle _ _ => CycleError
  | _ => ValidationError
  end.

(* ================================================================== *)
(** * A state and exception monad for the store                         *)
(* ================================================================== *)

(** A computation reads and writes the store and either returns a value or
    throws; a throw leaves the store as it is at that point. *)
Definition M (A : Type) : Type := Store -> Store * (Error + A).

Definition ret {A} (a : A) : M A := fun s => (s, inr a).
Definition throw {A} (e : Error) : M A := fun s => (s, inl e).
Definition bind {A B} (m : M A) (k : A -> M B) : M B :=
  fun s => match m s with
           | (s', inl e) => (s', inl e)
           | (s', inr a) => k a s'
           end.
Definition gets {A} (f : Store -> A) : M A := fun s => (s, inr (f s)).
Definition modify (f : Store -> Store) : M unit := fun s => (f s, inr tt).

Declare Scope store_scope.
Delimit Scope store_scope with store.
Notation "x <- m ;; k" := (bind m (fun x => k))
  (at level 100, m at next level, right associativity) : store_scope.
Notation "m ;;; k" := (bind m (fun _ => k))
  (at level 100, right associativity) : store_scope.

(** A validator that does not touch the store. *)
Definition check (ok : bool) (e : Error) : M unit :=
  if ok then ret tt else throw e.

Fixpoint mapM {A B} (f : A -> M B) (l : list A) : M (list B) :=
  match l with
  | [] => ret []
  | x :: l' => (y <- f x ;; ys <- mapM f l' ;; ret (y :: ys))%store
  end.

(** [reads m]: [m] hands the store on as it got it. *)
Definition reads {A} (m : M A) : Prop := forall s, (m s).1 = s.

(** [atomic m]: when [m] throws, the store is the one it started from. *)
Definition atomic {A} (m : M A) : Prop :=
  forall s s' e, m s = (s', inl e) -> s' = s.

(* ================================================================== *)
(** * Record store ([src/core/storage.js])                              *)
(* ================================================================== *)

Module Storage.

(** [findById]: the first record with that id. *)
Definition findById (records : list Entity) (i : string) : option Entity :=
  List.find (fun r => bool_decide (id r = i)) records.

Definition appendRecord (record : Entity) : M unit :=
  modify (fun s => {| entities := entities s ++ [record];
                      governments := governments s |}).

(** [deleteRecord]. *)
Definition deleteRecord (i : string) : M bool :=
  fun s =>
    let records := entities s in
    let filtered :=
      List.filter (fun r => negb (bool_decide (id r = i))) records in
    if length filtered =? length records then (s, inr false)
    else ({| entities := filtered; governments := governments s |}, inr true).

Definition gov_findById (records : list Government) (i : string)
  : option Government :=
  List.find (fun r => bool_decide (g_id r = i)) records.

Definition gov_findBySlug (records : list Government) (slug : string)
  : option Government :=
  List.find (fun r => bool_decide (g_slug r = slug)) records.

(** [findByRelation]. *)
Definition findByRelation (records : list Entity) (targetId : string)
    (relationType : option string) : list Entity :=
  List.filter
    (fun record =>
       existsb (fun rel =>
                  bool_decide (rel_target rel = targetId) &&
                  match relationType with
                  | Some t => bool_decide (t = "") ||
                              bool_decide (rel_type rel = t)
                  | None => true
                  end)
               (relations record))
    records.

End Storage.

(** [government.find]: by id when the argument has the shape of a
    government id, by slug otherwise. *)
Definition government_find (s : Store) (idOrSlug : string) : option Government :=
  if Id.isValidId idOrSlug "gt"
  then Storage.gov_findById (governments s) idOrSlug
  else Storage.gov_findBySlug (governments s) idOrSlug.

(* ================================================================== *)
(** * Entity repository ([src/core/entity.js])                          *)
(* ================================================================== *)

Module EntityRepo.

Local Open Scope store_scope.

(** [ENTITY_STATUSES]. *)
Definition ENTITY_STATUSES (t : EntityType) : list string :=
  match t with
  | Goal => ["active"; "deprecated"]
  | Problem => ["unacknowledged"; "acknowledged"; "being_addressed"; "resolved"]
  | Idea => ["proposed"; "under_review"; "accepted"; "rejected"; "superseded"]
  | Action => ["open"; "in_progress"; "blocked"; "completed"; "cancelled"]
  end.

(** What [RELATION_TYPES[name]] evaluates to: a declared pair, a member
    inherited from [Object.prototype] (truthy, without [from] and [to]),
    or [undefined]. *)
Inductive RelationDef :=
| Declared (from to : EntityType)
| Inherited
| Undefined.

Definition object_prototype_keys : list string :=
  ["constructor"; "hasOwnProperty"; "isPrototypeOf"; "propertyIsEnumerable";
   "toLocaleString"; "toString"; "valueOf"; "__proto__";
   "__defineGetter__"; "__defineSetter__"; "__lookupGetter__";
   "__lookupSetter__"].

Definition declared_relation (name : string) : option (EntityType * EntityType) :=
  if bool_decide (name = "threatens") then Some (Problem, Goal)
  else if bool_decide (name = "addresses") then Some (Idea, Problem)
  else if bool_decide (name = "pursues") then Some (Idea, Goal)
  else if bool_decide (name ∈ ["complements"; "conflicts"; "requires";
                                "similar"; "duplicate"; "supersedes";
                                "alternative"; "extends"])
  then Some (Idea, Idea)
  else if bool_decide (name = "implements") then Some (Action, Idea)
  else if bool_decide (name ∈ ["depends_on"; "blocks"]) then Some (Action, Action)
  else None.

Definition RELATION_TYPES (name : string) : RelationDef :=
  match declared_relation name with
  | Some (from, to) => Declared from to
  | None =>
      if bool_decide (name ∈ object_prototype_keys) then Inherited
      else Undefined
  end.

Definition PRIORITIES : list Z := [0; 1; 2; 3; 4]%Z.

Definition truthy (s : string) : bool := negb (bool_decide (s = "")).

Definition trimmed (s : string) : string := Js.str (Js.trim (Js.chars s)).

(** [s.length]. *)
Definition js_length (s : string) : N := N.of_nat (String.length s).

Definition Qltb (x y : Q) : bool := negb (Qle_bool y x).

Definition validateTitle (title : option string) : M unit :=
  match title with
  | None => throw TitleRequired
  | Some t =>
      check (truthy t) TitleRequired ;;;
      check (negb (500 <? js_length t)%N) TitleTooLong
  end.

Definition validateBody (body : option string) : M unit :=
  match body with
  | Some b => check (negb (truthy b && (10000 <? js_length b)%N)) BodyTooLong
  | None => ret tt
  end.

Definition validateType (name : string) : M EntityType :=
  match List.find (fun t => bool_decide (type_name t = name)) ENTITY_TYPES with
  | Some t => ret t
  | None => throw InvalidEntityType
  end.

Definition validateStatus (status : string) (t : EntityType) : M unit :=
  check (bool_decide (status ∈ ENTITY_STATUSES t)) InvalidStatus.

(** A priority as a caller passes it: a number or a string. *)
Inductive PriorityInput := PNumber (n : Z) | PString (s : string).

Definition digit_value (c : ascii) : option Z :=
  if Js.is_digit c then Some (Z.of_N (Js.code c) - 48)%Z else None.

(** The match of [/^P?(\d)$/i], as the number [parseInt] makes of its
    group. *)
Definition parse_priority (s : string) : option Z :=
  match Js.chars s with
  | [d] => digit_value d
  | [p; d] => if bool_decide (p = "P"%char) || bool_decide (p = "p"%char)
              then digit_value d else None
  | _ => None
  end.

Definition validatePriority (p : PriorityInput) : M Z :=
  let normalized :=
    match p with
    | PNumber n => Some n
    | PString s => parse_priority s
    end in
  match normalized with
  | Some n => check (bool_decide (n ∈ PRIORITIES)) InvalidPriority ;;; ret n
  | None => throw InvalidPriority
  end.

Definition validateLocation (location : option Location) : M (option Location) :=
  match location with
  | None => ret None
  | Some l =>
      a <- match address l with
           | Some a =>
               if truthy a then
                 check (negb (500 <? js_length a)%N) AddressTooLong ;;;
                 ret (Some a)
               else ret None
           | None => ret None
           end ;;
      match lat l with
      | Some x => check (negb (Qltb x (-90) || Qltb 90 x)) LatitudeOutOfRange
      | None => ret tt
      end ;;;
      match lng l with
      | Some x => check (negb (Qltb x (-180) || Qltb 180 x)) LongitudeOutOfRange
      | None => ret tt
      end ;;;
      match a, lat l, lng l with
      | None, None, None => ret None
      | _, _, _ => ret (Some {| address := a; lat := lat l; lng := lng l |})
      end
  end.

Definition find (s : Store) (i : string) : option Entity :=
  Storage.findById (entities s) i.

(** [validateRelation]; a missing [type] or [target] is the empty
    string. *)
Definition validateRelation (relation : Relation) (sourceType : EntityType)
  : M Relation :=
  check (truthy (rel_type relation) && truthy (rel_target relation))
        RelationIncomplete ;;;
  match RELATION_TYPES (rel_type relation) with
  | Undefined => throw (InvalidRelationType (rel_type relation))
  | Inherited => throw (RelationNotValidFrom (rel_type relation))
  | Declared from to =>
      check (bool_decide (from = sourceType))
            (RelationNotValidFrom (rel_type relation)) ;;;
      target <- gets (fun s => find s (rel_target relation)) ;;
      match target with
      | None => throw (RelationTargetNotFound (rel_target relation))
      | Some target =>
          check (bool_decide (to = type target))
                (RelationTargetType (rel_type relation)) ;;;
          ret {| rel_type := rel_type relation;
                 rel_target := rel_target relation |}
      end
  end.

(** The government reference of [create] and [update]. *)
Definition resolve_government (gov : option string) : M (option string) :=
  match gov with
  | Some g =>
      if truthy g then
        found <- gets (fun s => government_find s g) ;;
        match found with
        | None => throw (GovernmentNotFound g)
        | Some gv => ret (Some (g_id gv))
        end
      else ret None
  | None => ret None
  end.

(** The argument [data] of [create]. *)
Record CreateData := {
  d_title : option string;
  d_body : option string;
  d_priority : option PriorityInput;
  d_status : option string;
  d_gov_id : option string;
  d_relations : option (list Relation);
  d_metadata : option (gmap string string);
  d_location : option Location;
  d_report_count : option Z;
  d_supporters : option (list string);
  d_support_count : option Z;
  d_similar_ideas : option (list string);
  d_ai_classification : option string;
  d_assignee : option string;
  d_due_date : option string
}.

Definition or_else {A} (falsy : A -> bool) (x : option A) (d : A) : A :=
  match x with
  | Some a => if falsy a then d else a
  | None => d
  end.

Definition nonempty (s : option string) : option string :=
  match s with
  | Some a => if truthy a then Some a else None
  | None => None
  end.

Definition create (env : Env) (typeName : string) (data : CreateData)
  : M Entity :=
  t <- validateType typeName ;;
  validateTitle (d_title data) ;;;
  validateBody (d_body data) ;;;
  let prefix := Id.getPrefixForType t in
  govId <- resolve_government (d_gov_id data) ;;
  priority <- validatePriority (default (PNumber 2) (d_priority data)) ;;
  location <- match t with
              | Problem => validateLocation (d_location data)
              | _ => ret None
              end ;;
  relations <- mapM (fun rel => validateRelation rel t)
                    (default [] (d_relations data)) ;;
  i <- gets (fun s =>
               Id.generateId prefix (env_digest env)
                 (Some (fun i => bool_decide (find s i <> None)))) ;;
  let now := env_now env in
  let defaultStatus := default "" (head (ENTITY_STATUSES t)) in
  let entity :=
    {| id := i;
       type := t;
       title := trimmed (default "" (d_title data));
       body := nonempty (trimmed <$> d_body data);
       priority := priority;
       status := or_else (fun s => negb (truthy s)) (d_status data) defaultStatus;
       gov_id := govId;
       relations := relations;
       metadata := default ∅ (d_metadata data);
       created_at := now;
       updated_at := now;
       closed_at := None;
       history := [ {| h_timestamp := now; h_action := "created";
                       h_field := None; h_old_value := None;
                       h_new_value := None |} ];
       location := location;
       report_count :=
         match t with
         | Problem => Some (or_else (Z.eqb 0) (d_report_count data) 1%Z)
         | _ => None
         end;
       supporters :=
         match t with
         | Idea => Some (default [] (d_supporters data))
         | _ => None
         end;
       support_count :=
         match t with
         | Idea => Some (default 0%Z (d_support_count data))
         | _ => None
         end;
       similar_ideas :=
         match t with
         | Idea => Some (default [] (d_similar_ideas data))
         | _ => None
         end;
       ai_classification :=
         match t with
         | Idea => nonempty (d_ai_classification data)
         | _ => None
         end;
       assignee :=
         match t with
         | Action => nonempty (d_assignee data)
         | _ => None
         end;
       due_date :=
         match t with
         | Action => nonempty (d_due_date data)
         | _ => None
         end |} in
  match nonempty (d_status data) with
  | Some st => validateStatus st t
  | None => ret tt
  end ;;;
  Storage.appendRecord entity ;;;
  ret entity.

(** The argument [updates] of [update]: a field that is not supplied
    ([undefined]) is [None]; [Some None] is a supplied [null]. *)
Record Updates := {
  u_title : option string;
  u_body : option (option string);
  u_status : option string;
  u_priority : option PriorityInput;
  u_gov_id : option (option string);
  u_relations : option (list Relation);
  u_location : option (option Location);
  u_assignee : option (option string);
  u_due_date : option (option string);
  u_support_count : option Z;
  u_supporters : option (list string);
  u_ai_classification : option (option string);
  u_metadata : option (gmap string string)
}.

(** The object [allowedUpdates] that [update] hands to the store. *)
Record Patch := {
  p_title : option string;
  p_body : option (option string);
  p_status : option string;
  p_closed_at : option (option string);
  p_priority : option Z;
  p_gov_id : option (option string);
  p_relations : option (list Relation);
  p_location : option (option Location);
  p_assignee : option (option string);
  p_due_date : option (option string);
  p_support_count : option Z;
  p_supporters : option (list string);
  p_ai_classification : option (option string);
  p_metadata : option (gmap string string);
  p_history : option (list HistoryEntry)
}.

(** [{ ...record, ...updates, updated_at }]. *)
Definition merge (record : Entity) (p : Patch) (stamp : string) : Entity :=
  {| id := id record;
     type := type record;
     title := default (title record) (p_title p);
     body := default (body record) (p_body p);
     priority := default (priority record) (p_priority p);
     status := default (status record) (p_status p);
     gov_id := default (gov_id record) (p_gov_id p);
     relations := default (relations record) (p_relations p);
     metadata := default (metadata record) (p_metadata p);
     created_at := created_at record;
     updated_at := stamp;
     closed_at := default (closed_at record) (p_closed_at p);
     history := default (history record) (p_history p);
     location := default (location record) (p_location p);
     report_count := report_count record;
     supporters :=
       match p_supporters p with
       | Some l => Some l
       | None => supporters record
       end;
     support_count :=
       match p_support_count p with
       | Some n => Some n
       | None => support_count record
       end;
     similar_ideas := similar_ideas record;
     ai_classification :=
       default (ai_classification record) (p_ai_classification p);
     assignee := default (assignee record) (p_assignee p);
     due_date := default (due_date record) (p_due_date p) |}.

(** [storage.updateRecord]: every record with that id is replaced by its
    merge; the last one is returned, and the file is rewritten when there
    is one. *)
Definition updateRecord (env : Env) (i : string) (p : Patch)
  : M (option Entity) :=
  fun s =>
    let records := entities s in
    let updated :=
      map (fun record =>
             if bool_decide (id record = i)
             then merge record p (env_write_time env) else record)
          records in
    let found :=
      last (List.filter (fun record => bool_decide (id record = i)) updated) in
    match found with
    | Some _ => ({| entities := updated; governments := governments s |},
                 inr found)
    | None => (s, inr None)
    end.

Definition history_entry (now action field : string)
    (old new : HistoryValue) : HistoryEntry :=
  {| h_timestamp := now; h_action := action; h_field := Some field;
     h_old_value := Some old; h_new_value := Some new |}.

Definition string_or_null (s : option string) : HistoryValue :=
  match s with
  | Some x => HString x
  | None => HNull
  end.

(** The terminal statuses for which [update] sets [closed_at]. *)
Definition update_terminal_statuses : list string :=
  ["resolved"; "completed"; "cancelled"; "deprecated"; "rejected";
   "superseded"].

(** The body of [update] between the lookup of the entity and the call of
    the store: the validation of each supplied field, which builds
    [allowedUpdates] and [historyEntries]. *)
Definition allowedUpdates (env : Env) (entity : Entity) (updates : Updates)
  : M Patch :=
  let now := env_now env in
  (* Title update *)
  title' <- match u_title updates with
            | Some t => validateTitle (Some t) ;;; ret (Some (trimmed t))
            | None => ret None
            end ;;
  (* Body update *)
  body' <- match u_body updates with
           | Some b => validateBody b ;;;
                       ret (Some (nonempty (trimmed <$> b)))
           | None => ret None
           end ;;
  (* Status update *)
  status' <- match u_status updates with
             | Some st => validateStatus st (type entity) ;;; ret (Some st)
             | None => ret None
             end ;;
  let closed_at' :=
    match u_status updates with
    | Some st =>
        if bool_decide (st ∈ update_terminal_statuses) then Some (Some now)
        else match closed_at entity with
             | Some c => if truthy c then Some None else None
             | None => None
             end
    | None => None
    end in
  (* Priority update *)
  priority' <- match u_priority updates with
               | Some p => n <- validatePriority p ;; ret (Some n)
               | None => ret None
               end ;;
  (* Government assignment *)
  gov' <- match u_gov_id updates with
          | Some g => govId <- resolve_government g ;; ret (Some govId)
          | None => ret None
          end ;;
  (* Relations update *)
  relations' <- match u_relations updates with
                | Some rels =>
                    l <- mapM (fun rel => validateRelation rel (type entity))
                              rels ;;
                    ret (Some l)
                | None => ret None
                end ;;
  (* Type-specific updates *)
  location' <- match type entity, u_location updates with
               | Problem, Some l => v <- validateLocation l ;; ret (Some v)
               | _, _ => ret None
               end ;;
  let for_type (t : EntityType) {A} (x : option A) : option A :=
    if bool_decide (type entity = t) then x else None in
  let historyEntries :=
    match title' with
    | Some t => [history_entry now "title_changed" "title"
                   (HString (title entity)) (HString t)]
    | None => []
    end ++
    match status' with
    | Some st => [history_entry now "status_changed" "status"
                    (HString (status entity)) (HString st)]
    | None => []
    end ++
    match priority' with
    | Some n => [history_entry now "priority_changed" "priority"
                   (HNumber (priority entity)) (HNumber n)]
    | None => []
    end ++
    match gov' with
    | Some g => [history_entry now
                   (if g is Some _ then "assigned" else "unassigned")
                   "gov_id"
                   (string_or_null (gov_id entity)) (string_or_null g)]
    | None => []
    end ++
    match relations' with
    | Some l => [history_entry now "relations_changed" "relations"
                   (HRelations (relations entity)) (HRelations l)]
    | None => []
    end in
  ret {| p_title := title';
         p_body := body';
         p_status := status';
         p_closed_at := closed_at';
         p_priority := priority';
         p_gov_id := gov';
         p_relations := relations';
         p_location := location';
         p_assignee := for_type Action (u_assignee updates);
         p_due_date := for_type Action (u_due_date updates);
         p_support_count := for_type Idea (u_support_count updates);
         p_supporters := for_type Idea (u_supporters updates);
         p_ai_classification := for_type Idea (u_ai_classification updates);
         (* Metadata update *)
         p_metadata :=
           match u_metadata updates with
           | Some m => Some (m ∪ metadata entity)
           | None => None
           end;
         (* Add history entries *)
         p_history :=
           if 0 <? length historyEntries
           then Some (history entity ++ historyEntries)
           else None |}.

Definition update (env : Env) (i : string) (updates : Updates)
  : M (option Entity) :=
  found <- gets (fun s => find s i) ;;
  match found with
  | None => ret None
  | Some entity =>
      allowed <- allowedUpdates env entity updates ;;
      updateRecord env i allowed
  end.

(** [remove]. *)
Definition remove (i : string) : M bool := Storage.deleteRecord i.

(** The object [{ relations }]. *)
Definition only_relations (rels : list Relation) : Updates :=
  {| u_title := None; u_body := None; u_status := None;
     u_priority := None; u_gov_id := None; u_relations := Some rels;
     u_location := None; u_assignee := None; u_due_date := None;
     u_support_count := None; u_supporters := None;
     u_ai_classification := None; u_metadata := None |}.

Definition same_edge (relationType targetId : string) (r : Relation) : bool :=
  bool_decide (rel_type r = relationType) &&
  bool_decide (rel_target r = targetId).

Definition addRelation (env : Env) (sourceId relationType targetId : string)
  : M (option Entity) :=
  found <- gets (fun s => find s sourceId) ;;
  match found with
  | None => throw (SourceNotFound sourceId)
  | Some entity =>
      relation <- validateRelation
                    {| rel_type := relationType; rel_target := targetId |}
                    (type entity) ;;
      (* Check for duplicate *)
      let existingRelations := relations entity in
      let isDuplicate :=
        existsb (same_edge (rel_type relation) (rel_target relation))
                existingRelations in
      if isDuplicate
      then throw (RelationExists sourceId relationType targetId)
      else
        update env sourceId (only_relations (existingRelations ++ [relation]))
  end.

Definition removeRelation (env : Env) (sourceId relationType targetId : string)
  : M (option Entity) :=
  found <- gets (fun s => find s sourceId) ;;
  match found with
  | None => throw (SourceNotFound sourceId)
  | Some entity =>
      let existingRelations := relations entity in
      let newRelations :=
        List.filter (fun r => negb (same_edge relationType targetId r))
                    existingRelations in
      if length newRelations =? length existingRelations
      then throw (RelationNotFound sourceId relationType targetId)
      else
        update env sourceId (only_relations newRelations)
  end.

(** [findRelatedFrom]. *)
Definition findRelatedFrom (s : Store) (targetId : string)
    (relationType : option string) : list Entity :=
  Storage.findByRelation (entities s) targetId relationType.

(** The argument [options] of [close]. *)
Record CloseOptions := {
  rejected : bool;
  cancelled : bool;
  reason : option string
}.

(** The table [terminalStatuses] of [close]. *)
Definition close_status (t : EntityType) (options : CloseOptions) : string :=
  match t with
  | Goal => "deprecated"
  | Problem => "resolved"
  | Idea => if rejected options then "rejected" else "accepted"
  | Action => if cancelled options then "cancelled" else "completed"
  end.

Definition close (env : Env) (i : string) (options : CloseOptions)
  : M (option Entity) :=
  found <- gets (fun s => find s i) ;;
  match found with
  | None => ret None
  | Some entity =>
      let status := close_status (type entity) options in
      update env i
        {| u_title := None; u_body := None; u_status := Some status;
           u_priority := None; u_gov_id := None; u_relations := None;
           u_location := None; u_assignee := None; u_due_date := None;
           u_support_count := None; u_supporters := None;
           u_ai_classification := None;
           u_metadata :=
             match nonempty (reason options) with
             | Some r => Some {[ "close_reason" := r ]}
             | None => None
             end |}
  end.

Definition addSupport (env : Env) (ideaId supporterId : string)
  : M (option Entity) :=
  found <- gets (fun s => find s ideaId) ;;
  match found with
  | None => throw (IdeaNotFound ideaId)
  | Some entity =>
      check (bool_decide (type entity = Idea)) (NotAnIdea ideaId) ;;;
      let supporters := default [] (supporters entity) in
      check (negb (bool_decide (supporterId ∈ supporters)))
            (AlreadySupported supporterId) ;;;
      update env ideaId
        {| u_title := None; u_body := None; u_status := None;
           u_priority := None; u_gov_id := None; u_relations := None;
           u_location := None; u_assignee := None; u_due_date := None;
           u_support_count :=
             Some (Js.add (default 0%Z (support_count entity)) 1);
           u_supporters := Some (supporters ++ [supporterId]);
           u_ai_classification := None; u_metadata := None |}
  end.

End EntityRepo.

(* ================================================================== *)
(** * Queries of the entity repository ([src/core/entity.js])           *)
(* ================================================================== *)

Module EntityQuery.

(** The properties that hold a string or a number in every record. *)
Inductive SortField :=
| ById | ByType | ByTitle | ByStatus | ByCreatedAt | ByUpdatedAt | ByPriority.

(** The property a sort name selects, when it is one of these. *)
Definition sort_field (name : string) : option SortField :=
  if bool_decide (name = "id") then Some ById
  else if bool_decide (name = "type") then Some ByType
  else if bool_decide (name = "title") then Some ByTitle
  else if bool_decide (name = "status") then Some ByStatus
  else if bool_decide (name = "created_at") then Some ByCreatedAt
  else if bool_decide (name = "updated_at") then Some ByUpdatedAt
  else if bool_decide (name = "priority") then Some ByPriority
  else None.


(** The argument [filters] of [list]: [sort] is any property name,
    [priority] a number or a string, [limit] and [offset] are integers. *)
Record Filters := {
  f_type : option string;
  f_gov_id : option string;
  f_unfiled : bool;
  f_status : option string;
  f_priority : option EntityRepo.PriorityInput;
  f_relatedTo : option string;
  f_sort : option string;
  f_order : option string;
  f_limit : option Z;
  f_offset : option Z
}.

Definition no_filters : Filters :=
  {| f_type := None; f_gov_id := None; f_unfiled := false; f_status := None;
     f_priority := None; f_relatedTo := None; f_sort := None; f_order := None;
     f_limit := None; f_offset := None |}.

(** [aVal < bVal] for the values of the sort property: strings compare by
    code units, priorities as numbers.  Under a name that is no property
    of a record both values are [undefined], and no comparison holds. *)
Definition key_lt (field : option SortField) (a b : Entity) : bool :=
  match field with
  | Some ById => String.ltb (id a) (id b)
  | Some ByType => String.ltb (type_name (type a)) (type_name (type b))
  | Some ByTitle => String.ltb (title a) (title b)
  | Some ByStatus => String.ltb (status a) (status b)
  | Some ByCreatedAt => String.ltb (created_at a) (created_at b)
  | Some ByUpdatedAt => String.ltb (updated_at a) (updated_at b)
  | Some ByPriority => (priority a <? priority b)%Z
  | None => false
  end.

(** The comparator of [list]. *)
Definition compare_entities (field : option SortField) (order : string)
    (a b : Entity) : Z :=
  if bool_decide (order = "desc")
  then (if key_lt field b a then -1 else if key_lt field a b then 1 else 0)%Z
  else (if key_lt field a b then -1 else if key_lt field b a then 1 else 0)%Z.

(** [Array.prototype.sort] with a comparator: a stable sort. *)
Fixpoint insert_sorted {A} (cmp : A -> A -> Z) (x : A) (l : list A) : list A :=
  match l with
  | [] => [x]
  | y :: l' => if (0 <? cmp x y)%Z then y :: insert_sorted cmp x l'
               else x :: y :: l'
  end.

Definition sort {A} (cmp : A -> A -> Z) (l : list A) : list A :=
  foldr (insert_sorted cmp) [] l.

(** The conjunction of the filters of [list]. *)
Definition selected (s : Store) (filters : Filters) (e : Entity) : bool :=
  match f_type filters with
  | Some t => negb (EntityRepo.truthy t) || bool_decide (type_name (type e) = t)
  | None => true
  end &&
  match f_gov_id filters with
  | Some g =>
      negb (EntityRepo.truthy g) ||
      match government_find s g with
      | Some gov => bool_decide (gov_id e = Some (g_id gov))
      | None => bool_decide (gov_id e = Some g)
      end
  | None => true
  end &&
  (negb (f_unfiled filters) || bool_decide (gov_id e = None)) &&
  match f_status filters with
  | Some st => negb (EntityRepo.truthy st) || bool_decide (status e = st)
  | None => true
  end &&
  match f_priority filters with
  | Some (EntityRepo.PNumber p) => bool_decide (priority e = p)
  | Some (EntityRepo.PString _) => false
  | None => true
  end &&
  match f_relatedTo filters with
  | Some target =>
      negb (EntityRepo.truthy target) ||
      existsb (fun r => bool_decide (rel_target r = target)) (relations e)
  | None => true
  end.

(** [entities.slice(offset, offset + limit)] when [limit] is given and not
    zero. *)
Definition page (filters : Filters) (l : Datatypes.list Entity)
  : Datatypes.list Entity :=
  match f_limit filters with
  | Some limit =>
      if (limit =? 0)%Z then l
      else let offset := default 0%Z (f_offset filters) in
           Js.slice l offset (offset + limit)
  | None => l
  end.

(** [filters.sort || 'created_at'] and [filters.order || 'desc']. *)
Definition sort_name (filters : Filters) : string :=
  EntityRepo.or_else (fun o => negb (EntityRepo.truthy o))
                     (f_sort filters) "created_at".

Definition sort_order (filters : Filters) : string :=
  EntityRepo.or_else (fun o => negb (EntityRepo.truthy o))
                     (f_order filters) "desc".

Definition sorted_selection (s : Store) (filters : Filters)
  : Datatypes.list Entity :=
  sort (compare_entities (sort_field (sort_name filters)) (sort_order filters))
       (List.filter (selected s filters) (entities s)).

Record GraphNode := {
  n_id : string;
  n_type : EntityType;
  n_title : string;
  n_status : string;
  n_priority : Z;
  n_gov_id : option string
}.

Record GraphEdge := { e_source : string; e_target : string; e_type : string }.

Record Graph := { nodes : list GraphNode; edges : list GraphEdge }.

(** The edges of [entity] that end in [nodeIds]. *)
Definition edges_within (nodeIds : list string) (entity : Entity)
  : list GraphEdge :=
  map (fun rel => {| e_source := id entity; e_target := rel_target rel;
                     e_type := rel_type rel |})
      (List.filter (fun rel => Js.has nodeIds (rel_target rel))
                   (relations entity)).

(** [list]. *)
Definition list (s : Store) (filters : Filters) : Datatypes.list Entity :=
  page filters (sorted_selection s filters).

(** [getGraphData]. *)
Definition getGraphData (s : Store) (filters : Filters) : Graph :=
  let entities := list s filters in
  let nodes :=
    map (fun e => {| n_id := id e; n_type := type e; n_title := title e;
                     n_status := status e; n_priority := priority e;
                     n_gov_id := gov_id e |}) entities in
  let nodeIds := Js.new_Set (map n_id nodes) in
  {| nodes := nodes;
     edges := flat_map (edges_within nodeIds) entities |}.

End EntityQuery.

(* ================================================================== *)
(** * Relation engine ([src/core/relation.js])                          *)
(* ================================================================== *)

Module RelationEngine.

Local Open Scope store_scope.

Definition DEPENDENCY_RELATIONS : list string :=
  ["depends_on"; "requires"; "blocks"].

Definition is_dependency (relationType : string) : bool :=
  bool_decide (relationType ∈ DEPENDENCY_RELATIONS).

(** The targets the inner [for] loop pushes on the queue. *)
Definition followed (visited : gset string) (rels : list Relation)
  : list string :=
  map rel_target
      (List.filter (fun rel => is_dependency (rel_type rel) &&
                               negb (bool_decide (rel_target rel ∈ visited)))
                   rels).

(** The [while (queue.length > 0)] loop of [wouldCreateCycle]; [None]
    when [fuel] iterations do not empty the queue. *)
Fixpoint search (fuel : nat) (s : Store) (sourceId : string)
    (visited : gset string) (queue : list string) : option bool :=
  match fuel with
  | 0 => None
  | S fuel' =>
      match queue with
      | [] => Some false
      | currentId :: queue' =>
          if bool_decide (currentId = sourceId) then Some true
          else if bool_decide (currentId ∈ visited)
          then search fuel' s sourceId visited queue'
          else
            let visited' := {[ currentId ]} ∪ visited in
            match EntityRepo.find s currentId with
            | None => search fuel' s sourceId visited' queue'
            | Some current =>
                search fuel' s sourceId visited'
                       (queue' ++ followed visited' (relations current))
            end
      end
  end.

(** A number of iterations that always suffices: every iteration either
    drops a queue entry for good or visits a record whose edges have not
    been followed yet. *)
Definition search_fuel (s : Store) : nat :=
  2 + foldr (fun e n => length (relations e) + n) 0 (entities s).

Definition wouldCreateCycle (s : Store) (sourceId targetId relationType : string)
  : bool :=
  if negb (is_dependency relationType) then false
  else default false (search (search_fuel s) s sourceId ∅ [targetId]).

Definition link (env : Env) (sourceId relationType targetId : string)
  : M (option Entity) :=
  check (negb (bool_decide (sourceId = targetId))) SelfReference ;;;
  cyclic <- gets (fun s =>
                    is_dependency relationType &&
                    wouldCreateCycle s sourceId targetId relationType) ;;
  check (negb cyclic) (WouldCreateCycle sourceId targetId) ;;;
  EntityRepo.addRelation env sourceId relationType targetId.

Definition unlink (env : Env) (sourceId relationType targetId : string)
  : M (option Entity) :=
  EntityRepo.removeRelation env sourceId relationType targetId.

Definition findBlocked (s : Store) (entityId : string) : list Entity :=
  EntityRepo.findRelatedFrom s entityId (Some "depends_on").

Definition findDependencies (s : Store) (entityId : string) : list Entity :=
  match EntityRepo.find s entityId with
  | None => []
  | Some ent =>
      omap (fun rel => EntityRepo.find s (rel_target rel))
           (List.filter (fun rel => bool_decide (rel_type rel = "depends_on"))
                        (relations ent))
  end.

(** The terminal statuses of [isBlocked]. *)
Definition terminalStatuses : list string :=
  ["completed"; "resolved"; "accepted"; "cancelled"; "deprecated"; "rejected"].

Record Blocker := { b_id : string; b_title : string; b_status : string }.

Record BlockedStatus := { blocked : bool; blockers : list Blocker }.

Definition unresolved (dep : Entity) : bool :=
  negb (bool_decide (status dep ∈ terminalStatuses)).

Definition isBlocked (s : Store) (entityId : string) : BlockedStatus :=
  let dependencies := findDependencies s entityId in
  let blockers := List.filter unresolved dependencies in
  {| blocked := 0 <? length blockers;
     blockers := map (fun b => {| b_id := id b; b_title := title b;
                                  b_status := status b |}) blockers |}.

(** An entry of [getRelations(...).outgoing]. *)
Record Outgoing := {
  o_type : string;
  o_target : string;
  o_targetEntity : option Entity
}.

(** An entry of [getRelations(...).incoming]. *)
Record Incoming := {
  i_type : string;
  i_source : string;
  i_sourceEntity : Entity
}.

Record Relations := { outgoing : list Outgoing; incoming : list Incoming }.

(** The exception of [getRelations]. *)
Inductive QueryError := EntityNotFound (entityId : string).

(** [getRelations]. *)
Definition getRelations (s : Store) (entityId : string)
  : QueryError + Relations :=
  match EntityRepo.find s entityId with
  | None => inl (EntityNotFound entityId)
  | Some ent =>
      let outgoing :=
        map (fun rel => {| o_type := rel_type rel; o_target := rel_target rel;
                           o_targetEntity := EntityRepo.find s (rel_target rel) |})
            (relations ent) in
      let relatedEntities := EntityRepo.findRelatedFrom s entityId None in
      let incoming :=
        flat_map
          (fun related =>
             map (fun rel => {| i_type := rel_type rel; i_source := id related;
                                i_sourceEntity := related |})
                 (List.filter (fun r => bool_decide (rel_target r = entityId))
                              (relations related)))
          relatedEntities in
      inr {| outgoing := outgoing; incoming := incoming |}
  end.

(** The loop of [getTransitiveDependencies]; [None] when [fuel] iterations
    do not empty the queue. *)
Fixpoint collect (fuel : nat) (s : Store) (visited : gset string)
    (queue : list string) : option (list Entity) :=
  match fuel with
  | 0 => None
  | S fuel' =>
      match queue with
      | [] => Some []
      | currentId :: queue' =>
          if bool_decide (currentId ∈ visited)
          then collect fuel' s visited queue'
          else
            let visited' := {[ currentId ]} ∪ visited in
            match EntityRepo.find s currentId with
            | None => collect fuel' s visited' queue'
            | Some current =>
                (fun result => current :: result) <$>
                  collect fuel' s visited'
                          (queue' ++ followed visited' (relations current))
            end
      end
  end.

(** [getTransitiveDependencies]; the fuel of [wouldCreateCycle] suffices
    here as well. *)
Definition getTransitiveDependencies (s : Store) (entityId : string)
  : list Entity :=
  default [] (collect (search_fuel s) s ∅ [entityId]).

(** A node of [getDependencyGraph]: the id, type, title and status of a
    record. *)
Record DependencyNode := {
  dn_id : string;
  dn_type : EntityType;
  dn_title : string;
  dn_status : string
}.

(** The result of [getDependencyGraph]. *)
Record DependencyGraph := {
  dg_nodes : list DependencyNode;
  dg_edges : list EntityQuery.GraphEdge
}.

(** [getDependencyGraph]; a missing or empty [rootId] selects every
    entity. *)
Definition getDependencyGraph (s : Store) (rootId : option string)
  : DependencyGraph :=
  let entities :=
    match EntityRepo.nonempty rootId with
    | Some root => getTransitiveDependencies s root
    | None => EntityQuery.list s EntityQuery.no_filters
    end in
  let nodeIds := Js.new_Set (map id entities) in
  {| dg_nodes :=
       map (fun e => {| dn_id := id e; dn_type := type e;
                        dn_title := title e; dn_status := status e |})
           entities;
     dg_edges :=
       flat_map
         (fun ent =>
            map (fun rel => {| EntityQuery.e_source := id ent;
                               EntityQuery.e_target := rel_target rel;
                               EntityQuery.e_type := rel_type rel |})
                (List.filter (fun rel => is_dependency (rel_type rel) &&
                                         Js.has nodeIds (rel_target rel))
                             (relations ent)))
         entities |}.

(** The result of [validateRelationType]: valid, or the error it names. *)
Inductive RelationTypeCheck :=
| IsValid
| UnknownRelationType
| CannotOriginateFrom (expected : option EntityType)
| CannotTarget (expected : option EntityType).

(** [validateRelationType]; the types are the strings of the [type]
    fields. *)
Definition validateRelationType (relationType sourceType targetType : string)
  : RelationTypeCheck :=
  match EntityRepo.RELATION_TYPES relationType with
  | EntityRepo.Undefined => UnknownRelationType
  | EntityRepo.Inherited => CannotOriginateFrom None
  | EntityRepo.Declared from to =>
      if negb (bool_decide (type_name from = sourceType))
      then CannotOriginateFrom (Some from)
      else if negb (bool_decide (type_name to = targetType))
      then CannotTarget (Some to)
      else IsValid
  end.

(** [Object.entries(RELATION_TYPES)]. *)
Definition RELATION_ENTRIES : list (string * (EntityType * EntityType)) :=
  [("threatens", (Problem, Goal)); ("addresses", (Idea, Problem));
   ("pursues", (Idea, Goal)); ("complements", (Idea, Idea));
   ("conflicts", (Idea, Idea)); ("requires", (Idea, Idea));
   ("similar", (Idea, Idea)); ("duplicate", (Idea, Idea));
   ("supersedes", (Idea, Idea)); ("alternative", (Idea, Idea));
   ("extends", (Idea, Idea)); ("implements", (Action, Idea));
   ("depends_on", (Action, Action)); ("blocks", (Action, Action))].

(** [getSuggestedRelations]. *)
Definition getSuggestedRelations (sourceType targetType : string)
  : list string :=
  map fst
      (List.filter (fun e => bool_decide (type_name e.2.1 = sourceType) &&
                             bool_decide (type_name e.2.2 = targetType))
                   RELATION_ENTRIES).

End RelationEngine.

(** Reachability along dependency-forming edges, as the specification
    words it: [edge s a b] when the record found under [a] has an edge of
    type [depends_on], [requires] or [blocks] to [b]. *)
Module RelationSpec.

Definition edge (s : Store) (a b : string) : Prop :=
  exists e rel,
    EntityRepo.find s a = Some e /\
    rel ∈ relations e /\
    rel_type rel ∈ RelationEngine.DEPENDENCY_RELATIONS /\
    rel_target rel = b.

Definition reachable (s : Store) : string -> string -> Prop := rtc (edge s).

(** The invariant of the search: an edge that leaves a visited node leads
    to a visited node or to a node of the queue. *)
Definition frontier_closed (s : Store) (visited : gset string)
    (queue : list string) : Prop :=
  forall v w, v ∈ visited -> edge s v w -> w ∈ visited \/ w ∈ queue.

(** The measure of the search: the number of edges of the records that
    have not been visited. *)
Definition pending (visited : gset string) (records : list Entity) : nat :=
  foldr (fun e n => (if bool_decide (id e ∈ visited) then 0
                     else length (relations e)) + n) 0 records.

(** The dependency-forming edges form no cycle. *)
Definition acyclic (s : Store) : Prop := forall x, ~ tc (edge s) x x.

End RelationSpec.

(** The history an update is expected to leave, and the validity of an
    edge, as the specification words them. *)
Module EntitySpec.

Import EntityRepo.

(** One entry for each tracked field that [updates] supplies, with the
    value before the update and the value after it; [body] is not among
    them. *)
Definition tracked_entries (now : string) (updates : Updates)
    (before after : Entity) : list HistoryEntry :=
  (if u_title updates is Some _
   then [history_entry now "title_changed" "title"
           (HString (title before)) (HString (title after))]
   else []) ++
  (if u_status updates is Some _
   then [history_entry now "status_changed" "status"
           (HString (status before)) (HString (status after))]
   else []) ++
  (if u_priority updates is Some _
   then [history_entry now "priority_changed" "priority"
           (HNumber (priority before)) (HNumber (priority after))]
   else []) ++
  (if u_gov_id updates is Some _
   then [history_entry now
           (if gov_id after is Some _ then "assigned" else "unassigned")
           "gov_id"
           (string_or_null (gov_id before)) (string_or_null (gov_id after))]
   else []) ++
  (if u_relations updates is Some _
   then [history_entry now "relations_changed" "relations"
           (HRelations (relations before)) (HRelations (relations after))]
   else []).

(** The entries [update] appends, read off the patch it builds. *)
Definition patch_entries (now : string) (e : Entity) (p : Patch)
  : list HistoryEntry :=
  match p_title p with
  | Some t => [history_entry now "title_changed" "title"
                 (HString (title e)) (HString t)]
  | None => []
  end ++
  match p_status p with
  | Some st => [history_entry now "status_changed" "status"
                  (HString (status e)) (HString st)]
  | None => []
  end ++
  match p_priority p with
  | Some n => [history_entry now "priority_changed" "priority"
                 (HNumber (priority e)) (HNumber n)]
  | None => []
  end ++
  match p_gov_id p with
  | Some g => [history_entry now
                 (if g is Some _ then "assigned" else "unassigned")
                 "gov_id" (string_or_null (gov_id e)) (string_or_null g)]
  | None => []
  end ++
  match p_relations p with
  | Some l => [history_entry now "relations_changed" "relations"
                 (HRelations (relations e)) (HRelations l)]
  | None => []
  end.

(** An edge from an entity of type [sourceType] is valid when its type is
    declared from [sourceType] to the type of the target, which exists. *)
Definition valid_edge (s : Store) (sourceType : EntityType) (rel : Relation)
  : Prop :=
  rel_target rel <> "" /\
  exists target,
    find s (rel_target rel) = Some target /\
    declared_relation (rel_type rel) = Some (sourceType, type target).

End EntitySpec.

(** The filters of [list], as its comments word them: by type, by
    government, unfiled, by status, by priority, by relation target.  A
    filter that is absent or empty selects everything. *)
Module EntityQuerySpec.

Import EntityQuery.


End EntityQuerySpec.

(* ================================================================== *)
(** * Sample data                                                       *)
(* ================================================================== *)

Module Sample.

Import EntityRepo RelationEngine.
Local Open Scope store_scope.

(** An environment whose digests all read [digest]. *)
Definition env (digest : string) : Env :=
  {| env_now := "2026-01-17T10:00:00.000Z";
     env_write_time := "2026-01-17T10:00:00.001Z";
     env_digest := fun _ => Js.chars digest |}.

Definition empty : Store := {| entities := []; governments := [] |}.

Definition untitled : CreateData :=
  {| d_title := None; d_body := None; d_priority := None; d_status := None;
     d_gov_id := None; d_relations := None; d_metadata := None;
     d_location := None; d_report_count := None; d_supporters := None;
     d_support_count := None; d_similar_ideas := None;
     d_ai_classification := None; d_assignee := None; d_due_date := None |}.

Definition titled (t : string) : CreateData :=
  {| d_title := Some t; d_body := None; d_priority := None; d_status := None;
     d_gov_id := None; d_relations := None; d_metadata := None;
     d_location := None; d_report_count := None; d_supporters := None;
     d_support_count := None; d_similar_ideas := None;
     d_ai_classification := None; d_assignee := None; d_due_date := None |}.

Definition with_relations (t : string) (rels : list Relation) : CreateData :=
  {| d_title := Some t; d_body := None; d_priority := None; d_status := None;
     d_gov_id := None; d_relations := Some rels; d_metadata := None;
     d_location := None; d_report_count := None; d_supporters := None;
     d_support_count := None; d_similar_ideas := None;
     d_ai_classification := None; d_assignee := None; d_due_date := None |}.

Definition keep_open : CloseOptions :=
  {| rejected := false; cancelled := false; reason := None |}.

Definition reject : CloseOptions :=
  {| rejected := true; cancelled := false; reason := None |}.

Definition new_body (b : string) : Updates :=
  {| u_title := None; u_body := Some (Some b); u_status := None;
     u_priority := None; u_gov_id := None; u_relations := None;
     u_location := None; u_assignee := None; u_due_date := None;
     u_support_count := None; u_supporters := None;
     u_ai_classification := None; u_metadata := None |}.

Definition new_title_and_priority (t : string) (p : Z) : Updates :=
  {| u_title := Some t; u_body := None; u_status := None;
     u_priority := Some (PNumber p); u_gov_id := None; u_relations := None;
     u_location := None; u_assignee := None; u_due_date := None;
     u_support_count := None; u_supporters := None;
     u_ai_classification := None; u_metadata := None |}.

(** Three actions [ga-aaaa], [ga-bbbb] and [ga-cccc], the first of which
    depends on the second. *)
Definition three_actions : M unit :=
  create (env "aaaaaaaa") "action" (titled "Resurface Main Street") ;;;
  create (env "bbbbbbbb") "action" (titled "Order asphalt") ;;;
  create (env "cccccccc") "action" (titled "Hire contractor") ;;;
  link (env "") "ga-aaaa" "depends_on" "ga-bbbb" ;;;
  ret tt.

Definition actions : Store := (three_actions empty).1.

(** The same after the deletion of [ga-bbbb]: [ga-aaaa] keeps its edge. *)
Definition dangling : Store :=
  ((three_actions ;;; remove "ga-bbbb") empty).1.

(** One idea, [gd-dddd], in its initial status. *)
Definition one_idea : Store :=
  (create (env "dddddddd") "idea" (titled "Plant street trees") empty).1.

(** Updates that supply one field. *)
Definition new_status (st : string) : Updates :=
  {| u_title := None; u_body := None; u_status := Some st;
     u_priority := None; u_gov_id := None; u_relations := None;
     u_location := None; u_assignee := None; u_due_date := None;
     u_support_count := None; u_supporters := None;
     u_ai_classification := None; u_metadata := None |}.

Definition new_metadata (m : gmap string string) : Updates :=
  {| u_title := None; u_body := None; u_status := None;
     u_priority := None; u_gov_id := None; u_relations := None;
     u_location := None; u_assignee := None; u_due_date := None;
     u_support_count := None; u_supporters := None;
     u_ai_classification := None; u_metadata := Some m |}.

Definition new_assignee (who : string) : Updates :=
  {| u_title := None; u_body := None; u_status := None;
     u_priority := None; u_gov_id := None; u_relations := None;
     u_location := None; u_assignee := Some (Some who); u_due_date := None;
     u_support_count := None; u_supporters := None;
     u_ai_classification := None; u_metadata := None |}.

Definition with_reason (r : string) : CloseOptions :=
  {| rejected := false; cancelled := false; reason := Some r |}.

End Sample.

(* ================================================================== *)
(** * Properties                                                        *)
(* ================================================================== *)

#[local] Set Warnings "-clear-no-such-hyp".

(** ** JavaScript sets as duplicate-free lists *)

Section NewSet.
Context {A : Type} `{EqDecision A}.

Lemma set_add_elem (s : list A) (x y : A) :
  y ∈ Js.set_add s x <-> y ∈ s \/ y = x.
Proof.
  unfold Js.set_add. destruct (decide (x ∈ s)) as [Hin|Hout].
  - split; [auto|]. intros [?| ->]; auto.
  - rewrite elem_of_app, list_elem_of_singleton. tauto.
Qed.

Lemma set_add_NoDup (s : list A) (x : A) :
  NoDup s -> NoDup (Js.set_add s x).
Proof.
  intros Hs. unfold Js.set_add. destruct (decide (x ∈ s)); [done|].
  apply NoDup_app. split_and!; [done| |apply NoDup_singleton].
  intros y Hy ->%list_elem_of_singleton. done.
Qed.

Lemma foldl_set_add_elem (l acc : list A) (y : A) :
  y ∈ foldl Js.set_add acc l <-> y ∈ acc \/ y ∈ l.
Proof.
  revert acc. induction l as [|x l IH]; intros acc; simpl.
  - rewrite elem_of_nil. tauto.
  - rewrite IH, set_add_elem, elem_of_cons. tauto.
Qed.

Lemma foldl_set_add_NoDup (l acc : list A) :
  NoDup acc -> NoDup (foldl Js.set_add acc l).
Proof.
  revert acc. induction l as [|x l IH]; intros acc Hacc; simpl; [done|].
  apply IH, set_add_NoDup, Hacc.
Qed.

Lemma new_Set_elem (l : list A) (y : A) : y ∈ Js.new_Set l <-> y ∈ l.
Proof.
  unfold Js.new_Set. rewrite foldl_set_add_elem, elem_of_nil. tauto.
Qed.

Lemma new_Set_NoDup (l : list A) : NoDup (Js.new_Set l).
Proof. apply foldl_set_add_NoDup, NoDup_nil_2. Qed.

Lemma new_Set_nonempty (l : list A) : l <> [] -> Js.new_Set l <> [].
Proof.
  destruct l as [|x l]; [done|]. intros _ Hnil.
  assert (x ∈ Js.new_Set (x :: l)) as Hx by (apply new_Set_elem; left).
  rewrite Hnil in Hx. by apply elem_of_nil in Hx.
Qed.
End NewSet.

Lemma new_Set_size `{Countable A} (l : list A) :
  length (Js.new_Set l) = size (list_to_set l : gset A).
Proof.
  rewrite <- (size_list_to_set (C := gset A) (Js.new_Set l)) by apply new_Set_NoDup.
  f_equal. apply set_eq. intros x.
  rewrite !elem_of_list_to_set. apply new_Set_elem.
Qed.

Lemma split_ws_go_nonempty (b : bool) (cur s : list ascii) :
  Js.split_ws_go b cur s <> [].
Proof.
  revert b cur. induction s as [|c s IH]; intros b cur; simpl; [done|].
  destruct (Js.is_space c); [destruct b|]; auto.
Qed.

(** ** Similarity *)

Section Similarity.
Import Ai.

Lemma split_collapse (b : bool) (cur l : list ascii) :
  Js.split_ws_go b cur (Js.collapse_ws_go b l) = Js.split_ws_go b cur l.
Proof.
  revert b cur. induction l as [|c l IH]; intros b cur; simpl; [done|].
  destruct (Js.is_space c) eqn:Hc.
  - destruct b; simpl; [apply IH|].
    change (Js.is_space " ") with true. cbn iota. by rewrite IH.
  - simpl. rewrite Hc. apply IH.
Qed.

Lemma split_after_separator (s : list ascii) :
  List.filter (fun w : list ascii => negb (bool_decide (w = [])))
    (Js.split_ws_go true [] s) =
  List.filter (fun w : list ascii => negb (bool_decide (w = [])))
    (Js.split_ws_go false [] s).
Proof.
  destruct s as [|c s]; simpl; [done|].
  by destruct (Js.is_space c).
Qed.

Lemma split_trimStart (l : list ascii) :
  List.filter (fun w : list ascii => negb (bool_decide (w = [])))
    (Js.split_ws (Js.trimStart l)) =
  List.filter (fun w : list ascii => negb (bool_decide (w = [])))
    (Js.split_ws l).
Proof.
  unfold Js.split_ws. induction l as [|c l IH]; simpl; [done|].
  destruct (Js.is_space c) eqn:Hc; simpl.
  - by rewrite IH, split_after_separator.
  - by rewrite Hc.
Qed.

Lemma split_snoc_space (b : bool) (cur l : list ascii) (c : ascii) :
  Js.is_space c = true ->
  List.filter (fun w : list ascii => negb (bool_decide (w = [])))
    (Js.split_ws_go b cur (l ++ [c])) =
  List.filter (fun w : list ascii => negb (bool_decide (w = [])))
    (Js.split_ws_go b cur l).
Proof.
  intros Hc. revert b cur.
  induction l as [|d l IH]; intros b cur; simpl.
  - rewrite Hc. destruct b; simpl; [done|].
    by destruct (bool_decide (rev cur = [])).
  - destruct (Js.is_space d); [destruct b|]; simpl; by rewrite ?IH.
Qed.

Lemma trimEnd_snoc (l : list ascii) (c : ascii) :
  Js.trimEnd (l ++ [c]) = if Js.is_space c then Js.trimEnd l else l ++ [c].
Proof.
  unfold Js.trimEnd. rewrite rev_app_distr. simpl.
  destruct (Js.is_space c); [done|]. simpl. by rewrite rev_involutive.
Qed.

Lemma split_trimEnd (l : list ascii) :
  List.filter (fun w : list ascii => negb (bool_decide (w = [])))
    (Js.split_ws (Js.trimEnd l)) =
  List.filter (fun w : list ascii => negb (bool_decide (w = [])))
    (Js.split_ws l).
Proof.
  unfold Js.split_ws. induction l as [|c l IH] using rev_ind; [done|].
  rewrite trimEnd_snoc. destruct (Js.is_space c) eqn:Hc; [|done].
  by rewrite IH, split_snoc_space.
Qed.

Lemma trimEnd_last (l : list ascii) (c : ascii) :
  last (Js.trimEnd l) = Some c -> Js.is_space c = false.
Proof.
  induction l as [|d l IH] using rev_ind; [done|].
  rewrite trimEnd_snoc. destruct (Js.is_space d) eqn:Hd; [done|].
  rewrite last_snoc. by intros [= <-].
Qed.

Lemma trimEnd_head (l : list ascii) :
  Js.trimEnd l <> [] -> head (Js.trimEnd l) = head l.
Proof.
  induction l as [|d l IH] using rev_ind; [done|].
  rewrite trimEnd_snoc. destruct (Js.is_space d); [|done].
  intros Hne. rewrite (IH Hne). destruct l; [|done].
  by exfalso.
Qed.

Lemma trimStart_head (l : list ascii) (c : ascii) :
  head (Js.trimStart l) = Some c -> Js.is_space c = false.
Proof.
  induction l as [|d l IH]; simpl; [done|].
  destruct (Js.is_space d) eqn:Hd; [done|]. simpl. by intros [= <-].
Qed.

(** A text that does not end in white space splits into pieces none of
    which is empty, once the split is past the beginning. *)
Lemma split_pieces_nonempty (b : bool) (cur s : list ascii) :
  (b = false /\ cur <> []) \/ (b = true /\ cur = []) ->
  match last s with
  | Some c => Js.is_space c = false
  | None => b = false
  end ->
  Forall (fun w => w <> []) (Js.split_ws_go b cur s).
Proof.
  revert b cur. induction s as [|c s IH]; intros b cur Hstate Hend; simpl.
  - simpl in Hend. subst b. destruct Hstate as [[_ Hcur]|[[=] _]].
    apply Forall_singleton. intros Hnil. apply Hcur.
    by rewrite <- (rev_involutive cur), Hnil.
  - assert (Js.is_space c = true ->
            match last s with
            | Some c' => Js.is_space c' = false
            | None => true = false
            end) as Hrest.
    { intros Hc. destruct s as [|d s]; [simpl in Hend; congruence|].
      rewrite last_cons_cons in Hend.
      destruct (last (d :: s)) eqn:Hl; [done|]. by apply last_None in Hl. }
    destruct (Js.is_space c) eqn:Hc.
    + destruct b.
      * apply IH; [by right; destruct Hstate as [[[=] _]|[_ ->]]|by apply Hrest].
      * constructor.
        -- destruct Hstate as [[_ Hcur]|[[=] _]]. intros Hnil. apply Hcur.
           by rewrite <- (rev_involutive cur), Hnil.
        -- apply IH; [by right|by apply Hrest].
    + apply IH; [by left|]. destruct s as [|d s]; [done|].
      rewrite last_cons_cons in Hend.
      destruct (last (d :: s)) eqn:Hl; [done|]. by apply last_None in Hl.
Qed.

Lemma next_char_open (l : list ascii) :
  (foldr AiSpec.next_char ([], false) l).2 = true ->
  (foldr AiSpec.next_char ([], false) l).1 <> [].
Proof.
  destruct l as [|c l]; simpl; [done|].
  generalize (foldr AiSpec.next_char ([], false) l). intros r.
  unfold AiSpec.next_char. destruct (Js.is_space c); simpl; [done|].
  by destruct r as [[|w ws] []].
Qed.

(** The pieces of a split that are not empty are the words. *)
Lemma split_word_list (b : bool) (cur s : list ascii) :
  (b = true -> cur = []) ->
  List.filter (fun w : list ascii => negb (bool_decide (w = [])))
    (Js.split_ws_go b cur s) =
  match foldr AiSpec.next_char ([], false) s with
  | (w :: ws, true) => (rev cur ++ w) :: ws
  | (ws, _) => (if cur is [] then [] else [rev cur]) ++ ws
  end.
Proof.
  assert (forall cur : list ascii,
             List.filter (fun w : list ascii => negb (bool_decide (w = [])))
               [rev cur] =
             if cur is [] then [] else [rev cur]) as Hone.
  { intros [|c cur']; simpl; [done|].
    rewrite bool_decide_eq_false_2; [done|]. by intros []%app_eq_nil. }
  revert b cur. induction s as [|c s IH]; intros b cur Hstate.
  - simpl. specialize (Hone cur). simpl in Hone. rewrite Hone.
    by rewrite app_nil_r.
  - pose proof (next_char_open s) as Hopen.
    cbn [Js.split_ws_go foldr]. unfold AiSpec.next_char at 1.
    destruct (Js.is_space c) eqn:Hc.
    + destruct (foldr _ _ s) as [ws op] eqn:Hs. simpl.
      destruct b.
      * rewrite (Hstate eq_refl) in *. rewrite (IH true [] (fun _ => eq_refl)).
        simpl. by destruct ws as [|w ws'], op.
      * change (rev cur :: Js.split_ws_go true [] s)
          with ([rev cur] ++ Js.split_ws_go true [] s).
        rewrite List.filter_app, Hone, (IH true [] (fun _ => eq_refl)).
        simpl. by destruct ws as [|w ws'], op.
    + rewrite (IH false (c :: cur)) by done.
      destruct (foldr _ _ s) as [[|w ws] []]; simpl in *;
        rewrite <- ?app_assoc; done.
Qed.

Lemma word_list_split (l : list ascii) :
  AiSpec.word_list l =
    List.filter (fun w : list ascii => negb (bool_decide (w = [])))
      (Js.split_ws l).
Proof.
  unfold Js.split_ws, AiSpec.word_list.
  rewrite split_word_list by done.
  pose proof (next_char_open l) as Hopen.
  by destruct (foldr _ _ l) as [[|w ws] []].
Qed.

(** What [normalizeText] and the split leave of a text are its words, or
    the one empty piece. *)
Lemma split_normalized (l : list ascii) :
  Js.split_ws (Js.trim (Js.collapse_ws l)) =
  match AiSpec.word_list l with
  | [] => [[]]
  | ws => ws
  end.
Proof.
  assert (
    List.filter (fun w : list ascii => negb (bool_decide (w = [])))
      (Js.split_ws (Js.trim (Js.collapse_ws l)))
          = AiSpec.word_list l) as Hwords.
  { unfold Js.trim. rewrite split_trimEnd, split_trimStart, word_list_split.
    unfold Js.split_ws, Js.collapse_ws. by rewrite split_collapse. }
  destruct (Js.trim (Js.collapse_ws l)) as [|c t] eqn:Ht.
  { simpl in Hwords. by rewrite <- Hwords. }
  assert (Js.is_space c = false) as Hc.
  { apply (trimStart_head (Js.collapse_ws l)).
    unfold Js.trim in Ht. rewrite <- trimEnd_head by by rewrite Ht.
    by rewrite Ht. }
  assert (Forall (fun w => w <> []) (Js.split_ws (c :: t))) as Hpieces.
  { unfold Js.split_ws. simpl. rewrite Hc.
    apply split_pieces_nonempty; [by left|].
    destruct (last t) as [d|] eqn:Hd; [|done].
    apply (trimEnd_last (Js.trimStart (Js.collapse_ws l))).
    unfold Js.trim in Ht. rewrite Ht. simpl. by destruct t. }
  assert (
    List.filter (fun w : list ascii => negb (bool_decide (w = [])))
      (Js.split_ws (c :: t))
          = Js.split_ws (c :: t)) as Hall.
  { revert Hpieces. generalize (Js.split_ws (c :: t)).
    induction 1 as [|w ws Hw _ IH]; simpl; [done|].
    rewrite bool_decide_eq_false_2 by done. simpl. by rewrite IH. }
  rewrite <- Hwords, Hall.
  pose proof (split_ws_go_nonempty false [] (c :: t)) as Hne.
  unfold Js.split_ws. by destruct (Js.split_ws_go false [] (c :: t)).
Qed.

Lemma words_token_set (text : string) :
  list_to_set (words text) = AiSpec.token_set text.
Proof.
  unfold words, AiSpec.token_set, normalizeText, Js.toLowerCase.
  fold (AiSpec.stripped text). rewrite split_normalized.
  apply set_eq. intros x. rewrite elem_of_list_to_set, new_Set_elem.
  destruct (AiSpec.word_list (AiSpec.stripped text)) as [|w ws].
  - simpl. set_solver.
  - by rewrite elem_of_list_to_set.
Qed.




Lemma words_nonempty (text : string) : words text <> [].
Proof.
  unfold words. apply new_Set_nonempty.
  unfold Js.split_ws. intros Hnil%fmap_nil_inv.
  by apply split_ws_go_nonempty in Hnil.
Qed.

Lemma intersection_size (text1 text2 : string) :
  length (intersection (words text1) (words text2)) =
  size (AiSpec.token_set text1 ∩ AiSpec.token_set text2).
Proof.
  unfold intersection. rewrite new_Set_size. f_equal.
  rewrite <- !words_token_set. apply set_eq. intros x.
  rewrite elem_of_intersection, !elem_of_list_to_set, !list_elem_of_In.
  rewrite filter_In. unfold Js.has. rewrite bool_decide_eq_true.
  rewrite !list_elem_of_In. tauto.
Qed.

Lemma union_size (text1 text2 : string) :
  length (union (words text1) (words text2)) =
  size (AiSpec.token_set text1 ∪ AiSpec.token_set text2).
Proof.
  unfold union. rewrite new_Set_size. f_equal.
  rewrite <- !words_token_set. apply set_eq. intros x.
  rewrite elem_of_union, !elem_of_list_to_set, elem_of_app. tauto.
Qed.

Lemma union_nonempty (text1 text2 : string) :
  length (union (words text1) (words text2)) <> 0.
Proof.
  unfold union. intros Hlen%length_zero_iff_nil.
  apply new_Set_nonempty in Hlen; [done|].
  intros [Hnil _]%app_eq_nil. by apply words_nonempty in Hnil.
Qed.

Lemma calculateSimilarity_jaccard (text1 text2 : string) :
  calculateSimilarity text1 text2 = AiSpec.similarity text1 text2.
Proof.
  unfold calculateSimilarity, AiSpec.similarity.
  destruct (bool_decide (text1 = "") || bool_decide (text2 = "")); [done|].
  cbv zeta. destruct (Nat.eqb_spec (length (union (words text1) (words text2))) 0)
    as [Hz|_].
  - by apply union_nonempty in Hz.
  - unfold AiSpec.jaccard. by rewrite intersection_size, union_size.
Qed.
End Similarity.


(** C10. Two non-empty texts that both normalize to the empty string have
    similarity 1: each splits into the single empty token.  The token-set
    union is never empty, so the guard on an empty union is never taken, and
    the early zero is returned exactly when an input string is empty. *)
Theorem calculateSimilarity_empty_tokens :
  (forall text1 text2 : string,
      text1 <> "" -> text2 <> "" ->
      Ai.normalizeText (Js.chars text1) = [] ->
      Ai.normalizeText (Js.chars text2) = [] ->
      Ai.calculateSimilarity text1 text2 = 1%Q) /\
  (forall text1 text2 : string,
      Ai.union (Ai.words text1) (Ai.words text2) <> [] /\
      Ai.similarity_branch text1 text2 <> Ai.EmptyUnion) /\
  (forall text1 text2 : string,
      Ai.similarity_branch text1 text2 = Ai.EmptyInput <->
      text1 = "" \/ text2 = "").
Proof.
  split_and!.
  - intros text1 text2 H1 H2 Hn1 Hn2. unfold Ai.calculateSimilarity.
    rewrite !bool_decide_eq_false_2 by done.
    unfold Ai.words. rewrite Hn1, Hn2. vm_compute. reflexivity.
  - intros text1 text2.
    pose proof (union_nonempty text1 text2) as Hlen. split.
    + intros Hnil. by rewrite Hnil in Hlen.
    + unfold Ai.similarity_branch.
      destruct (bool_decide (text1 = "") || bool_decide (text2 = "")); [done|].
      by destruct (Nat.eqb_spec (length (Ai.union (Ai.words text1) (Ai.words text2))) 0).
  - intros text1 text2. unfold Ai.similarity_branch.
    destruct (decide (text1 = "")) as [->|H1].
    { rewrite bool_decide_eq_true_2 by done. simpl. naive_solver. }
    destruct (decide (text2 = "")) as [->|H2].
    { rewrite (bool_decide_eq_true_2 ("" = "")), orb_true_r by done. naive_solver. }
    rewrite !bool_decide_eq_false_2 by done. simpl.
    destruct (length _ =? 0); (split; [done|by intros [?|?]]).
Qed.

Lemma calculateSimilarity_empty_tokens_witness :
  "!!!" <> "" /\ "???" <> "" /\
  Ai.normalizeText (Js.chars "!!!") = [] /\
  Ai.normalizeText (Js.chars "???") = [] /\
  Ai.calculateSimilarity "!!!" "???" = 1%Q.
Proof.
  split_and!; [done|done|reflexivity|reflexivity|].
  apply (proj1 calculateSimilarity_empty_tokens); [done|done|reflexivity|reflexivity].
Defined.

(** ** Classification *)

Section Classification.
Import Ai.

Lemma keywords_lowercase (t : EntityType) :
  Forall (fun kw => Js.toLowerCase (Js.chars kw) = Js.chars kw)
         (TYPE_KEYWORDS t).
Proof. destruct t; apply (bool_decide_unpack _); by vm_compute. Qed.

Lemma matched_score (text : string) (t : EntityType) :
  length (matched (Js.toLowerCase (Js.chars text)) t) = AiSpec.score text t.
Proof.
  unfold matched, AiSpec.score.
  pose proof (keywords_lowercase t) as Hlow. revert Hlow.
  generalize (TYPE_KEYWORDS t). intros l Hlow.
  induction Hlow as [|kw l Hkw _ IH]; [done|].
  simpl. rewrite Hkw. destruct (Js.includes _ _); simpl; by rewrite IH.
Qed.

Lemma count_scores_spec (text : string) :
  count_scores (Js.toLowerCase (Js.chars text)) =
  map (fun t => (t, AiSpec.score text t)) ENTITY_TYPES.
Proof. unfold count_scores. simpl. by rewrite !matched_score. Qed.

(** The loop over the four entries selects the first type with the
    highest score, or idea when every score is zero. *)
Lemma best_step_fold (text : string) :
  fold_left best_step
            (map (fun t => (t, AiSpec.score text t)) ENTITY_TYPES)
            (Idea, 0, 0) =
  (AiSpec.best_type text, AiSpec.max_score text, AiSpec.total_score text).
Proof.
  unfold AiSpec.best_type, AiSpec.max_score, AiSpec.total_score.
  simpl.
  generalize (AiSpec.score text Goal) (AiSpec.score text Problem)
             (AiSpec.score text Idea) (AiSpec.score text Action).
  intros a b c d. unfold best_step.
  simpl.
  repeat (match goal with
          | |- context [?x <? ?y] => destruct (Nat.ltb_spec x y)
          | |- context [?x =? ?y] => destruct (Nat.eqb_spec x y)
          | |- context [decide ?P] => destruct (decide P)
          end; simpl);
    try (exfalso; lia); (f_equal; [f_equal|]; lia).
Qed.

Lemma round2_proper (x y : Q) : (x == y)%Q -> round2 x = round2 y.
Proof. intros Hxy. unfold round2. by rewrite Hxy. Qed.

Lemma classifyText_spec (text : string) :
  cl_scores (classifyText text) =
    map (fun t => (t, AiSpec.score text t)) ENTITY_TYPES /\
  cl_type (classifyText text) = AiSpec.best_type text /\
  cl_confidence (classifyText text) = round2 (AiSpec.confidence text).
Proof.
  unfold classifyText. rewrite count_scores_spec, best_step_fold. simpl.
  split_and!; [done..|].
  unfold AiSpec.confidence.
  destruct (AiSpec.total_score text) as [|n]; simpl; [by vm_compute|].
  apply round2_proper. symmetry. apply Qred_correct.
Qed.
End Classification.

(** C6, as the code has it.  The scores count the keywords of each type
    that occur in the lower-cased text, the type is the first one of goal,
    problem, idea, action with the highest score (idea when all are zero),
    and the confidence is the best score over the sum of the scores (one
    quarter when all are zero) rounded to two decimals.  The street-light
    example is classified as a problem with positive confidence. *)
Theorem classifyText_reference :
  (forall text : string,
      Ai.cl_scores (Ai.classifyText text) =
        map (fun t => (t, AiSpec.score text t)) ENTITY_TYPES /\
      Ai.cl_type (Ai.classifyText text) = AiSpec.best_type text /\
      Ai.cl_confidence (Ai.classifyText text) =
        Ai.round2 (AiSpec.confidence text)) /\
  Ai.cl_type (Ai.classifyText "fix the broken streetlight") = Problem /\
  (0 < Ai.cl_confidence (Ai.classifyText "fix the broken streetlight"))%Q.
Proof.
  split_and!; [exact classifyText_spec|by vm_compute|by vm_compute].
Qed.

(** C6 as stated fails: with two action keywords and one problem keyword
    the quotient is 2/3, and the confidence returned is 0.67. *)
Lemma classifyText_confidence_is_rounded :
  ~ (forall text : string,
        (Ai.cl_confidence (Ai.classifyText text) == AiSpec.confidence text)%Q).
Proof.
  intros H. specialize (H "fix repair broken"). by vm_compute in H.
Qed.

(** ** Slugs *)

Section Slug.
Import Id IdSpec.

Lemma space_not_alnum (c : ascii) : Js.is_space c = true -> Js.is_alnum c = false.
Proof. destruct c as [[] [] [] [] [] [] [] []]; by vm_compute. Qed.

Lemma alnum_not_hyphen (c : ascii) : Js.is_alnum c = true -> c <> "-"%char.
Proof. intros Hc ->. by vm_compute in Hc. Qed.

Lemma spaces_separators (ws : list ascii) : spaces ws -> separators ws.
Proof. intros Hws. eapply Forall_impl; [exact Hws|]. apply space_not_alnum. Qed.

Lemma trimStart_split (s : list ascii) :
  exists ws, spaces ws /\ s = ws ++ Js.trimStart s.
Proof.
  induction s as [|c s (ws & Hws & Hs)]; simpl.
  - exists []. by split; [constructor|].
  - destruct (Js.is_space c) eqn:Hc.
    + exists (c :: ws). split; [by constructor|]. simpl. by f_equal.
    + exists []. by split; [constructor|].
Qed.

Lemma trimEnd_split (s : list ascii) :
  exists ws, spaces ws /\ s = Js.trimEnd s ++ ws.
Proof.
  destruct (trimStart_split (rev s)) as (ws & Hws & Hs).
  exists (rev ws). split; [by apply Forall_rev|].
  unfold Js.trimEnd. rewrite <- rev_app_distr, <- Hs. by rewrite rev_involutive.
Qed.

Lemma hyphenate_run_separators (u t : list ascii) :
  separators u -> hyphenate_go true (u ++ t) = hyphenate_go true t.
Proof.
  induction 1 as [|c u Hc _ IH]; simpl; [done|]. by rewrite Hc.
Qed.

Lemma hyphenate_separators (b : bool) (u : list ascii) :
  separators u ->
  hyphenate_go b u = if b then [] else if u is [] then [] else ["-"%char].
Proof.
  intros Hu. destruct Hu as [|c u Hc Hu]; simpl; [by destruct b|].
  rewrite Hc. rewrite <- (app_nil_r u), (hyphenate_run_separators u []) by done.
  by destruct b.
Qed.

Lemma hyphenate_run_nil (u : list ascii) :
  hyphenate_go true u = [] -> separators u.
Proof.
  induction u as [|c u IH]; simpl; [constructor|].
  destruct (Js.is_alnum c) eqn:Hc; [done|]. intros Hu.
  constructor; [done|by apply IH].
Qed.

Lemma strip_leading_hyphenate (s : list ascii) :
  strip_leading_hyphen (hyphenate s) = hyphenate_go true s.
Proof.
  unfold hyphenate. destruct s as [|c s]; simpl; [done|].
  destruct (Js.is_alnum c) eqn:Hc; simpl.
  - by rewrite bool_decide_eq_false_2 by by apply alnum_not_hyphen.
  - done.
Qed.

Lemma strip_trailing_nil : strip_trailing_hyphen [] = [].
Proof. done. Qed.

Lemma strip_trailing_cons (c : ascii) (x : list ascii) :
  x <> [] -> strip_trailing_hyphen (c :: x) = c :: strip_trailing_hyphen x.
Proof.
  intros Hx. unfold strip_trailing_hyphen. simpl.
  destruct (rev x) as [|d r] eqn:Hr.
  { apply (f_equal (@rev ascii)) in Hr. rewrite rev_involutive in Hr. done. }
  simpl. destruct (bool_decide (d = "-"%char)); simpl.
  - by rewrite rev_app_distr.
  - by rewrite rev_app_distr.
Qed.

Lemma strip_trailing_single (c : ascii) :
  strip_trailing_hyphen [c] = if bool_decide (c = "-"%char) then [] else [c].
Proof. unfold strip_trailing_hyphen. simpl. by destruct (bool_decide _). Qed.

Lemma hyphenate_app_nil_iff (b : bool) (t ws : list ascii) :
  separators ws ->
  hyphenate_go b (t ++ ws) = [] -> hyphenate_go b t = [].
Proof.
  intros Hws. revert b. induction t as [|c t IH]; intros b; simpl; [done|].
  destruct (Js.is_alnum c); [done|]. destruct b; [apply IH|done].
Qed.

Lemma hyphenate_nil_app (t ws : list ascii) :
  separators ws ->
  hyphenate_go true t = [] -> hyphenate_go true (t ++ ws) = [].
Proof.
  intros Hws Ht%hyphenate_run_nil.
  rewrite hyphenate_run_separators by done. by rewrite hyphenate_separators.
Qed.

Lemma strip_trailing_cons_congr (c : ascii) (x y : list ascii) :
  x <> [] -> y <> [] ->
  strip_trailing_hyphen x = strip_trailing_hyphen y ->
  strip_trailing_hyphen (c :: x) = strip_trailing_hyphen (c :: y).
Proof. intros Hx Hy Heq. rewrite !strip_trailing_cons by done. by f_equal. Qed.

(** White space at the end does not survive the removal of the final
    hyphen. *)
Lemma strip_trailing_hyphenate_spaces (b : bool) (t ws : list ascii) :
  separators ws ->
  strip_trailing_hyphen (hyphenate_go b (t ++ ws)) =
  strip_trailing_hyphen (hyphenate_go b t).
Proof.
  intros Hws. revert b. induction t as [|c t IH]; intros b.
  - simpl. rewrite hyphenate_separators by done.
    destruct b; [done|]. by destruct ws.
  - simpl. destruct (Js.is_alnum c) eqn:Hc.
    + specialize (IH false).
      destruct (decide (hyphenate_go false t = [])) as [Hy|Hy].
      * rewrite Hy in *. rewrite strip_trailing_nil in IH.
        rewrite strip_trailing_single.
        rewrite bool_decide_eq_false_2 by by apply alnum_not_hyphen.
        destruct (hyphenate_go false (t ++ ws)) as [|d x] eqn:Hx.
        { rewrite strip_trailing_single.
          by rewrite bool_decide_eq_false_2 by by apply alnum_not_hyphen. }
        rewrite strip_trailing_cons by done. by rewrite IH.
      * apply strip_trailing_cons_congr; [|done|done].
        intros Hx. by apply hyphenate_app_nil_iff in Hx.
    + destruct b; [apply IH|]. specialize (IH true).
      destruct (decide (hyphenate_go true t = [])) as [Hy|Hy].
      * by rewrite hyphenate_nil_app, Hy.
      * apply strip_trailing_cons_congr; [|done|done].
        intros Hx. by apply hyphenate_app_nil_iff in Hx.
Qed.

(** Trimming white space before the replacement changes nothing. *)
Lemma strip_hyphens_trim (s : list ascii) :
  strip_hyphens (hyphenate (Js.trim s)) = strip_hyphens (hyphenate s).
Proof.
  unfold strip_hyphens, Js.trim. rewrite !strip_leading_hyphenate.
  destruct (trimStart_split s) as (ws1 & Hws1 & Hs).
  destruct (trimEnd_split (Js.trimStart s)) as (ws2 & Hws2 & Ht).
  rewrite Hs at 2.
  rewrite hyphenate_run_separators by by apply spaces_separators.
  rewrite Ht at 2.
  by rewrite strip_trailing_hyphenate_spaces by by apply spaces_separators.
Qed.

Lemma generateSlug_spec (name : string) :
  Id.generateSlug name = IdSpec.generateSlug name.
Proof.
  unfold Id.generateSlug, IdSpec.generateSlug. by rewrite strip_hyphens_trim.
Qed.

Lemma try_counters_found (n counter k : nat) (baseSlug : string)
    (existsCheck : string -> bool) :
  counter <= k < counter + n ->
  (forall j, counter <= j < k -> existsCheck (candidate baseSlug j) = true) ->
  existsCheck (candidate baseSlug k) = false ->
  try_counters n counter baseSlug existsCheck = Some (candidate baseSlug k).
Proof.
  revert counter. induction n as [|n IH]; intros counter Hk Hbusy Hfree; [lia|].
  simpl. destruct (decide (counter = k)) as [->|Hne].
  - by rewrite Hfree.
  - rewrite Hbusy by lia. simpl. apply IH; [lia| |done].
    intros j Hj. apply Hbusy. lia.
Qed.

Lemma try_counters_exhausted (n counter : nat) (baseSlug : string)
    (existsCheck : string -> bool) :
  (forall j, counter <= j < counter + n ->
             existsCheck (candidate baseSlug j) = true) ->
  try_counters n counter baseSlug existsCheck = None.
Proof.
  revert counter. induction n as [|n IH]; intros counter Hbusy; [done|].
  simpl. rewrite Hbusy by lia. simpl. apply IH.
  intros j Hj. apply Hbusy. lia.
Qed.

Lemma hex_digit_is_hex (n : N) : (n < 16)%N -> is_hex (hex_digit n) = true.
Proof.
  intros Hn.
  assert (n ∈ (N.of_nat <$> seq 0 16)) as Hin.
  { apply list_elem_of_fmap. exists (N.to_nat n). split; [lia|].
    apply elem_of_seq. lia. }
  revert Hin. generalize n. apply Forall_forall.
  apply (bool_decide_unpack _). by vm_compute.
Qed.

Lemma hex_of_bytes_hex (bs : list Byte.byte) :
  length (hex_of_bytes bs) = 2 * length bs /\
  forallb is_hex (hex_of_bytes bs) = true.
Proof.
  induction bs as [|b bs [IHl IHh]]; [done|]. unfold hex_of_bytes in *. simpl.
  split; [lia|]. rewrite IHh.
  pose proof (Byte.to_N_bounded b).
  rewrite !hex_digit_is_hex; [done| |].
  - apply N.mod_lt. lia.
  - apply N.Div0.div_lt_upper_bound. lia.
Qed.
End Slug.

Lemma str_length (s : list ascii) : String.length (Js.str s) = length s.
Proof. induction s as [|c s IH]; simpl; [done|]. by rewrite IH. Qed.

(** C9, as the code has it.  [generateSlug] lower-cases, turns every run of
    non-alphanumeric characters into one hyphen, drops the hyphens at both
    ends and keeps at most 100 characters.  [makeSlugUnique] returns a free
    base unchanged; otherwise it returns the first free candidate among
    base-2, ..., base-999, and when all of these are taken it returns the base
    followed by a hyphen and six hexadecimal digits.  Both are total
    functions. *)
Theorem slug_generation :
  (forall name : string,
      Id.generateSlug name = IdSpec.generateSlug name /\
      String.length (Id.generateSlug name) <= 100) /\
  Id.generateSlug "  Travis County!!! " = "travis-county" /\
  (forall baseSlug existsCheck random,
      existsCheck baseSlug = false ->
      Id.makeSlugUnique baseSlug existsCheck random = baseSlug) /\
  (forall baseSlug existsCheck random k,
      existsCheck baseSlug = true ->
      2 <= k <= 999 ->
      (forall j, 2 <= j < k -> existsCheck (Id.candidate baseSlug j) = true) ->
      existsCheck (Id.candidate baseSlug k) = false ->
      Id.makeSlugUnique baseSlug existsCheck random = Id.candidate baseSlug k) /\
  (forall baseSlug existsCheck random,
      existsCheck baseSlug = true ->
      (forall j, 2 <= j <= 999 -> existsCheck (Id.candidate baseSlug j) = true) ->
      exists suffix,
        Id.makeSlugUnique baseSlug existsCheck random =
          baseSlug +:+ "-" +:+ Js.str suffix /\
        length suffix = 6 /\ forallb Id.is_hex suffix = true).
Proof.
  split_and!.
  - intros name. split; [apply generateSlug_spec|].
    unfold Id.generateSlug. rewrite str_length, length_take. lia.
  - by vm_compute.
  - intros baseSlug existsCheck random Hfree. unfold Id.makeSlugUnique.
    by rewrite Hfree.
  - intros baseSlug existsCheck random k Hbase Hk Hbusy Hfree.
    unfold Id.makeSlugUnique. rewrite Hbase. simpl negb. cbv iota.
    by rewrite (try_counters_found _ 2 k) by (done || lia).
  - intros baseSlug existsCheck [[b0 b1] b2] Hbase Hbusy.
    unfold Id.makeSlugUnique. rewrite Hbase. simpl negb. cbv iota.
    rewrite try_counters_exhausted by (intros j Hj; apply Hbusy; lia).
    eexists. split; [done|]. apply (hex_of_bytes_hex [b0; b1; b2]).
Qed.

Lemma slug_generation_witness :
  let existsCheck := fun s => bool_decide (s ∈ ["austin"; "austin-2"]) in
  existsCheck "austin" = true /\
  2 <= 3 <= 999 /\
  (forall j, 2 <= j < 3 -> existsCheck (Id.candidate "austin" j) = true) /\
  existsCheck (Id.candidate "austin" 3) = false /\
  Id.makeSlugUnique "austin" existsCheck (Byte.x00, Byte.x00, Byte.x00) =
    "austin-3".
Proof.
  intros existsCheck.
  assert (forall j, 2 <= j < 3 -> existsCheck (Id.candidate "austin" j) = true)
    as Hbusy.
  { intros j Hj. assert (j = 2) as -> by lia. reflexivity. }
  split_and!; [reflexivity|lia|lia|exact Hbusy|reflexivity|].
  apply (proj1 (proj2 (proj2 (proj2 slug_generation)))
           "austin" existsCheck (Byte.x00, Byte.x00, Byte.x00) 3);
    [reflexivity|lia|exact Hbusy|reflexivity].
Defined.

(** C9 as stated fails: the loop ends with the counter 999.  When only
    base-1000 is free, that candidate is never tried and the random suffix
    is used. *)
Lemma makeSlugUnique_stops_at_999 :
  ~ (forall baseSlug existsCheck random k,
        existsCheck baseSlug = true ->
        2 <= k <= 1000 ->
        (forall j, 2 <= j < k -> existsCheck (Id.candidate baseSlug j) = true) ->
        existsCheck (Id.candidate baseSlug k) = false ->
        Id.makeSlugUnique baseSlug existsCheck random = Id.candidate baseSlug k).
Proof.
  intros H.
  specialize (H "a" (fun s => negb (bool_decide (s = "a-1000")))
                (Byte.x00, Byte.xab, Byte.xff) 1000).
  assert (Id.makeSlugUnique "a" (fun s => negb (bool_decide (s = "a-1000")))
            (Byte.x00, Byte.xab, Byte.xff) = "a-00abff") as Hrun
    by (by vm_compute).
  rewrite Hrun in H.
  assert ("a-00abff" = Id.candidate "a" 1000) as Habs; [|by vm_compute in Habs].
  apply H; [by vm_compute|lia| |by vm_compute].
  intros j Hj.
  assert (Forall (fun j => negb (bool_decide (Id.candidate "a" j = "a-1000")) = true)
                 (seq 2 998)) as Hall
    by (apply (bool_decide_unpack _); by vm_compute).
  eapply Forall_forall in Hall; [exact Hall|]. apply elem_of_seq. lia.
Qed.

(** ** Computations that only read the store *)

Section Reads.
Local Open Scope store_scope.

Lemma reads_ret {A} (a : A) : reads (ret a).
Proof. done. Qed.

Lemma reads_throw {A} (e : Error) : reads (@throw A e).
Proof. done. Qed.

Lemma reads_gets {A} (f : Store -> A) : reads (gets f).
Proof. done. Qed.

Lemma reads_check (ok : bool) (e : Error) : reads (check ok e).
Proof. by destruct ok. Qed.

Lemma reads_bind {A B} (m : M A) (k : A -> M B) :
  reads m -> (forall a, reads (k a)) -> reads (bind m k).
Proof.
  intros Hm Hk s. unfold bind. specialize (Hm s).
  destruct (m s) as [s1 [e|a]]; simpl in *; [done|].
  subst s1. apply Hk.
Qed.

Lemma reads_mapM {A B} (f : A -> M B) (l : list A) :
  (forall a, reads (f a)) -> reads (mapM f l).
Proof.
  intros Hf. induction l as [|x l IH]; simpl; [apply reads_ret|].
  apply reads_bind; [done|]. intros y.
  apply reads_bind; [done|]. intros ys. apply reads_ret.
Qed.

Lemma reads_run {A} (m : M A) (s : Store) : reads m -> m s = (s, (m s).2).
Proof. intros Hm. specialize (Hm s). destruct (m s); simpl in *. by subst. Qed.

Lemma bind_run {A B} (m : M A) (k : A -> M B) (s : Store) :
  reads m ->
  bind m k s = match (m s).2 with
               | inl e => (s, inl e)
               | inr a => k a s
               end.
Proof. intros Hm. unfold bind. rewrite (reads_run m s Hm). simpl. done. Qed.

Lemma atomic_reads {A} (m : M A) : reads m -> atomic m.
Proof. intros Hm s s' e Hrun. specialize (Hm s). by rewrite Hrun in Hm. Qed.

Lemma atomic_bind {A B} (m : M A) (k : A -> M B) :
  reads m -> (forall a, atomic (k a)) -> atomic (bind m k).
Proof.
  intros Hm Hk s s' e. rewrite bind_run by done.
  destruct ((m s).2) as [e1|a]; [by intros [= <- _]|]. apply Hk.
Qed.
End Reads.

Ltac reads :=
  repeat first
    [ apply reads_ret | apply reads_throw | apply reads_gets
    | apply reads_check | apply reads_mapM
    | apply reads_bind
    | progress intros
    | match goal with
      | |- reads (match ?x with _ => _ end) => destruct x
      | |- reads (if ?b then _ else _) => destruct b
      end ].

Section Validators.
Import EntityRepo.

Lemma reads_validateTitle t : reads (validateTitle t).
Proof. unfold validateTitle. reads. Qed.

Lemma reads_validateBody b : reads (validateBody b).
Proof. unfold validateBody. reads. Qed.

Lemma reads_validateType n : reads (validateType n).
Proof. unfold validateType. reads. Qed.

Lemma reads_validateStatus st t : reads (validateStatus st t).
Proof. unfold validateStatus. reads. Qed.

Lemma reads_validatePriority p : reads (validatePriority p).
Proof. unfold validatePriority. reads. Qed.

Lemma reads_validateLocation l : reads (validateLocation l).
Proof. unfold validateLocation. reads. Qed.

Lemma reads_validateRelation rel t : reads (validateRelation rel t).
Proof. unfold validateRelation. reads. Qed.

Lemma reads_resolve_government g : reads (resolve_government g).
Proof. unfold resolve_government. reads. Qed.

Lemma reads_allowedUpdates env entity updates :
  reads (allowedUpdates env entity updates).
Proof.
  unfold allowedUpdates.
  repeat first
    [ apply reads_validateTitle | apply reads_validateBody
    | apply reads_validateStatus | apply reads_validatePriority
    | apply reads_validateLocation | apply reads_validateRelation
    | apply reads_resolve_government | progress reads ].
Qed.

Lemma reads_validateRelations rels t :
  reads (mapM (fun rel => validateRelation rel t) rels).
Proof. apply reads_mapM. intros rel. apply reads_validateRelation. Qed.

Lemma updateRecord_no_throw env i p s s' e :
  updateRecord env i p s <> (s', inl e).
Proof. unfold updateRecord. by destruct (last _). Qed.

Lemma updateRecord_none env i p s s' :
  updateRecord env i p s = (s', inr None) -> s' = s.
Proof. unfold updateRecord. destruct (last _); by intros [= <-]. Qed.

Lemma atomic_create env typeName data : atomic (create env typeName data).
Proof.
  unfold create.
  repeat first
    [ apply atomic_bind;
      [ first [ apply reads_validateType | apply reads_validateTitle
              | apply reads_validateBody | apply reads_validatePriority
              | apply reads_resolve_government | apply reads_validateStatus
              | solve [reads]
              | apply reads_mapM; intros; apply reads_validateRelation
              | (destruct a; first [apply reads_validateLocation | solve [reads]]) ]
      | intros ? ]
    | (intros s s' e; discriminate) ].
Qed.

Lemma atomic_update env i updates : atomic (update env i updates).
Proof.
  unfold update. apply atomic_bind; [apply reads_gets|]. intros [entity|].
  - apply atomic_bind; [apply reads_allowedUpdates|]. intros p s s' e Hrun.
    by apply updateRecord_no_throw in Hrun.
  - apply atomic_reads, reads_ret.
Qed.

Lemma update_none_unchanged env i updates s s' :
  update env i updates s = (s', inr None) -> s' = s.
Proof.
  unfold update. rewrite bind_run by apply reads_gets. simpl.
  destruct (find s i) as [entity|]; [|by intros [= <-]].
  rewrite bind_run by apply reads_allowedUpdates.
  destruct (_.2) as [e|p]; [done|]. apply updateRecord_none.
Qed.
End Validators.

Ltac reads_repo :=
  repeat first
    [ apply reads_validateTitle | apply reads_validateBody
    | apply reads_validateStatus | apply reads_validatePriority
    | apply reads_validateLocation | apply reads_validateRelation
    | apply reads_validateRelations
    | apply reads_resolve_government | apply reads_allowedUpdates
    | progress reads ].

(** C5. When [create] or [update] throws, whatever the error, the store is
    the one the call started from: every validation precedes the single
    write.  An [update] that reports a missing entity by returning [null]
    leaves the store unchanged as well. *)
Theorem create_update_all_or_nothing :
  (forall env typeName data s s' e,
      EntityRepo.create env typeName data s = (s', inl e) -> s' = s) /\
  (forall env i updates s s' e,
      EntityRepo.update env i updates s = (s', inl e) -> s' = s) /\
  (forall env i updates s s',
      EntityRepo.update env i updates s = (s', inr None) -> s' = s).
Proof.
  split_and!.
  - intros env typeName data. apply atomic_create.
  - intros env i updates. apply atomic_update.
  - apply update_none_unchanged.
Qed.

(** ** The search of [wouldCreateCycle] *)

Section Search.
Import RelationEngine RelationSpec.
Variable s : Store.
Variable sourceId : string.

Lemma elem_of_followed (visited : gset string) (rels : list Relation) (w : string) :
  w ∈ followed visited rels <->
  (w ∉ visited) /\
  exists rel, rel ∈ rels /\ rel_type rel ∈ DEPENDENCY_RELATIONS /\ rel_target rel = w.
Proof.
  unfold followed. rewrite list_elem_of_fmap. split.
  - intros (rel & -> & Hrel). apply list_elem_of_In, filter_In in Hrel.
    destruct Hrel as [Hin [Hdep Hnew%negb_true_iff]%andb_true_iff].
    apply bool_decide_eq_false in Hnew. apply bool_decide_eq_true in Hdep.
    split; [done|]. exists rel. by rewrite list_elem_of_In.
  - intros (Hnew & rel & Hin & Hdep & <-). exists rel. split; [done|].
    apply list_elem_of_In, filter_In. split; [by apply list_elem_of_In|].
    apply andb_true_iff. split; [by apply bool_decide_eq_true|].
    by apply negb_true_iff, bool_decide_eq_false.
Qed.

Lemma followed_length (visited : gset string) (rels : list Relation) :
  length (followed visited rels) <= length rels.
Proof. unfold followed. rewrite length_map. apply filter_length_le. Qed.

Lemma edge_found (a b : string) (e : Entity) :
  EntityRepo.find s a = Some e ->
  (edge s a b <->
   exists rel, rel ∈ relations e /\ rel_type rel ∈ DEPENDENCY_RELATIONS /\
               rel_target rel = b).
Proof.
  intros Hfind. unfold edge. split.
  - intros (e' & rel & He' & Hrel). exists rel. congruence.
  - intros (rel & Hrel). by exists e, rel.
Qed.

Lemma edge_missing (a b : string) :
  EntityRepo.find s a = None -> ~ edge s a b.
Proof. intros Hfind (e & rel & He & _). congruence. Qed.

(** *** Soundness: an answer [true] comes from a path. *)
Lemma search_true (fuel : nat) (visited : gset string) (queue : list string) :
  search fuel s sourceId visited queue = Some true ->
  exists q, q ∈ queue /\ reachable s q sourceId.
Proof.
  revert visited queue. induction fuel as [|fuel IH]; intros visited queue; [done|].
  simpl. destruct queue as [|currentId queue]; [done|].
  case_bool_decide as Hsrc.
  { intros _. exists currentId. split; [left|]. subst. apply rtc_refl. }
  case_bool_decide as Hvis.
  { intros (q & Hq & Hreach)%IH. exists q. split; [by right|done]. }
  destruct (EntityRepo.find s currentId) as [current|] eqn:Hfind.
  - intros (q & Hq & Hreach)%IH. apply elem_of_app in Hq as [Hq|Hq].
    + exists q. split; [by right|done].
    + apply elem_of_followed in Hq as [_ Hedge].
      exists currentId. split; [left|].
      eapply rtc_l; [|exact Hreach]. by eapply edge_found.
  - intros (q & Hq & Hreach)%IH. exists q. split; [by right|done].
Qed.

(** *** Completeness: an answer [false] comes with a set of nodes that
    contains the start, is closed under the edges and misses the source. *)
Lemma search_false (fuel : nat) (visited : gset string) (queue : list string) :
  search fuel s sourceId visited queue = Some false ->
  sourceId ∉ visited ->
  frontier_closed s visited queue ->
  exists V : gset string,
    visited ⊆ V /\ (forall q, q ∈ queue -> q ∈ V) /\ (sourceId ∉ V) /\
    (forall v w, v ∈ V -> edge s v w -> w ∈ V).
Proof.
  revert visited queue. induction fuel as [|fuel IH]; intros visited queue; [done|].
  simpl. destruct queue as [|currentId queue].
  { intros _ Hsrc Hclosed. exists visited. split_and!; [done| |done|].
    - intros q Hq. by apply elem_of_nil in Hq.
    - intros v w Hv Hedge. destruct (Hclosed v w Hv Hedge) as [?|Hq]; [done|].
      by apply elem_of_nil in Hq. }
  case_bool_decide as Hcur; [done|].
  case_bool_decide as Hvis.
  { intros Hrun Hsrc Hclosed.
    destruct (IH visited queue Hrun Hsrc) as (V & HV & Hq & HsV & HVc).
    - intros v w Hv Hedge. destruct (Hclosed v w Hv Hedge) as [?|Hw]; [by left|].
      apply elem_of_cons in Hw as [->|Hw]; [by left|by right].
    - exists V. split_and!; [done| |done|done].
      intros q [->|Hin]%elem_of_cons; [by apply HV|by apply Hq]. }
  intros Hrun Hsrc Hclosed.
  assert (sourceId ∉ ({[currentId]} ∪ visited : gset string)) as Hsrc'
    by set_solver.
  destruct (EntityRepo.find s currentId) as [current|] eqn:Hfind.
  - destruct (IH _ _ Hrun Hsrc') as (V & HV & Hq & HsV & HVc).
    + intros v w Hv Hedge.
      apply elem_of_union in Hv as [->%elem_of_singleton|Hv].
      * destruct (decide (w ∈ ({[currentId]} ∪ visited : gset string)))
          as [?|Hnew]; [by left|].
        right. apply elem_of_app. right. apply elem_of_followed.
        split; [done|]. by eapply edge_found.
      * destruct (Hclosed v w Hv Hedge) as [?|Hw]; [left; set_solver|].
        apply elem_of_cons in Hw as [->|Hw]; [left; set_solver|].
        right. apply elem_of_app. by left.
    + exists V. split_and!; [set_solver| |done|done].
      intros q [->|Hin]%elem_of_cons; [set_solver|].
      apply Hq, elem_of_app. by left.
  - destruct (IH _ _ Hrun Hsrc') as (V & HV & Hq & HsV & HVc).
    + intros v w Hv Hedge.
      apply elem_of_union in Hv as [->%elem_of_singleton|Hv].
      * by apply edge_missing in Hedge.
      * destruct (Hclosed v w Hv Hedge) as [?|Hw]; [left; set_solver|].
        apply elem_of_cons in Hw as [->|Hw]; [left; set_solver|by right].
    + exists V. split_and!; [set_solver| |done|done].
      intros q [->|Hin]%elem_of_cons; [set_solver|by apply Hq].
Qed.

Lemma closed_reachable (V : gset string) (a b : string) :
  (forall v w, v ∈ V -> edge s v w -> w ∈ V) ->
  reachable s a b -> a ∈ V -> b ∈ V.
Proof. intros HV. induction 1 as [|x y z Hxy _ IH]; eauto. Qed.

(** *** Termination: the number of queue entries plus the number of edges
    of records not visited yet decreases in every iteration. *)
Lemma pending_mono (visited visited' : gset string) (records : list Entity) :
  visited ⊆ visited' -> pending visited' records <= pending visited records.
Proof.
  intros Hsub. induction records as [|e records IH]; simpl; [done|].
  repeat case_bool_decide; try lia. set_solver.
Qed.

Lemma pending_visit (visited : gset string) (records : list Entity)
    (c : string) (e : Entity) :
  Storage.findById records c = Some e ->
  c ∉ visited ->
  pending ({[c]} ∪ visited) records + length (relations e)
  <= pending visited records.
Proof.
  intros Hfind Hc. induction records as [|r records IH]; simpl in *; [done|].
  case_bool_decide as Hid.
  - injection Hfind as ->. subst c.
    rewrite bool_decide_eq_true_2 by set_solver.
    rewrite (bool_decide_eq_false_2 (id e ∈ visited)) by done.
    assert (visited ⊆ {[id e]} ∪ visited) as Hsub by set_solver.
    pose proof (pending_mono visited ({[id e]} ∪ visited) records Hsub). lia.
  - specialize (IH Hfind).
    assert (bool_decide (id r ∈ {[c]} ∪ visited) = bool_decide (id r ∈ visited))
      as ->.
    { apply bool_decide_ext. set_solver. }
    lia.
Qed.

Lemma pending_empty (records : list Entity) :
  pending ∅ records = foldr (fun e n => length (relations e) + n) 0 records.
Proof. induction records as [|e records IH]; simpl; [done|]. by rewrite IH. Qed.

Lemma search_terminates (fuel : nat) (visited : gset string) (queue : list string) :
  length queue + pending visited (entities s) < fuel ->
  is_Some (search fuel s sourceId visited queue).
Proof.
  revert visited queue. induction fuel as [|fuel IH]; intros visited queue Hfuel;
    [lia|].
  simpl. destruct queue as [|currentId queue]; [done|]. simpl in Hfuel.
  case_bool_decide; [done|]. case_bool_decide as Hvis.
  { apply IH. lia. }
  destruct (EntityRepo.find s currentId) as [current|] eqn:Hfind.
  - apply IH. rewrite length_app.
    pose proof (followed_length ({[currentId]} ∪ visited) (relations current)).
    pose proof (pending_visit visited (entities s) currentId current Hfind Hvis).
    lia.
  - apply IH.
    assert (visited ⊆ {[currentId]} ∪ visited) as Hsub by set_solver.
    pose proof (pending_mono visited ({[currentId]} ∪ visited) (entities s) Hsub).
    lia.
Qed.

(** [wouldCreateCycle] answers whether the source is reachable from the
    target. *)
Lemma wouldCreateCycle_reachable (targetId relationType : string) :
  is_dependency relationType = true ->
  (wouldCreateCycle s sourceId targetId relationType = true <->
   reachable s targetId sourceId).
Proof.
  intros Hdep. unfold wouldCreateCycle. rewrite Hdep. cbn [negb].
  destruct (search_terminates (search_fuel s) ∅ [targetId]) as [b Hb].
  { unfold search_fuel. rewrite pending_empty. simpl. lia. }
  rewrite Hb. simpl. destruct b.
  - split; [intros _|done].
    apply search_true in Hb as (q & ->%list_elem_of_singleton & Hreach). done.
  - split; [done|]. intros Hreach.
    apply search_false in Hb as (V & _ & Hq & Hsrc & HV); [|set_solver|].
    + exfalso. apply Hsrc. eapply closed_reachable; [exact HV|exact Hreach|].
      apply Hq. left.
    + intros v w Hv. set_solver.
Qed.
End Search.

(** ** Lookups after a write *)

Section FindAfterWrite.
Import EntityRepo.

Lemma merge_id record p stamp : id (merge record p stamp) = id record.
Proof. done. Qed.

Lemma merge_type record p stamp : type (merge record p stamp) = type record.
Proof. done. Qed.

Lemma findById_Some records i e :
  Storage.findById records i = Some e -> e ∈ records /\ id e = i.
Proof.
  intros [Hin Hid]%find_some. split; [by apply list_elem_of_In|].
  by apply bool_decide_eq_true in Hid.
Qed.

Lemma findById_map_merge records i j p stamp :
  Storage.findById
    (map (fun record => if bool_decide (id record = i)
                        then merge record p stamp else record) records) j =
  if decide (j = i)
  then (fun e => merge e p stamp) <$> Storage.findById records i
  else Storage.findById records j.
Proof.
  unfold Storage.findById. destruct (decide (j = i)) as [->|Hne].
  - induction records as [|r records IH]; simpl; [done|].
    destruct (decide (id r = i)) as [Hr|Hr].
    + rewrite (bool_decide_eq_true_2 (id r = i)) by done. simpl.
      by rewrite bool_decide_eq_true_2.
    + rewrite (bool_decide_eq_false_2 (id r = i)) by done. simpl.
      by rewrite bool_decide_eq_false_2.
  - induction records as [|r records IH]; simpl; [done|].
    destruct (decide (id r = i)) as [Hr|Hr].
    + rewrite (bool_decide_eq_true_2 (id r = i)) by done. simpl.
      by rewrite !bool_decide_eq_false_2 by congruence.
    + rewrite (bool_decide_eq_false_2 (id r = i)) by done. simpl.
      by destruct (bool_decide (id r = j)).
Qed.

Lemma last_filter_map_merge records i p stamp :
  last (List.filter (fun record => bool_decide (id record = i))
          (map (fun record => if bool_decide (id record = i)
                              then merge record p stamp else record) records)) =
  (fun e => merge e p stamp) <$>
    last (List.filter (fun record => bool_decide (id record = i)) records).
Proof.
  induction records as [|r records IH]; simpl; [done|].
  destruct (decide (id r = i)) as [Hr|Hr].
  - rewrite (bool_decide_eq_true_2 (id r = i)) by done. simpl.
    rewrite bool_decide_eq_true_2 by done. rewrite !last_cons, IH.
    destruct (last (List.filter _ records)); reflexivity.
  - rewrite (bool_decide_eq_false_2 (id r = i)) by done. simpl.
    by rewrite bool_decide_eq_false_2.
Qed.

Lemma last_filter_found records i e :
  Storage.findById records i = Some e ->
  exists e0, last (List.filter (fun record => bool_decide (id record = i)) records)
             = Some e0.
Proof.
  intros [Hin Hid]%find_some.
  destruct (last _) as [e0|] eqn:Hlast; [by exists e0|].
  apply last_None in Hlast.
  assert (In e (List.filter (fun record => bool_decide (id record = i)) records))
    as Habs by by apply filter_In.
  by rewrite Hlast in Habs.
Qed.

Lemma last_filter_missing records i :
  Storage.findById records i = None ->
  last (List.filter (fun record => bool_decide (id record = i)) records) = None.
Proof.
  intros Hfind. destruct (last _) as [e0|] eqn:Hlast; [|done].
  apply last_Some in Hlast as [l' Hl].
  assert (In e0 (List.filter (fun record => bool_decide (id record = i)) records))
    as [Hin Hid]%filter_In.
  { rewrite Hl. apply in_app_iff. right. by left. }
  by eapply find_none in Hfind; [rewrite Hid in Hfind|].
Qed.

(** A successful [updateRecord]: the first record with the id is found
    merged afterwards, the other ids are found as before, and the record
    returned is a merged one. *)
Lemma updateRecord_found env i p s e :
  find s i = Some e ->
  exists s' e0,
    updateRecord env i p s = (s', inr (Some (merge e0 p (env_write_time env)))) /\
    e0 ∈ entities s /\ id e0 = i /\
    find s' i = Some (merge e p (env_write_time env)) /\
    (forall j, j <> i -> find s' j = find s j) /\
    governments s' = governments s.
Proof.
  intros Hfind. unfold updateRecord.
  rewrite last_filter_map_merge.
  destruct (last_filter_found _ _ _ Hfind) as [e0 He0]. rewrite He0. simpl.
  eexists _, e0. split; [done|].
  apply last_Some in He0 as [l' Hl].
  assert (In e0 (List.filter (fun record => bool_decide (id record = i))
                             (entities s))) as [Hin Hid]%filter_In.
  { rewrite Hl. apply in_app_iff. right. by left. }
  apply bool_decide_eq_true in Hid.
  split_and!; [by apply list_elem_of_In|done| | |done].
  - unfold find. simpl. rewrite findById_map_merge.
    rewrite decide_True by done. unfold find in Hfind. by rewrite Hfind.
  - intros j Hj. unfold find. simpl. rewrite findById_map_merge.
    by rewrite decide_False.
Qed.
End FindAfterWrite.

(** ** Blocked status *)

Section Blocked.
Import EntityRepo RelationEngine.

Lemma elem_of_findDependencies s i d :
  d ∈ findDependencies s i <->
  exists e rel,
    find s i = Some e /\ rel ∈ relations e /\
    rel_type rel = "depends_on" /\ find s (rel_target rel) = Some d.
Proof.
  unfold findDependencies. destruct (find s i) as [e|].
  - rewrite list_elem_of_omap. split.
    + intros (rel & Hrel & Hd). apply list_elem_of_In, filter_In in Hrel.
      destruct Hrel as [Hin Hty%bool_decide_eq_true].
      exists e, rel. by rewrite list_elem_of_In.
    + intros (e' & rel & [= <-] & Hin & Hty & Hd). exists rel. split; [|done].
      apply list_elem_of_In, filter_In. split; [by apply list_elem_of_In|].
      by apply bool_decide_eq_true.
  - rewrite elem_of_nil. split; [done|]. by intros (e & rel & ? & _).
Qed.

Lemma unresolved_spec d :
  unresolved d = true <->
  status d ∉ ["completed"; "resolved"; "accepted"; "cancelled"; "deprecated";
              "rejected"].
Proof.
  unfold unresolved, terminalStatuses.
  rewrite negb_true_iff, bool_decide_eq_false. done.
Qed.
End Blocked.

(** C2. [isBlocked] reports [blocked: true] exactly when some [depends_on]
    edge of the entity leads to an entity whose status is outside completed,
    resolved, accepted, cancelled, deprecated, rejected; the blockers it
    returns are exactly these entities, each by id, title and status. *)
Theorem isBlocked_unresolved_dependencies (s : Store) (i : string) :
  let unresolved_dependency (d : Entity) :=
    exists e rel,
      EntityRepo.find s i = Some e /\ rel ∈ relations e /\
      rel_type rel = "depends_on" /\
      EntityRepo.find s (rel_target rel) = Some d /\
      status d ∉ ["completed"; "resolved"; "accepted"; "cancelled";
                  "deprecated"; "rejected"] in
  (RelationEngine.blocked (RelationEngine.isBlocked s i) = true <->
   exists d, unresolved_dependency d) /\
  (forall b,
      b ∈ RelationEngine.blockers (RelationEngine.isBlocked s i) <->
      exists d, unresolved_dependency d /\
                b = {| RelationEngine.b_id := id d;
                       RelationEngine.b_title := title d;
                       RelationEngine.b_status := status d |}).
Proof.
  intros unresolved_dependency.
  assert (forall d, d ∈ List.filter RelationEngine.unresolved
                          (RelationEngine.findDependencies s i) <->
                    unresolved_dependency d) as Hfilter.
  { intros d. rewrite list_elem_of_In, filter_In, <- list_elem_of_In.
    rewrite elem_of_findDependencies, unresolved_spec.
    unfold unresolved_dependency. naive_solver. }
  unfold RelationEngine.isBlocked. simpl. split.
  - rewrite Nat.ltb_lt. split.
    + intros Hlen.
      destruct (List.filter _ _) as [|d l] eqn:Hl; [simpl in Hlen; lia|].
      exists d. apply Hfilter. left.
    + intros [d Hd%Hfilter].
      destruct (List.filter _ _); [by apply elem_of_nil in Hd|simpl; lia].
  - intros b. rewrite list_elem_of_fmap. split.
    + intros (d & -> & Hd%Hfilter). by exists d.
    + intros (d & Hd%Hfilter & ->). by exists d.
Qed.

(** C3, at an idea that is closed without the [rejected] option: [close]
    sets the status accepted, and the entity returned has no [closed_at],
    because accepted is not among the statuses for which [update] sets it.
    With the option, the status is rejected and [closed_at] is the time of
    the call. *)
Theorem close_accepted_idea_has_no_closed_at :
  (exists s' e',
      EntityRepo.close (Sample.env "") "gd-dddd" Sample.keep_open Sample.one_idea
        = (s', inr (Some e')) /\
      type e' = Idea /\ status e' = "accepted" /\ closed_at e' = None /\
      (closed_at <$> EntityRepo.find s' "gd-dddd") = Some None) /\
  (exists s' e',
      EntityRepo.close (Sample.env "") "gd-dddd" Sample.reject Sample.one_idea
        = (s', inr (Some e')) /\
      status e' = "rejected" /\
      closed_at e' = Some (env_now (Sample.env ""))).
Proof.
  split.
  - eexists _, _. split; [by vm_compute|]. by vm_compute.
  - eexists _, _. split; [by vm_compute|]. by vm_compute.
Qed.

(** ** History of an update *)

Section UpdateHistory.
Import EntityRepo EntitySpec.
Local Open Scope store_scope.

(** A step of [update] for a field that may be supplied. *)
Lemma supplied_step {A B C} (u : option A) (f : A -> M B) (g : A -> B -> C)
    (s : Store) (r : option C) :
  (match u with
   | Some a => b <- f a ;; ret (Some (g a b))
   | None => ret None
   end s).2 = inr r ->
  match u with
  | Some a => exists b, (f a s).2 = inr b /\ r = Some (g a b)
  | None => r = None
  end.
Proof.
  destruct u as [a|]; simpl; [|by intros [= <-]].
  unfold bind. destruct (f a s) as [s1 [e|b]]; simpl; [done|].
  intros [= <-]. by exists b.
Qed.

Lemma supplied_step_is_Some {A B C} (u : option A) (f : A -> M B)
    (g : A -> B -> C) (s : Store) (r : option C) :
  (match u with
   | Some a => b <- f a ;; ret (Some (g a b))
   | None => ret None
   end s).2 = inr r ->
  (is_Some r <-> is_Some u).
Proof.
  intros H%supplied_step. destruct u as [a|].
  - destruct H as (b & _ & ->). split; eauto.
  - subst r. split; intros [? [=]].
Qed.

Lemma allowedUpdates_patch env e u s s1 p :
  allowedUpdates env e u s = (s1, inr p) ->
  (is_Some (p_title p) <-> is_Some (u_title u)) /\
  (is_Some (p_body p) <-> is_Some (u_body u)) /\
  (is_Some (p_status p) <-> is_Some (u_status u)) /\
  (is_Some (p_priority p) <-> is_Some (u_priority u)) /\
  (is_Some (p_gov_id p) <-> is_Some (u_gov_id u)) /\
  (is_Some (p_relations p) <-> is_Some (u_relations u)) /\
  p_history p =
    (if 0 <? length (patch_entries (env_now env) e p)
     then Some (history e ++ patch_entries (env_now env) e p) else None).
Proof.
  unfold allowedUpdates.
  rewrite bind_run by reads_repo.
  destruct (_.2) as [?|title'] eqn:Htitle; [done|].
  apply (supplied_step_is_Some (u_title u) (fun t => validateTitle (Some t))
           (fun t _ => trimmed t)) in Htitle.
  rewrite bind_run by reads_repo.
  destruct (_.2) as [?|body'] eqn:Hbody; [done|].
  apply (supplied_step_is_Some (u_body u) validateBody
           (fun b _ => nonempty (trimmed <$> b))) in Hbody.
  rewrite bind_run by reads_repo.
  destruct (_.2) as [?|status'] eqn:Hstatus; [done|].
  apply (supplied_step_is_Some (u_status u)
           (fun st => validateStatus st (type e)) (fun st _ => st)) in Hstatus.
  rewrite bind_run by reads_repo.
  destruct (_.2) as [?|priority'] eqn:Hpriority; [done|].
  apply (supplied_step_is_Some (u_priority u) validatePriority
           (fun _ n => n)) in Hpriority.
  rewrite bind_run by reads_repo.
  destruct (_.2) as [?|gov'] eqn:Hgov; [done|].
  apply (supplied_step_is_Some (u_gov_id u) resolve_government
           (fun _ g => g)) in Hgov.
  rewrite bind_run by reads_repo.
  destruct (_.2) as [?|relations'] eqn:Hrels; [done|].
  apply (supplied_step_is_Some (u_relations u)
           (mapM (fun rel => validateRelation rel (type e)))
           (fun _ l => l)) in Hrels.
  rewrite bind_run by reads_repo.
  destruct (_.2) as [?|location'] eqn:Hloc; [done|].
  intros [= _ <-]. simpl. by split_and!.
Qed.

Lemma patch_tracked_entries env e u s s1 p stamp :
  allowedUpdates env e u s = (s1, inr p) ->
  patch_entries (env_now env) e p =
  tracked_entries (env_now env) u e (merge e p stamp).
Proof.
  intros (Ht & _ & Hs & Hp & Hg & Hr & _)%allowedUpdates_patch.
  unfold patch_entries, tracked_entries. simpl.
  repeat f_equal.
  - destruct (p_title p), (u_title u); try done;
      [by destruct (proj1 Ht) as [? [=]]|by destruct (proj2 Ht) as [? [=]]].
  - destruct (p_status p), (u_status u); try done;
      [by destruct (proj1 Hs) as [? [=]]|by destruct (proj2 Hs) as [? [=]]].
  - destruct (p_priority p), (u_priority u); try done;
      [by destruct (proj1 Hp) as [? [=]]|by destruct (proj2 Hp) as [? [=]]].
  - destruct (p_gov_id p), (u_gov_id u); try done;
      [by destruct (proj1 Hg) as [? [=]]|by destruct (proj2 Hg) as [? [=]]].
  - destruct (p_relations p), (u_relations u); try done;
      [by destruct (proj1 Hr) as [? [=]]|by destruct (proj2 Hr) as [? [=]]].
Qed.

Lemma update_found env i u s e :
  find s i = Some e ->
  update env i u s =
  match (allowedUpdates env e u s).2 with
  | inl err => (s, inl err)
  | inr p => updateRecord env i p s
  end.
Proof.
  intros Hfind. unfold update. rewrite bind_run by apply reads_gets.
  simpl. rewrite Hfind. by rewrite bind_run by apply reads_allowedUpdates.
Qed.
End UpdateHistory.

(** C4, as the code has it.  An [update] of an existing entity appends to
    its history exactly one entry for each of title, status, priority,
    government and relations that the call supplies, in this order, with the
    value before the call as [old_value] and the value stored by the call as
    [new_value]; a field that is not supplied keeps its value.  A change of
    the body appends nothing. *)
Theorem update_appends_history env i updates s s' r e :
  EntityRepo.find s i = Some e ->
  EntityRepo.update env i updates s = (s', inr r) ->
  exists e',
    EntityRepo.find s' i = Some e' /\ is_Some r /\
    history e' =
      history e ++ EntitySpec.tracked_entries (env_now env) updates e e' /\
    (EntityRepo.u_title updates = None -> title e' = title e) /\
    (EntityRepo.u_status updates = None -> status e' = status e) /\
    (EntityRepo.u_priority updates = None -> priority e' = priority e) /\
    (EntityRepo.u_gov_id updates = None -> gov_id e' = gov_id e) /\
    (EntityRepo.u_relations updates = None -> relations e' = relations e).
Proof.
  intros Hfind. rewrite (update_found _ _ _ _ _ Hfind).
  destruct (EntityRepo.allowedUpdates env e updates s) as [s1 [err|p]] eqn:Hp;
    simpl; [done|].
  destruct (updateRecord_found env i p s e Hfind)
    as (s2 & e0 & Hrun & _ & _ & Hfound & _).
  rewrite Hrun. intros [= <- <-].
  exists (EntityRepo.merge e p (env_write_time env)).
  pose proof (patch_tracked_entries _ _ _ _ _ _ (env_write_time env) Hp) as Hentries.
  apply allowedUpdates_patch in Hp
    as (Ht & _ & Hs & Hpr & Hg & Hr & Hh).
  assert (forall {A} (x : option A), ~ is_Some x -> x = None) as Hnone.
  { intros A [a|] Hx; [|done]. destruct Hx. by exists a. }
  split_and!; [done|by eexists| | | | | |].
  - simpl. rewrite Hh, <- Hentries.
    destruct (EntitySpec.patch_entries (env_now env) e p); simpl; [|done].
    by rewrite app_nil_r.
  - intros Hu. simpl. rewrite (Hnone _ (EntityRepo.p_title p)); [done|].
    rewrite Ht, Hu. by intros [? [=]].
  - intros Hu. simpl. rewrite (Hnone _ (EntityRepo.p_status p)); [done|].
    rewrite Hs, Hu. by intros [? [=]].
  - intros Hu. simpl. rewrite (Hnone _ (EntityRepo.p_priority p)); [done|].
    rewrite Hpr, Hu. by intros [? [=]].
  - intros Hu. simpl. rewrite (Hnone _ (EntityRepo.p_gov_id p)); [done|].
    rewrite Hg, Hu. by intros [? [=]].
  - intros Hu. simpl. rewrite (Hnone _ (EntityRepo.p_relations p)); [done|].
    rewrite Hr, Hu. by intros [? [=]].
Qed.

Lemma update_appends_history_witness :
  exists e e' s' r,
    EntityRepo.find Sample.one_idea "gd-dddd" = Some e /\
    EntityRepo.update (Sample.env "") "gd-dddd"
      (Sample.new_title_and_priority " Plant more street trees " 1)
      Sample.one_idea = (s', inr r) /\
    EntityRepo.find s' "gd-dddd" = Some e' /\
    length (history e') = length (history e) + 2.
Proof.
  destruct (update_appends_history (Sample.env "") "gd-dddd"
              (Sample.new_title_and_priority " Plant more street trees " 1)
              Sample.one_idea _ _ _ eq_refl eq_refl)
    as (e' & Hfound & _ & Hhistory & _).
  eexists _, e', _, _. split_and!; [reflexivity|reflexivity|exact Hfound|].
  rewrite Hhistory, length_app. reflexivity.
Defined.

(** C4 as stated fails for the body: an update that changes the body of
    the sample idea records no history entry for it. *)
Lemma update_body_appends_nothing :
  ~ (forall env i updates s s' e e',
        EntityRepo.find s i = Some e ->
        EntityRepo.update env i updates s = (s', inr (Some e')) ->
        body e' <> body e ->
        exists h, h ∈ history e' /\ h_field h = Some "body").
Proof.
  intros H.
  destruct (H (Sample.env "") "gd-dddd" (Sample.new_body "Along Main Street")
              Sample.one_idea _ _ _ eq_refl eq_refl) as (h & Hin & Hfield).
  { by vm_compute. }
  vm_compute in Hin. apply list_elem_of_singleton in Hin as ->.
  by vm_compute in Hfield.
Qed.

(** ** Adding an edge *)

Section AddRelation.
Import EntityRepo EntitySpec.
Local Open Scope store_scope.

Lemma declared_nonempty name ft : declared_relation name = Some ft -> name <> "".
Proof. by intros H ->. Qed.

Lemma validateRelation_ok s t rel :
  valid_edge s t rel -> validateRelation rel t s = (s, inr rel).
Proof.
  intros (Htarget & target & Hfind & Hdecl).
  pose proof (declared_nonempty _ _ Hdecl) as Htype.
  unfold validateRelation, RELATION_TYPES, truthy.
  rewrite !bool_decide_eq_false_2 by done. simpl.
  rewrite Hdecl. unfold bind, check, gets. simpl.
  rewrite bool_decide_eq_true_2 by done. simpl.
  rewrite Hfind. rewrite bool_decide_eq_true_2 by done. simpl.
  by destruct rel.
Qed.

Lemma validateRelation_inv s s' t rel rel' :
  validateRelation rel t s = (s', inr rel') ->
  valid_edge s t rel /\ rel' = rel /\ s' = s.
Proof.
  unfold validateRelation, RELATION_TYPES, truthy, valid_edge.
  destruct (decide (rel_type rel = "")) as [Hty|Hty].
  { rewrite (bool_decide_eq_true_2 _ Hty). by simpl. }
  destruct (decide (rel_target rel = "")) as [Htg|Htg].
  { rewrite (bool_decide_eq_true_2 _ Htg), (bool_decide_eq_false_2 _ Hty).
    by simpl. }
  rewrite !bool_decide_eq_false_2 by done. simpl.
  destruct (declared_relation (rel_type rel)) as [[from to]|] eqn:Hdecl;
    [|by destruct (bool_decide _)].
  unfold bind, check, gets. simpl.
  case_bool_decide as Hfrom; simpl; [|done]. subst from.
  destruct (find s (rel_target rel)) as [target|] eqn:Hfind; simpl; [|done].
  case_bool_decide as Hto; simpl; [|done]. subst to.
  intros [= <- <-]. split_and!; [done|by exists target|by destruct rel|done].
Qed.

Lemma validateRelation_error s s' t rel err :
  validateRelation rel t s = (s', inl err) ->
  forall a b c, err <> RelationExists a b c.
Proof.
  unfold validateRelation, RELATION_TYPES, bind, check, gets, throw, ret.
  intros H a b c ->. revert H.
  repeat (case_match; simpl; try done); intros ?; simplify_eq.
Qed.

Lemma validateRelations_ok s t rels :
  Forall (valid_edge s t) rels ->
  mapM (fun rel => validateRelation rel t) rels s = (s, inr rels).
Proof.
  induction 1 as [|rel rels Hrel _ IH]; simpl; [done|].
  unfold bind. rewrite (validateRelation_ok _ _ _ Hrel), IH. done.
Qed.

Lemma validateRelations_inv s s' t rels l :
  mapM (fun rel => validateRelation rel t) rels s = (s', inr l) ->
  l = rels /\ s' = s /\ Forall (valid_edge s t) rels.
Proof.
  revert l s'. induction rels as [|rel rels IH]; intros l s'; simpl.
  - by intros [= <- <-].
  - unfold bind at 1.
    destruct (validateRelation rel t s) as [s1 [err|rel']] eqn:Hrel; [done|].
    apply validateRelation_inv in Hrel as (Hvalid & -> & ->).
    unfold bind at 1.
    destruct (mapM _ rels s) as [s2 [err|l']] eqn:Hrest; [done|].
    destruct (IH _ _ eq_refl) as (-> & -> & Hall). intros [= <- <-].
    split_and!; [done|done|by constructor].
Qed.

(** The patch of an update that supplies the relations only. *)
Lemma allowedUpdates_only_relations env e rels s s1 r :
  allowedUpdates env e (only_relations rels) s = (s1, r) ->
  match r with
  | inl err => mapM (fun rel => validateRelation rel (type e)) rels s
               = (s1, inl err)
  | inr p => exists l,
      mapM (fun rel => validateRelation rel (type e)) rels s = (s1, inr l) /\
      p_relations p = Some l
  end.
Proof.
  unfold allowedUpdates, only_relations, bind, ret. simpl.
  destruct (mapM _ rels s) as [s2 [err|l]].
  - by intros [= <- <-].
  - destruct (type e); intros [= <- <-]; by exists l.
Qed.

(** An update that replaces the relations by valid ones succeeds. *)
Lemma update_relations env i s e rels :
  find s i = Some e ->
  Forall (valid_edge s (type e)) rels ->
  exists s' e',
    update env i (only_relations rels) s = (s', inr (Some e')) /\
    relations e' = rels /\
    (relations <$> find s' i) = Some rels /\
    (type <$> find s' i) = Some (type e) /\
    (forall j, j <> i -> find s' j = find s j).
Proof.
  intros Hfind Hrels.
  rewrite (update_found _ _ _ _ _ Hfind).
  destruct (allowedUpdates env e (only_relations rels) s) as [s1 [err|p]] eqn:Hp;
    apply allowedUpdates_only_relations in Hp;
    rewrite (validateRelations_ok _ _ _ Hrels) in Hp; [done|].
  destruct Hp as (l & [= <- <-] & Hprel). simpl.
  destruct (updateRecord_found env i p s e Hfind)
    as (s' & e0 & Hrun & _ & _ & Hfound & Hother & _).
  exists s', (merge e0 p (env_write_time env)).
  rewrite Hfound. simpl. rewrite Hprel. by split_and!.
Qed.

Lemma existsb_same_edge r t rels :
  existsb (same_edge r t) rels = true <->
  {| rel_type := r; rel_target := t |} ∈ rels.
Proof.
  rewrite existsb_exists. unfold same_edge. split.
  - intros ([r' t'] & Hin%list_elem_of_In & Heq). simpl in Heq.
    apply andb_true_iff in Heq as [->%bool_decide_eq_true ->%bool_decide_eq_true].
    done.
  - intros Hin. eexists. split; [by apply list_elem_of_In|]. simpl.
    by rewrite !bool_decide_eq_true_2.
Qed.

Lemma addRelation_found env s sourceId relationType targetId e :
  find s sourceId = Some e ->
  addRelation env sourceId relationType targetId s =
  match (validateRelation {| rel_type := relationType; rel_target := targetId |}
                          (type e) s).2 with
  | inl err => (s, inl err)
  | inr relation =>
      if existsb (same_edge (rel_type relation) (rel_target relation))
                 (relations e)
      then (s, inl (RelationExists sourceId relationType targetId))
      else update env sourceId (only_relations (relations e ++ [relation])) s
  end.
Proof.
  intros Hfind. unfold addRelation. rewrite bind_run by apply reads_gets.
  simpl. rewrite Hfind. rewrite bind_run by apply reads_validateRelation.
  destruct (_.2) as [err|relation]; [done|]. by destruct (existsb _ _).
Qed.

(** [addRelation] succeeds on a valid edge that is not present yet when the
    edges already present are still valid. *)
Lemma addRelation_success env s sourceId relationType targetId e :
  let relation := {| rel_type := relationType; rel_target := targetId |} in
  find s sourceId = Some e ->
  valid_edge s (type e) relation ->
  relation ∉ relations e ->
  Forall (valid_edge s (type e)) (relations e) ->
  exists s' e',
    addRelation env sourceId relationType targetId s = (s', inr (Some e')) /\
    relations e' = relations e ++ [relation] /\
    (relations <$> find s' sourceId) = Some (relations e ++ [relation]) /\
    (forall j, j <> sourceId -> find s' j = find s j).
Proof.
  intros relation Hfind Hvalid Hnew Hold. subst relation.
  rewrite (addRelation_found _ _ _ _ _ _ Hfind).
  rewrite (validateRelation_ok _ _ _ Hvalid). simpl.
  destruct (existsb _ _) eqn:Hdup.
  { by apply existsb_same_edge in Hdup. }
  destruct (update_relations env sourceId s e
              (relations e ++
               [{| rel_type := relationType; rel_target := targetId |}]) Hfind)
    as (s' & e' & Hrun & Hrels & Hfound & _ & Hother).
  { apply Forall_app. split; [done|]. by apply Forall_singleton. }
  by exists s', e'.
Qed.

(** What a successful [addRelation] did. *)
Lemma addRelation_inv env s s' sourceId relationType targetId x :
  let relation := {| rel_type := relationType; rel_target := targetId |} in
  addRelation env sourceId relationType targetId s = (s', inr x) ->
  exists e,
    find s sourceId = Some e /\
    valid_edge s (type e) relation /\
    (relation ∉ relations e) /\
    (relations <$> find s' sourceId) = Some (relations e ++ [relation]) /\
    (type <$> find s' sourceId) = Some (type e) /\
    (forall j, j <> sourceId -> find s' j = find s j).
Proof.
  intros relation. subst relation. intros Hadd.
  destruct (find s sourceId) as [e|] eqn:Hfind.
  2: { revert Hadd. unfold addRelation. rewrite bind_run by apply reads_gets.
       simpl. by rewrite Hfind. }
  rewrite (addRelation_found _ _ _ _ _ _ Hfind) in Hadd.
  destruct (validateRelation _ _ s) as [s1 [err|rel']] eqn:Hval; simpl in Hadd;
    [done|].
  apply validateRelation_inv in Hval as (Hvalid & -> & ->).
  destruct (existsb _ _) eqn:Hdup; [done|].
  rewrite (update_found _ _ _ _ _ Hfind) in Hadd.
  destruct (allowedUpdates _ _ _ s) as [s1 [err|p]] eqn:Hp; simpl in Hadd;
    [done|].
  assert (p_relations p =
          Some (relations e ++
                [{| rel_type := relationType; rel_target := targetId |}]))
    as Hprel.
  { apply allowedUpdates_only_relations in Hp as (l & Hmap & ->).
    by apply validateRelations_inv in Hmap as (-> & _ & _). }
  destruct (updateRecord_found env sourceId p s e Hfind)
    as (s2 & e0 & Hrun & _ & _ & Hfound & Hother & _).
  rewrite Hrun in Hadd. injection Hadd as <- <-.
  exists e. rewrite Hfound. simpl. rewrite Hprel.
  split_and!; try done.
  intros Hin. apply existsb_same_edge in Hin. simpl in Hdup. congruence.
Qed.

Lemma valid_edge_after s s' i t rel :
  (type <$> find s' i) = (type <$> find s i) ->
  (forall j, j <> i -> find s' j = find s j) ->
  valid_edge s t rel -> valid_edge s' t rel.
Proof.
  intros Htype Hother (Htarget & target & Hfind & Hdecl).
  split; [done|]. destruct (decide (rel_target rel = i)) as [Heq|Hne].
  - rewrite Heq in *. rewrite Hfind in Htype. simpl in Htype.
    destruct (find s' i) as [target'|]; [|done].
    exists target'. split; [done|]. injection Htype as ->. done.
  - exists target. by rewrite Hother.
Qed.
End AddRelation.

(** C8, as the code has it.  Adding an edge that its source already carries
    always fails and leaves the store as it is; the error is the conflict
    [RelationExists] whenever the edge passes validation (validation runs
    first, so an edge whose target is gone is reported as such).  In
    particular an edge that was just added cannot be added again, and
    [addRelation] keeps a duplicate-free relations array duplicate-free. *)
Theorem addRelation_rejects_duplicates :
  (forall env s sourceId relationType targetId e,
      EntityRepo.find s sourceId = Some e ->
      {| rel_type := relationType; rel_target := targetId |} ∈ relations e ->
      exists err,
        EntityRepo.addRelation env sourceId relationType targetId s = (s, inl err) /\
        (EntitySpec.valid_edge s (type e)
           {| rel_type := relationType; rel_target := targetId |} ->
         err = RelationExists sourceId relationType targetId /\
         error_kind err = ConflictError)) /\
  (forall env env' s s' sourceId relationType targetId x,
      EntityRepo.addRelation env sourceId relationType targetId s = (s', inr x) ->
      EntityRepo.addRelation env' sourceId relationType targetId s' =
        (s', inl (RelationExists sourceId relationType targetId))) /\
  (forall env s s' sourceId relationType targetId x e,
      EntityRepo.find s sourceId = Some e ->
      NoDup (relations e) ->
      EntityRepo.addRelation env sourceId relationType targetId s = (s', inr x) ->
      exists e',
        EntityRepo.find s' sourceId = Some e' /\
        relations e' =
          relations e ++ [{| rel_type := relationType; rel_target := targetId |}] /\
        NoDup (relations e')).
Proof.
  split_and!.
  - intros env s sourceId relationType targetId e Hfind Hin.
    rewrite (addRelation_found _ _ _ _ _ _ Hfind).
    destruct (EntityRepo.validateRelation _ _ s) as [s1 [err|rel]] eqn:Hval; simpl.
    + exists err. split; [done|]. intros Hvalid.
      by rewrite (validateRelation_ok _ _ _ Hvalid) in Hval.
    + apply validateRelation_inv in Hval as (_ & -> & ->). simpl.
      apply existsb_same_edge in Hin. rewrite Hin. by eexists.
  - intros env env' s s' sourceId relationType targetId x Hadd.
    apply addRelation_inv in Hadd
      as (e & Hfind & Hvalid & _ & Hrels & Htype & Hother).
    destruct (EntityRepo.find s' sourceId) as [e1|] eqn:Hfind1; [|done].
    injection Hrels as Hrels. injection Htype as Htype.
    rewrite (addRelation_found _ _ _ _ _ _ Hfind1), Htype.
    rewrite (validateRelation_ok s' (type e)).
    + simpl. rewrite Hrels.
      rewrite (proj2 (existsb_same_edge relationType targetId _)); [done|].
      apply elem_of_app. right. left.
    + eapply (valid_edge_after s s' sourceId); [|done|done].
      rewrite Hfind, Hfind1. simpl. by rewrite Htype.
  - intros env s s' sourceId relationType targetId x e Hfind Hnodup Hadd.
    apply addRelation_inv in Hadd
      as (e0 & Hfind0 & _ & Hnew & Hrels & _).
    rewrite Hfind in Hfind0. injection Hfind0 as <-.
    destruct (EntityRepo.find s' sourceId) as [e1|]; [|done].
    injection Hrels as Hrels. exists e1. rewrite Hrels.
    split_and!; [done|done|]. apply NoDup_app. split_and!; [done| |].
    + intros y Hy ->%list_elem_of_singleton. done.
    + apply NoDup_singleton.
Qed.

Lemma addRelation_rejects_duplicates_witness :
  exists e,
    EntityRepo.find Sample.actions "ga-aaaa" = Some e /\
    {| rel_type := "depends_on"; rel_target := "ga-bbbb" |} ∈ relations e /\
    EntityRepo.addRelation (Sample.env "") "ga-aaaa" "depends_on" "ga-bbbb"
      Sample.actions =
    (Sample.actions, inl (RelationExists "ga-aaaa" "depends_on" "ga-bbbb")).
Proof.
  eexists. split; [reflexivity|].
  assert ({| rel_type := "depends_on"; rel_target := "ga-bbbb" |}
            ∈ [{| rel_type := "depends_on"; rel_target := "ga-bbbb" |}])
    as Hin by left.
  split; [exact Hin|].
  destruct (proj1 addRelation_rejects_duplicates (Sample.env "") Sample.actions
              "ga-aaaa" "depends_on" "ga-bbbb" _ eq_refl Hin)
    as (err & Hrun & Hkind).
  destruct Hkind as [-> _]; [|exact Hrun].
  split; [done|]. eexists. split; reflexivity.
Defined.

(** C8 as stated fails: the sample action keeps its edge to a deleted
    action; adding that edge again is rejected because the target is not
    found, not as a conflict. *)
Lemma addRelation_dangling_duplicate :
  ~ (forall env s sourceId relationType targetId e,
        EntityRepo.find s sourceId = Some e ->
        {| rel_type := relationType; rel_target := targetId |} ∈ relations e ->
        exists s' err,
          EntityRepo.addRelation env sourceId relationType targetId s
            = (s', inl err) /\
          error_kind err = ConflictError).
Proof.
  intros H.
  destruct (H (Sample.env "") Sample.dangling "ga-aaaa" "depends_on" "ga-bbbb"
              _ eq_refl) as (s' & err & Hrun & Hkind).
  { vm_compute. left. }
  vm_compute in Hrun. injection Hrun as _ <-. by vm_compute in Hkind.
Qed.

(** ** Linking *)

Section Link.
Import EntityRepo RelationEngine.
Local Open Scope store_scope.

Lemma link_distinct env s sourceId relationType targetId :
  sourceId <> targetId ->
  link env sourceId relationType targetId s =
  if is_dependency relationType &&
     wouldCreateCycle s sourceId targetId relationType
  then (s, inl (WouldCreateCycle sourceId targetId))
  else addRelation env sourceId relationType targetId s.
Proof.
  intros Hne. unfold link.
  rewrite bool_decide_eq_false_2 by done. simpl.
  unfold bind at 1. simpl. unfold bind at 1. simpl.
  by destruct (_ && _).
Qed.
End Link.

(** C1, as the code has it.  For distinct ids S and T and a dependency-forming
    relation type, [link] throws the cycle error, before anything else is
    looked at, exactly when S is reachable from T along dependency-forming
    edges; when S is not reachable, the new edge is valid and absent, and the
    edges S already carries are still valid, [link] succeeds and appends the
    edge to the relations of S.  For any other relation type [link] is
    [addRelation], without a search. *)
Theorem link_cycle_prevention env s sourceId relationType targetId :
  sourceId <> targetId ->
  let relation := {| rel_type := relationType; rel_target := targetId |} in
  (RelationEngine.is_dependency relationType = true ->
   RelationSpec.reachable s targetId sourceId ->
   RelationEngine.link env sourceId relationType targetId s =
     (s, inl (WouldCreateCycle sourceId targetId)) /\
   error_kind (WouldCreateCycle sourceId targetId) = CycleError) /\
  (RelationEngine.is_dependency relationType = true ->
   ~ RelationSpec.reachable s targetId sourceId ->
   RelationEngine.link env sourceId relationType targetId s =
     EntityRepo.addRelation env sourceId relationType targetId s /\
   forall e,
     EntityRepo.find s sourceId = Some e ->
     EntitySpec.valid_edge s (type e) relation ->
     relation ∉ relations e ->
     Forall (EntitySpec.valid_edge s (type e)) (relations e) ->
     exists s' e',
       RelationEngine.link env sourceId relationType targetId s
         = (s', inr (Some e')) /\
       relations e' = relations e ++ [relation] /\
       (relations <$> EntityRepo.find s' sourceId)
         = Some (relations e ++ [relation]) /\
       (forall j, j <> sourceId -> EntityRepo.find s' j = EntityRepo.find s j)) /\
  (RelationEngine.is_dependency relationType = false ->
   RelationEngine.link env sourceId relationType targetId s =
     EntityRepo.addRelation env sourceId relationType targetId s).
Proof.
  intros Hne relation. rewrite (link_distinct _ _ _ _ _ Hne). split_and!.
  - intros Hdep Hreach. split; [|done].
    apply (wouldCreateCycle_reachable s sourceId targetId relationType Hdep)
      in Hreach.
    by rewrite Hdep, Hreach.
  - intros Hdep Hreach.
    assert (RelationEngine.wouldCreateCycle s sourceId targetId relationType = false)
      as Hfree.
    { destruct (RelationEngine.wouldCreateCycle _ _ _ _) eqn:Hcycle; [|done].
      by apply (wouldCreateCycle_reachable s sourceId targetId relationType Hdep)
        in Hcycle. }
    rewrite Hdep, Hfree. simpl. split; [done|].
    intros e Hfind Hvalid Hnew Hold.
    by apply addRelation_success.
  - intros Hdep. by rewrite Hdep.
Qed.

Lemma link_cycle_prevention_witness :
  "ga-bbbb" <> "ga-aaaa" /\
  RelationSpec.reachable Sample.actions "ga-aaaa" "ga-bbbb" /\
  RelationEngine.link (Sample.env "") "ga-bbbb" "depends_on" "ga-aaaa"
    Sample.actions =
  (Sample.actions, inl (WouldCreateCycle "ga-bbbb" "ga-aaaa")) /\
  "ga-bbbb" <> "ga-cccc" /\
  ~ RelationSpec.reachable Sample.actions "ga-cccc" "ga-bbbb" /\
  exists s' e',
    RelationEngine.link (Sample.env "") "ga-bbbb" "depends_on" "ga-cccc"
      Sample.actions = (s', inr (Some e')) /\
    relations e' = [{| rel_type := "depends_on"; rel_target := "ga-cccc" |}].
Proof.
  assert (RelationSpec.reachable Sample.actions "ga-aaaa" "ga-bbbb") as Hreach.
  { apply rtc_once. eexists _, _. split; [reflexivity|].
    split_and!; [left| |reflexivity]. left. }
  assert (~ RelationSpec.reachable Sample.actions "ga-cccc" "ga-bbbb") as Hfree.
  { intros Habs.
    apply (wouldCreateCycle_reachable Sample.actions "ga-bbbb" "ga-cccc"
             "depends_on" eq_refl) in Habs.
    by vm_compute in Habs. }
  assert ("ga-bbbb" <> "ga-aaaa") as Hba by done.
  assert ("ga-bbbb" <> "ga-cccc") as Hbc by done.
  split_and!; [exact Hba|exact Hreach| |exact Hbc|exact Hfree|].
  - apply (proj1 (link_cycle_prevention (Sample.env "") Sample.actions
                    "ga-bbbb" "depends_on" "ga-aaaa" Hba));
      [reflexivity|exact Hreach].
  - destruct (proj2 (proj1 (proj2 (link_cycle_prevention (Sample.env "")
                Sample.actions "ga-bbbb" "depends_on" "ga-cccc" Hbc))
                eq_refl Hfree) _ eq_refl)
      as (s' & e' & Hrun & Hrels & _).
    + split; [done|]. eexists. split; reflexivity.
    + vm_compute. apply not_elem_of_nil.
    + vm_compute. constructor.
    + exists s', e'. split; [exact Hrun|exact Hrels].
Defined.

(** C1 as stated fails: in the store where the action [ga-bbbb] was
    deleted, [ga-aaaa] still carries its edge to it.  Linking [ga-aaaa] to
    [ga-cccc], which does not reach it, with a valid and new edge throws,
    because the update validates the old edge again. *)
Lemma link_fails_beside_dangling_edge :
  ~ (forall env s sourceId relationType targetId e,
        RelationEngine.is_dependency relationType = true ->
        sourceId <> targetId ->
        EntityRepo.find s sourceId = Some e ->
        is_Some (EntityRepo.find s targetId) ->
        ~ RelationSpec.reachable s targetId sourceId ->
        EntitySpec.valid_edge s (type e)
          {| rel_type := relationType; rel_target := targetId |} ->
        {| rel_type := relationType; rel_target := targetId |} ∉ relations e ->
        exists s' e',
          RelationEngine.link env sourceId relationType targetId s
            = (s', inr (Some e'))).
Proof.
  intros H.
  destruct (H (Sample.env "") Sample.dangling "ga-aaaa" "depends_on" "ga-cccc"
              _ eq_refl ltac:(done) eq_refl) as (s' & e' & Hrun).
  - by eexists.
  - intros Habs.
    apply (wouldCreateCycle_reachable Sample.dangling "ga-aaaa" "ga-cccc"
             "depends_on" eq_refl) in Habs.
    by vm_compute in Habs.
  - split; [done|]. eexists. split; reflexivity.
  - vm_compute. intros [[=]|Hin%elem_of_nil]%elem_of_cons. done.
  - by vm_compute in Hrun.
Qed.

Lemma create_update_all_or_nothing_witness :
  EntityRepo.create (Sample.env "eeeeeeee") "goal" Sample.untitled Sample.one_idea
    = (Sample.one_idea, inl TitleRequired) /\
  EntityRepo.update (Sample.env "") "gd-dddd"
    (Sample.new_title_and_priority "Plant trees" 7) Sample.one_idea
    = (Sample.one_idea, inl InvalidPriority).
Proof.
  split.
  - assert (EntityRepo.create (Sample.env "eeeeeeee") "goal" Sample.untitled
              Sample.one_idea =
            ((EntityRepo.create (Sample.env "eeeeeeee") "goal" Sample.untitled
                Sample.one_idea).1, inl TitleRequired)) as Hrun
      by (vm_compute; reflexivity).
    pose proof (proj1 create_update_all_or_nothing _ _ _ _ _ _ Hrun) as Hsame.
    rewrite Hrun, Hsame. reflexivity.
  - assert (EntityRepo.update (Sample.env "") "gd-dddd"
              (Sample.new_title_and_priority "Plant trees" 7) Sample.one_idea =
            ((EntityRepo.update (Sample.env "") "gd-dddd"
                (Sample.new_title_and_priority "Plant trees" 7)
                Sample.one_idea).1, inl InvalidPriority)) as Hrun
      by (vm_compute; reflexivity).
    pose proof (proj1 (proj2 create_update_all_or_nothing) _ _ _ _ _ _ Hrun)
      as Hsame.
    rewrite Hrun, Hsame. reflexivity.
Defined.

(* ================================================================== *)
(** * Further properties                                                *)
(* ================================================================== *)

(** ** Identifiers *)

Section Strings.
Lemma chars_str (l : list ascii) : Js.chars (Js.str l) = l.
Proof. apply list_ascii_of_string_of_list_ascii. Qed.

Lemma str_chars (s : string) : Js.str (Js.chars s) = s.
Proof. apply string_of_list_ascii_of_string. Qed.

Lemma chars_app (a b : string) : Js.chars (a +:+ b) = Js.chars a ++ Js.chars b.
Proof. induction a as [|c a IH]; simpl; [done|]. by rewrite <- IH. Qed.

Lemma is_prefix_app (p x : list ascii) : Js.is_prefix p (p ++ x) = true.
Proof.
  induction p as [|c p IH]; simpl; [done|].
  by rewrite bool_decide_eq_true_2.
Qed.

Lemma is_prefix_inv (p l : list ascii) :
  Js.is_prefix p l = true -> exists x, l = p ++ x.
Proof.
  revert l. induction p as [|c p IH]; intros l; simpl; [by exists l|].
  destruct l as [|d l]; [done|].
  intros [->%bool_decide_eq_true [x ->]%IH]%andb_true_iff. by exists x.
Qed.

Lemma forallb_take {A} (f : A -> bool) (n : nat) (l : list A) :
  forallb f l = true -> forallb f (take n l) = true.
Proof.
  revert n. induction l as [|x l IH]; intros [|n]; simpl; try done.
  intros [-> Hl]%andb_true_iff. simpl. by apply IH.
Qed.
End Strings.

Section GenerateId.
Import Id IdSpec.

Lemma generateId_attempts prefix digest existsCheck :
  generateId prefix digest (Some existsCheck) =
  if negb (existsCheck (attempt_id prefix digest 0)) then attempt_id prefix digest 0
  else if negb (existsCheck (attempt_id prefix digest 1)) then attempt_id prefix digest 1
  else if negb (existsCheck (attempt_id prefix digest 2)) then attempt_id prefix digest 2
  else if negb (existsCheck (attempt_id prefix digest 3)) then attempt_id prefix digest 3
  else if negb (existsCheck (attempt_id prefix digest 4)) then attempt_id prefix digest 4
  else prefix +:+ "-" +:+ Js.str (take 8 (digest 5)).
Proof.
  unfold generateId, attempt_id, hash_length. simpl.
  repeat (destruct (existsCheck _); simpl; [|done]). done.
Qed.

Lemma generateId_shape prefix digest existsCheck :
  exists k n, generateId prefix digest existsCheck =
              prefix +:+ "-" +:+ Js.str (take n (digest k)) /\ 4 <= n <= 8.
Proof.
  destruct existsCheck as [existsCheck|].
  - rewrite generateId_attempts. unfold attempt_id, hash_length.
    repeat (destruct (negb _); [eexists _, _; split; [done|simpl; lia]|]).
    eexists _, _. split; [done|lia].
  - exists 0, 4. split; [done|lia].
Qed.

Lemma generateId_free_or_busy prefix digest existsCheck :
  existsCheck (generateId prefix digest (Some existsCheck)) = false \/
  forall j, j < 5 -> existsCheck (attempt_id prefix digest j) = true.
Proof.
  rewrite generateId_attempts.
  destruct (existsCheck (attempt_id prefix digest 0)) eqn:H0; simpl; [|by left].
  destruct (existsCheck (attempt_id prefix digest 1)) eqn:H1; simpl; [|by left].
  destruct (existsCheck (attempt_id prefix digest 2)) eqn:H2; simpl; [|by left].
  destruct (existsCheck (attempt_id prefix digest 3)) eqn:H3; simpl; [|by left].
  destruct (existsCheck (attempt_id prefix digest 4)) eqn:H4; simpl; [|by left].
  right. intros j Hj. do 5 (destruct j as [|j]; [done|]). lia.
Qed.
End GenerateId.

(** X1. [generateId] returns the id of the first of its five attempts that
    [existsCheck] does not know; the hash has 4 characters in the attempts 0
    to 2 and 5 in the attempts 3 and 4.  So the id returned is unknown to
    [existsCheck] unless all five attempts collide, in which case the
    8-character fallback is returned without a check. *)
Theorem generateId_first_free prefix digest existsCheck :
  (forall k,
      k < 5 ->
      (forall j, j < k -> existsCheck (IdSpec.attempt_id prefix digest j) = true) ->
      existsCheck (IdSpec.attempt_id prefix digest k) = false ->
      Id.generateId prefix digest (Some existsCheck) =
        IdSpec.attempt_id prefix digest k) /\
  ((forall j, j < 5 -> existsCheck (IdSpec.attempt_id prefix digest j) = true) ->
   Id.generateId prefix digest (Some existsCheck) =
     prefix +:+ "-" +:+ Js.str (take 8 (digest 5))) /\
  (existsCheck (Id.generateId prefix digest (Some existsCheck)) = false \/
   forall j, j < 5 -> existsCheck (IdSpec.attempt_id prefix digest j) = true).
Proof.
  split_and!; [| |apply generateId_free_or_busy]; rewrite generateId_attempts.
  - intros k Hk Hbusy Hfree.
    do 5 (destruct k as [|k];
          [by rewrite ?Hbusy, ?Hfree by lia|]). lia.
  - intros Hbusy. by rewrite !Hbusy by lia.
Qed.

Lemma generateId_first_free_witness :
  let digest := fun _ : nat => Js.chars "0123456789abcdef" in
  let existsCheck := fun i => bool_decide (i = "gg-0123") in
  3 < 5 /\
  (forall j, j < 3 -> existsCheck (IdSpec.attempt_id "gg" digest j) = true) /\
  existsCheck (IdSpec.attempt_id "gg" digest 3) = false /\
  Id.generateId "gg" digest (Some existsCheck) = "gg-01234".
Proof.
  intros digest existsCheck.
  assert (forall j, j < 3 -> existsCheck (IdSpec.attempt_id "gg" digest j) = true)
    as Hbusy.
  { intros j Hj. do 3 (destruct j as [|j]; [reflexivity|]). lia. }
  split_and!; [lia|exact Hbusy|reflexivity|].
  apply (proj1 (generateId_first_free "gg" digest existsCheck) 3);
    [lia|exact Hbusy|reflexivity].
Defined.

(** X2. When the digests are hexadecimal strings of at least 8 characters,
    as SHA-256 digests are, the id that [generateId] returns for the prefix
    of an entity type or of a government passes [isValidId] for that
    prefix. *)
Theorem generateId_isValidId prefix digest existsCheck :
  prefix ∈ (snd <$> Id.ENTITY_PREFIXES) ->
  (forall k, 8 <= length (digest k) /\ forallb Id.is_hex (digest k) = true) ->
  Id.isValidId (Id.generateId prefix digest existsCheck) prefix = true.
Proof.
  intros _ Hdigest.
  destruct (generateId_shape prefix digest existsCheck) as (k & n & -> & Hn).
  destruct (Hdigest k) as [Hlen Hhex].
  unfold Id.isValidId.
  rewrite !chars_app, chars_str.
  change (Js.chars "-") with ["-"%char].
  rewrite (app_assoc (Js.chars prefix) ["-"%char]).
  rewrite is_prefix_app, drop_app_length.
  rewrite length_take, forallb_take by done.
  rewrite Nat.min_l by lia.
  destruct Hn as [H4 H8].
  apply Nat.leb_le in H4, H8. by rewrite H4, H8.
Qed.

Lemma generateId_isValidId_witness :
  let digest := fun _ : nat => Js.chars "0123456789abcdef" in
  "gt" ∈ (snd <$> Id.ENTITY_PREFIXES) /\
  (forall k, 8 <= length (digest k) /\ forallb Id.is_hex (digest k) = true) /\
  Id.isValidId (Id.generateId "gt" digest None) "gt" = true.
Proof.
  intros digest.
  assert ("gt" ∈ (snd <$> Id.ENTITY_PREFIXES)) as Hin.
  { apply (bool_decide_unpack _). by vm_compute. }
  assert (forall k, 8 <= length (digest k) /\ forallb Id.is_hex (digest k) = true)
    as Hdigest.
  { intros k. split; [simpl; lia|reflexivity]. }
  split_and!; [exact Hin|exact Hdigest|].
  exact (generateId_isValidId "gt" digest None Hin Hdigest).
Defined.

(** X3. An id that passes [isValidId] for the prefix of an entity type
    decodes to that type: [getTypeFromId] returns the name of the type and
    [isEntityType] accepts it. *)
Theorem isValidId_getTypeFromId i t :
  Id.isValidId i (Id.getPrefixForType t) = true ->
  Id.getTypeFromId i = Some (type_name t) /\
  Id.isEntityType i (type_name t) = true.
Proof.
  unfold Id.isValidId. intros [Hprefix _]%andb_true_iff.
  apply is_prefix_inv in Hprefix as [x Hx].
  assert (Id.getTypeFromId i = Some (type_name t)) as Hget.
  { unfold Id.getTypeFromId. rewrite Hx. by destruct t. }
  split; [done|]. unfold Id.isEntityType. by rewrite Hget, bool_decide_eq_true_2.
Qed.

Lemma isValidId_getTypeFromId_witness :
  Id.isValidId "gp-a1b2" (Id.getPrefixForType Problem) = true /\
  Id.getTypeFromId "gp-a1b2" = Some "problem".
Proof.
  split; [reflexivity|].
  apply (isValidId_getTypeFromId "gp-a1b2" Problem). reflexivity.
Defined.

(** ** Slugs, continued *)

Section SlugShape.
Import Id IdSpec.

Lemma try_counters_result n counter baseSlug existsCheck :
  match try_counters n counter baseSlug existsCheck with
  | Some slug => existsCheck slug = false
  | None => forall j, counter <= j < counter + n ->
                      existsCheck (candidate baseSlug j) = true
  end.
Proof.
  revert counter. induction n as [|n IH]; intros counter; simpl; [intros; lia|].
  destruct (existsCheck (candidate baseSlug counter)) eqn:Hc; simpl; [|done].
  specialize (IH (S counter)). destruct (try_counters _ _ _ _); [done|].
  intros j Hj. destruct (decide (j = counter)) as [->|Hne]; [done|].
  apply IH. lia.
Qed.

Lemma hyphenate_well (b : bool) (s : list ascii) :
  well_hyphenated b (hyphenate_go b s) = true.
Proof.
  revert b. induction s as [|c s IH]; intros b; simpl; [done|].
  destruct (Js.is_alnum c) eqn:Hc; simpl.
  - rewrite bool_decide_eq_false_2 by by apply alnum_not_hyphen.
    by rewrite Hc, IH.
  - destruct b; [apply IH|]. simpl. apply IH.
Qed.

Lemma well_hyphenated_prefix (b : bool) (l1 l2 : list ascii) :
  well_hyphenated b (l1 ++ l2) = true -> well_hyphenated b l1 = true.
Proof.
  revert b. induction l1 as [|c l1 IH]; intros b; simpl; [done|].
  case_bool_decide.
  - intros [-> Hw]%andb_true_iff. simpl. by apply IH in Hw.
  - intros [-> Hw]%andb_true_iff. simpl. by apply IH in Hw.
Qed.

Lemma strip_trailing_prefix (l : list ascii) :
  exists l2, l = strip_trailing_hyphen l ++ l2.
Proof.
  unfold strip_trailing_hyphen.
  destruct (rev l) as [|c r] eqn:Hr; simpl.
  - exists []. apply (f_equal (@rev ascii)) in Hr.
    rewrite rev_involutive in Hr. by rewrite Hr.
  - apply (f_equal (@rev ascii)) in Hr. rewrite rev_involutive in Hr.
    simpl in Hr. rewrite Hr. case_bool_decide.
    + by exists [c].
    + exists []. simpl. by rewrite app_nil_r.
Qed.
End SlugShape.

(** X4. [makeSlugUnique] never returns a slug that [existsCheck] knows,
    unless the base and every candidate base-2, ..., base-999 are known; only
    then is the random suffix used, unchecked. *)
Theorem makeSlugUnique_free baseSlug existsCheck random :
  existsCheck (Id.makeSlugUnique baseSlug existsCheck random) = false \/
  (existsCheck baseSlug = true /\
   forall j, 2 <= j <= 999 -> existsCheck (Id.candidate baseSlug j) = true).
Proof.
  unfold Id.makeSlugUnique.
  destruct (existsCheck baseSlug) eqn:Hbase; cbn [negb]; [|by left].
  pose proof (try_counters_result (1000 - 2) 2 baseSlug existsCheck) as Hloop.
  destruct (Id.try_counters (1000 - 2) 2 baseSlug existsCheck); [by left|].
  right. split; [done|]. intros j Hj. apply Hloop. lia.
Qed.

(** X5. A slug made by [generateSlug] consists of characters of [a-z0-9]
    and hyphens only, does not begin with a hyphen and has no two hyphens
    in a row. *)
Theorem generateSlug_well_hyphenated name :
  IdSpec.well_hyphenated true (Js.chars (Id.generateSlug name)) = true.
Proof.
  unfold Id.generateSlug, Id.strip_hyphens. rewrite chars_str.
  rewrite strip_leading_hyphenate.
  set (h := Id.hyphenate_go true _).
  destruct (strip_trailing_prefix h) as [l2 Hl2].
  apply (well_hyphenated_prefix true _ (drop 100 (Id.strip_trailing_hyphen h))).
  rewrite take_drop.
  apply (well_hyphenated_prefix true _ l2). rewrite <- Hl2.
  apply hyphenate_well.
Qed.

(** ** Creation *)

Section Create.
Import EntityRepo EntitySpec.
Local Open Scope store_scope.

Lemma validateType_inv name s r :
  (validateType name s).2 = inr r -> type_name r = name.
Proof.
  unfold validateType.
  destruct (List.find _ ENTITY_TYPES) as [t|] eqn:Hfind; simpl; [|done].
  intros [= <-]. apply find_some in Hfind as [_ Hname].
  by apply bool_decide_eq_true in Hname.
Qed.

Lemma validateTitle_inv title s :
  (validateTitle title s).2 = inr tt ->
  exists t, title = Some t /\ t <> "" /\ (N.of_nat (String.length t) <= 500)%N.
Proof.
  unfold validateTitle, check, bind, truthy, js_length.
  destruct title as [t|]; simpl; [|done].
  case_bool_decide as Hempty; simpl; [done|].
  destruct (N.ltb_spec 500 (N.of_nat (String.length t))); simpl; [done|].
  intros _. by exists t.
Qed.

Lemma validateStatus_inv st t s :
  (validateStatus st t s).2 = inr tt -> st ∈ ENTITY_STATUSES t.
Proof. unfold validateStatus, check. by case_bool_decide. Qed.

Lemma validatePriority_inv p s n :
  (validatePriority p s).2 = inr n -> n ∈ PRIORITIES.
Proof.
  unfold validatePriority, check, bind.
  destruct (match p with PNumber n0 => Some n0 | PString s0 => parse_priority s0 end)
    as [m|]; simpl; [|done].
  case_bool_decide; simpl; [|done]. by intros [= <-].
Qed.

Lemma nonempty_Some (x : option string) (st : string) :
  nonempty x = Some st -> x = Some st /\ st <> "".
Proof.
  unfold nonempty, truthy. destruct x as [a|]; [|done].
  case_bool_decide; simpl; [done|]. by intros [= <-].
Qed.

(** What a successful [create] did. *)
Lemma create_inv env typeName data s s' e :
  create env typeName data s = (s', inr e) ->
  entities s' = entities s ++ [e] /\
  governments s' = governments s /\
  type_name (type e) = typeName /\
  id e = Id.generateId (Id.getPrefixForType (type e)) (env_digest env)
           (Some (fun i => bool_decide (find s i <> None))) /\
  (exists t, d_title data = Some t /\ t <> "" /\
             (N.of_nat (String.length t) <= 500)%N /\ title e = trimmed t) /\
  status e ∈ ENTITY_STATUSES (type e) /\
  (nonempty (d_status data) = None ->
   head (ENTITY_STATUSES (type e)) = Some (status e)) /\
  priority e ∈ PRIORITIES /\
  relations e = default [] (d_relations data) /\
  Forall (valid_edge s (type e)) (relations e) /\
  closed_at e = None /\
  created_at e = env_now env /\ updated_at e = env_now env /\
  history e = [ {| h_timestamp := env_now env; h_action := "created";
                   h_field := None; h_old_value := None;
                   h_new_value := None |} ].
Proof.
  unfold create.
  rewrite bind_run by apply reads_validateType.
  destruct ((validateType typeName s).2) as [?|t] eqn:Htype; [done|].
  apply validateType_inv in Htype.
  rewrite bind_run by reads_repo.
  destruct ((validateTitle (d_title data) s).2) as [?|[]] eqn:Htitle; [done|].
  apply validateTitle_inv in Htitle.
  rewrite bind_run by reads_repo.
  destruct ((validateBody (d_body data) s).2) as [?|[]] eqn:Hbody; [done|].
  rewrite bind_run by reads_repo.
  destruct ((resolve_government (d_gov_id data) s).2) as [?|govId] eqn:Hgov;
    [done|].
  rewrite bind_run by reads_repo.
  destruct ((validatePriority _ s).2) as [?|n] eqn:Hprio; [done|].
  apply validatePriority_inv in Hprio.
  rewrite bind_run by (destruct t; reads_repo).
  match goal with
  | |- match ?x with inl _ => _ | inr _ => _ end = _ -> _ =>
      destruct x as [?|loc] eqn:Hloc; [done|]
  end.
  rewrite bind_run by reads_repo.
  destruct (mapM _ _ s) as [s1 [?|rels]] eqn:Hrels; simpl; [done|].
  apply validateRelations_inv in Hrels as (-> & _ & Hvalid).
  rewrite bind_run by reads_repo. simpl.
  rewrite bind_run by reads_repo.
  match goal with
  | |- match ?x with inl _ => _ | inr _ => _ end = _ -> _ =>
      destruct x as [?|[]] eqn:Hstatus; [done|]
  end.
  unfold bind, Storage.appendRecord, modify, ret. simpl. intros [= <- <-]. simpl.
  destruct Htitle as (ttl & Httl & Hne & Hlen). rewrite Httl. simpl.
  split_and!; try done.
  - by exists ttl.
  - unfold or_else.
    destruct (nonempty (d_status data)) as [st|] eqn:Hst.
    + apply validateStatus_inv in Hstatus.
      apply nonempty_Some in Hst as [-> Hne'].
      unfold truthy. rewrite bool_decide_eq_false_2 by done. done.
    + unfold nonempty in Hst. destruct (d_status data) as [st|]; [|by destruct t; left].
      destruct (truthy st); [done|]. simpl. by destruct t; left.
  - intros Hst. unfold or_else, nonempty in *.
    destruct (d_status data) as [st|]; [|by destruct t].
    destruct (truthy st); [done|]. simpl. by destruct t.
Qed.

Lemma findById_app records i e :
  Storage.findById (records ++ [e]) i =
  match Storage.findById records i with
  | Some x => Some x
  | None => if bool_decide (id e = i) then Some e else None
  end.
Proof.
  unfold Storage.findById. induction records as [|r records IH]; simpl; [done|].
  by destruct (bool_decide (id r = i)).
Qed.
End Create.

(** X6. A successful [create] appends exactly the entity it returns: every
    id found before is found as before, the governments are untouched, and
    the new entity is found under its id whenever that id was free, which is
    the case unless all five id attempts collided with stored ids. *)
Theorem create_appends env typeName data s s' e :
  EntityRepo.create env typeName data s = (s', inr e) ->
  entities s' = entities s ++ [e] /\
  governments s' = governments s /\
  (forall j x, EntityRepo.find s j = Some x -> EntityRepo.find s' j = Some x) /\
  (forall j, j <> id e -> EntityRepo.find s' j = EntityRepo.find s j) /\
  (EntityRepo.find s (id e) = None -> EntityRepo.find s' (id e) = Some e) /\
  (EntityRepo.find s' (id e) = Some e \/
   forall k, k < 5 ->
     EntityRepo.find s
       (IdSpec.attempt_id (Id.getPrefixForType (type e)) (env_digest env) k)
     <> None).
Proof.
  intros (Hentities & Hgov & _ & Hid & _)%create_inv.
  assert (forall j, EntityRepo.find s' j =
                    match EntityRepo.find s j with
                    | Some x => Some x
                    | None => if bool_decide (id e = j) then Some e else None
                    end) as Hfind.
  { intros j. unfold EntityRepo.find. rewrite Hentities. apply findById_app. }
  assert (EntityRepo.find s (id e) = None -> EntityRepo.find s' (id e) = Some e)
    as Hfresh.
  { intros Hnone. by rewrite Hfind, Hnone, bool_decide_eq_true_2. }
  split_and!; [done|done| | |done|].
  - intros j x Hj. by rewrite Hfind, Hj.
  - intros j Hj. rewrite Hfind. destruct (EntityRepo.find s j); [done|].
    by rewrite bool_decide_eq_false_2.
  - destruct (generateId_free_or_busy
                (Id.getPrefixForType (type e)) (env_digest env)
                (fun i => bool_decide (EntityRepo.find s i <> None)))
      as [Hfree|Hbusy].
    + left. apply Hfresh. rewrite <- Hid in Hfree.
      apply bool_decide_eq_false in Hfree.
      by destruct (EntityRepo.find s (id e)); [destruct Hfree|].
    + right. intros k Hk. specialize (Hbusy k Hk).
      by apply bool_decide_eq_true in Hbusy.
Qed.

Lemma create_appends_witness :
  exists s' e,
    EntityRepo.create (Sample.env "dddddddd") "idea"
      (Sample.titled "Plant street trees") Sample.empty = (s', inr e) /\
    entities s' = [e] /\
    EntityRepo.find s' (id e) = Some e.
Proof.
  destruct (EntityRepo.create (Sample.env "dddddddd") "idea"
              (Sample.titled "Plant street trees") Sample.empty)
    as [s' [err|e]] eqn:Hrun.
  { exfalso. by vm_compute in Hrun. }
  exists s', e. split; [reflexivity|].
  destruct (create_appends _ _ _ _ _ _ Hrun)
    as (Hentities & _ & _ & _ & Hfresh & _).
  split; [exact Hentities|]. apply Hfresh. reflexivity.
Defined.

(** X7. The entity a successful [create] returns is well formed: its type
    is the one asked for and its id decodes to that type; its status belongs
    to the statuses of its type and is the first of them when none was
    supplied; its priority is one of 0 to 4; every relation is declared from
    its type to the type of a target that was stored before the call; it is
    not closed, and its history is the single entry [created]. *)
Theorem create_well_formed env typeName data s s' e :
  EntityRepo.create env typeName data s = (s', inr e) ->
  type_name (type e) = typeName /\
  Id.getTypeFromId (id e) = Some typeName /\
  status e ∈ EntityRepo.ENTITY_STATUSES (type e) /\
  (EntityRepo.d_status data = None \/ EntityRepo.d_status data = Some "" ->
   head (EntityRepo.ENTITY_STATUSES (type e)) = Some (status e)) /\
  priority e ∈ [0; 1; 2; 3; 4]%Z /\
  Forall (EntitySpec.valid_edge s (type e)) (relations e) /\
  closed_at e = None /\
  created_at e = updated_at e /\
  (h_action <$> history e) = ["created"].
Proof.
  intros (_ & _ & Htype & Hid & _ & Hstatus & Hdefault & Hprio & _ & Hrels &
          Hclosed & Hcreated & Hupdated & Hhistory)%create_inv.
  split_and!; try done.
  - destruct (generateId_shape (Id.getPrefixForType (type e)) (env_digest env)
                (Some (fun i => bool_decide (EntityRepo.find s i <> None))))
      as (k & n & Hshape & _).
    rewrite Hid, Hshape, <- Htype. unfold Id.getTypeFromId.
    rewrite chars_app. by destruct (type e).
  - intros Hnone. apply Hdefault. by destruct Hnone as [-> | ->].
  - congruence.
  - by rewrite Hhistory.
Qed.

Lemma create_well_formed_witness :
  exists s' e,
    EntityRepo.create (Sample.env "dddddddd") "idea"
      (Sample.titled "Plant street trees") Sample.empty = (s', inr e) /\
    Id.getTypeFromId (id e) = Some "idea" /\ status e = "proposed".
Proof.
  destruct (EntityRepo.create (Sample.env "dddddddd") "idea"
              (Sample.titled "Plant street trees") Sample.empty)
    as [s' [err|e]] eqn:Hrun.
  { exfalso. by vm_compute in Hrun. }
  exists s', e. split; [reflexivity|].
  destruct (create_well_formed _ _ _ _ _ _ Hrun)
    as (Htype & Hid & _ & Hstatus & _).
  split; [exact Hid|]. specialize (Hstatus (or_introl eq_refl)).
  destruct (type e); try discriminate Htype. by injection Hstatus.
Defined.

Section Priority.
Import EntityRepo.

Lemma digit_value_inv (c : ascii) (n : Z) :
  digit_value c = Some n -> n ∈ PRIORITIES ->
  Js.str [c] = Id.decimal (Z.to_nat n).
Proof.
  intros Hd Hn. unfold PRIORITIES in Hn.
  destruct c as [[] [] [] [] [] [] [] []]; vm_compute in Hd; try done;
    injection Hd as <-; try done;
    exfalso; revert Hn; apply (bool_decide_unpack _); by vm_compute.
Qed.
End Priority.

(** X8. [validatePriority] accepts exactly the numbers 0 to 4 and the
    strings made of one of the digits 0 to 4, alone or after [P] or [p], and
    returns the number, leaving the store as it is; nothing else is
    accepted. *)
Theorem validatePriority_accepts p s n :
  EntityRepo.validatePriority p s = (s, inr n) <->
  n ∈ [0; 1; 2; 3; 4]%Z /\
  (p = EntityRepo.PNumber n \/
   p = EntityRepo.PString (Id.decimal (Z.to_nat n)) \/
   p = EntityRepo.PString ("P" +:+ Id.decimal (Z.to_nat n)) \/
   p = EntityRepo.PString ("p" +:+ Id.decimal (Z.to_nat n))).
Proof.
  split.
  - intros Hrun.
    assert ((EntityRepo.validatePriority p s).2 = inr n) as Hn by by rewrite Hrun.
    pose proof (validatePriority_inv _ _ _ Hn) as Hin. split; [done|].
    revert Hrun. unfold EntityRepo.validatePriority.
    destruct p as [m|str]; simpl.
    + unfold bind, check. case_bool_decide; simpl; [|done]. intros [= ->]. by left.
    + unfold EntityRepo.parse_priority.
      clear Hn. rewrite <- (str_chars str). rewrite chars_str.
      destruct (Js.chars str) as [|a [|b [|c l]]]; simpl; try done.
      * destruct (EntityRepo.digit_value a) as [m|] eqn:Hd; simpl; [|done].
        unfold bind, check. case_bool_decide; simpl; [|done]. intros [= ->].
        right. left. f_equal. by apply (digit_value_inv a n).
      * destruct (bool_decide (a = "P"%char)) eqn:HP; simpl.
        { apply bool_decide_eq_true in HP as ->.
          destruct (EntityRepo.digit_value b) as [m|] eqn:Hd; simpl; [|done].
          unfold bind, check. case_bool_decide; simpl; [|done]. intros [= ->].
          right. right. left. f_equal.
          change (String "P" (String b "")) with ("P" +:+ Js.str [b]).
          f_equal. by apply (digit_value_inv b n). }
        destruct (bool_decide (a = "p"%char)) eqn:Hp; simpl; [|done].
        apply bool_decide_eq_true in Hp as ->. clear HP.
        destruct (EntityRepo.digit_value b) as [m|] eqn:Hd; simpl; [|done].
        unfold bind, check. case_bool_decide; simpl; [|done]. intros [= ->].
        right. right. right. f_equal.
        change (String "p" (String b "")) with ("p" +:+ Js.str [b]).
        f_equal. by apply (digit_value_inv b n).
  - intros [Hn Hp].
    assert (n = 0 \/ n = 1 \/ n = 2 \/ n = 3 \/ n = 4)%Z as Hcases.
    { revert Hn. rewrite !elem_of_cons, elem_of_nil. tauto. }
    destruct Hcases as [-> | [-> | [-> | [-> | ->]]]];
      destruct Hp as [-> | [-> | [-> | ->]]]; reflexivity.
Qed.

(** ** Updates *)

Section UpdateFields.
Import EntityRepo EntitySpec.
Local Open Scope store_scope.

Lemma updateRecord_ids env i p s s' r :
  updateRecord env i p s = (s', r) ->
  (id <$> entities s') = (id <$> entities s) /\ governments s' = governments s.
Proof.
  unfold updateRecord. destruct (last _); intros [= <- _]; simpl; [|done].
  split; [|done]. rewrite <- list_fmap_compose. apply list_fmap_ext.
  intros k x _. simpl. by case_bool_decide.
Qed.

Lemma government_find_elem s g gv :
  government_find s g = Some gv -> gv ∈ governments s.
Proof.
  unfold government_find, Storage.gov_findById, Storage.gov_findBySlug.
  destruct (Id.isValidId g "gt"); intros [Hin _]%find_some;
    by apply list_elem_of_In.
Qed.

(** The fields of the patch that [update] builds. *)
Lemma allowedUpdates_fields env e u s s1 p :
  allowedUpdates env e u s = (s1, inr p) ->
  p_title p = trimmed <$> u_title u /\
  p_status p = u_status u /\
  (forall st, u_status u = Some st -> st ∈ ENTITY_STATUSES (type e)) /\
  (forall n, p_priority p = Some n -> n ∈ PRIORITIES) /\
  p_closed_at p =
    match u_status u with
    | Some st =>
        if bool_decide (st ∈ update_terminal_statuses)
        then Some (Some (env_now env))
        else match closed_at e with
             | Some c => if truthy c then Some None else None
             | None => None
             end
    | None => None
    end /\
  p_metadata p = (fun m => m ∪ metadata e) <$> u_metadata u /\
  p_assignee p = (if bool_decide (type e = Action) then u_assignee u else None) /\
  p_due_date p = (if bool_decide (type e = Action) then u_due_date u else None) /\
  p_support_count p =
    (if bool_decide (type e = Idea) then u_support_count u else None) /\
  p_supporters p = (if bool_decide (type e = Idea) then u_supporters u else None) /\
  p_ai_classification p =
    (if bool_decide (type e = Idea) then u_ai_classification u else None) /\
  (type e <> Problem -> p_location p = None) /\
  (u_location u = None -> p_location p = None) /\
  p_body p = (fun b => nonempty (trimmed <$> b)) <$> u_body u /\
  p_relations p = u_relations u /\
  (forall rels, u_relations u = Some rels ->
                Forall (valid_edge s (type e)) rels) /\
  (forall g, p_gov_id p = Some (Some g) ->
             exists gv, gv ∈ governments s /\ g_id gv = g).
Proof.
  unfold allowedUpdates.
  rewrite bind_run by reads_repo.
  match goal with
  | |- match ?x with inl _ => _ | inr _ => _ end = _ -> _ =>
      destruct x as [?|title'] eqn:Htitle; [done|]
  end.
  apply (supplied_step (u_title u) (fun t => validateTitle (Some t))
           (fun t _ => trimmed t)) in Htitle.
  rewrite bind_run by reads_repo.
  match goal with
  | |- match ?x with inl _ => _ | inr _ => _ end = _ -> _ =>
      destruct x as [?|body'] eqn:Hbody; [done|]
  end.
  apply (supplied_step (u_body u) validateBody
           (fun b _ => nonempty (trimmed <$> b))) in Hbody.
  rewrite bind_run by reads_repo.
  match goal with
  | |- match ?x with inl _ => _ | inr _ => _ end = _ -> _ =>
      destruct x as [?|status'] eqn:Hstatus; [done|]
  end.
  apply (supplied_step (u_status u)
           (fun st => validateStatus st (type e)) (fun st _ => st)) in Hstatus.
  rewrite bind_run by reads_repo.
  match goal with
  | |- match ?x with inl _ => _ | inr _ => _ end = _ -> _ =>
      destruct x as [?|priority'] eqn:Hpriority; [done|]
  end.
  apply (supplied_step (u_priority u) validatePriority (fun _ n => n))
    in Hpriority.
  rewrite bind_run by reads_repo.
  match goal with
  | |- match ?x with inl _ => _ | inr _ => _ end = _ -> _ =>
      destruct x as [?|gov'] eqn:Hgov; [done|]
  end.
  apply (supplied_step (u_gov_id u) resolve_government (fun _ g => g)) in Hgov.
  rewrite bind_run by reads_repo.
  match goal with
  | |- match ?x with inl _ => _ | inr _ => _ end = _ -> _ =>
      destruct x as [?|relations'] eqn:Hrels; [done|]
  end.
  apply (supplied_step (u_relations u)
           (mapM (fun rel => validateRelation rel (type e)))
           (fun _ l => l)) in Hrels.
  rewrite bind_run by reads_repo.
  match goal with
  | |- match ?x with inl _ => _ | inr _ => _ end = _ -> _ =>
      destruct x as [?|location'] eqn:Hloc; [done|]
  end.
  intros [= _ <-]. simpl. split_and!; try done.
  - destruct (u_title u); [by destruct Htitle as (? & _ & ->)|done].
  - destruct (u_status u); [by destruct Hstatus as (? & _ & ->)|done].
  - intros st Hst. rewrite Hst in Hstatus. destruct Hstatus as ([] & Hv & _).
    by apply validateStatus_inv in Hv.
  - intros n Hn. subst priority'. destruct (u_priority u) as [pr|]; [|done].
    destruct Hpriority as (m & Hv & [= ->]). by apply validatePriority_inv in Hv.
  - intros Htype. revert Hloc. destruct (type e); try done;
      destruct (u_location u); by intros [= <-].
  - intros Hnone. revert Hloc. rewrite Hnone. by destruct (type e); intros [= <-].
  - destruct (u_body u); [by destruct Hbody as (? & _ & ->)|done].
  - destruct (u_relations u) as [rels|]; [|done].
    destruct Hrels as (l & Hl & ->).
    destruct (mapM _ rels s) as [s2 [?|l']] eqn:Hm; [done|].
    apply validateRelations_inv in Hm as (-> & _ & _). simpl in Hl. congruence.
  - intros rels Hsome. rewrite Hsome in Hrels. destruct Hrels as (l & Hl & _).
    destruct (mapM _ rels s) as [s2 [?|l']] eqn:Hm; [done|].
    by apply validateRelations_inv in Hm as (_ & _ & Hall).
  - intros g Hg. subst gov'. destruct (u_gov_id u) as [gin|]; [|done].
    destruct Hgov as (b & Hres & [= <-]). revert Hres.
    unfold resolve_government. destruct gin as [gname|]; [|done].
    destruct (truthy gname); [|done]. unfold bind, gets. simpl.
    destruct (government_find s gname) as [gv|] eqn:Hgv; [|done].
    simpl. intros [= <-]. exists gv. split; [|done].
    by apply government_find_elem in Hgv.
Qed.

(** What a successful [update] of a stored entity did. *)
Lemma update_inv env i u s s' r e :
  find s i = Some e ->
  update env i u s = (s', inr r) ->
  exists p,
    allowedUpdates env e u s = (s, inr p) /\
    find s' i = Some (merge e p (env_write_time env)) /\
    (forall j, j <> i -> find s' j = find s j) /\
    (id <$> entities s') = (id <$> entities s) /\
    governments s' = governments s /\
    exists e0, r = Some (merge e0 p (env_write_time env)) /\
               e0 ∈ entities s /\ id e0 = i.
Proof.
  intros Hfind. rewrite (update_found _ _ _ _ _ Hfind).
  pose proof (reads_run _ s (reads_allowedUpdates env e u)) as Hp.
  destruct ((allowedUpdates env e u s).2) as [err|p]; [done|].
  intros Hrun. exists p. split; [done|].
  destruct (updateRecord_ids _ _ _ _ _ _ Hrun) as [Hids Hgov].
  destruct (updateRecord_found env i p s e Hfind)
    as (s2 & e0 & Hrun' & Hin & Hid & Hfound & Hother & _).
  rewrite Hrun' in Hrun. injection Hrun as <- <-.
  split_and!; try done. by exists e0.
Qed.
End UpdateFields.

(** X9. A successful [update] rewrites the records of one id and nothing
    else: the ids in the file and the governments are as before, every other
    id is found as before, and the entity itself keeps its id, its type, its
    creation time and its report count, and carries the time of the write as
    [updated_at]. *)
Theorem update_frame env i updates s s' r e :
  EntityRepo.find s i = Some e ->
  EntityRepo.update env i updates s = (s', inr r) ->
  (id <$> entities s') = (id <$> entities s) /\
  governments s' = governments s /\
  (forall j, j <> i -> EntityRepo.find s' j = EntityRepo.find s j) /\
  exists e',
    EntityRepo.find s' i = Some e' /\
    id e' = id e /\ type e' = type e /\ created_at e' = created_at e /\
    report_count e' = report_count e /\ similar_ideas e' = similar_ideas e /\
    updated_at e' = env_write_time env.
Proof.
  intros Hfind Hrun.
  destruct (update_inv _ _ _ _ _ _ _ Hfind Hrun)
    as (p & _ & Hfound & Hother & Hids & Hgov & _).
  split_and!; try done. eexists. split; [exact Hfound|]. by split_and!.
Qed.

Lemma update_frame_witness :
  exists e s' r e',
    EntityRepo.find Sample.actions "ga-bbbb" = Some e /\
    EntityRepo.update (Sample.env "") "ga-bbbb"
      (Sample.new_title_and_priority "Order asphalt and gravel" 1)
      Sample.actions = (s', inr r) /\
    EntityRepo.find s' "ga-aaaa" = EntityRepo.find Sample.actions "ga-aaaa" /\
    EntityRepo.find s' "ga-bbbb" = Some e' /\ type e' = type e.
Proof.
  destruct (update_frame (Sample.env "") "ga-bbbb"
              (Sample.new_title_and_priority "Order asphalt and gravel" 1)
              Sample.actions _ _ _ eq_refl eq_refl)
    as (_ & _ & Hother & e' & Hfound & _ & Htype & _).
  eexists _, _, _, e'.
  split_and!; [reflexivity|reflexivity|by apply Hother|exact Hfound|exact Htype].
Defined.

Section UpdateProperties.
Import EntityRepo EntitySpec.

(** X10. A status change through [update] is checked against the statuses
    of the entity's type and stored as given; a status of [update]'s
    terminal list stamps [closed_at] with the time of the call, and any
    other status clears a [closed_at] that was set. *)
Theorem update_status_closed_at env i updates s s' r e st :
  EntityRepo.find s i = Some e ->
  u_status updates = Some st ->
  EntityRepo.update env i updates s = (s', inr r) ->
  st ∈ EntityRepo.ENTITY_STATUSES (type e) /\
  exists e',
    EntityRepo.find s' i = Some e' /\ status e' = st /\
    (st ∈ EntityRepo.update_terminal_statuses ->
     closed_at e' = Some (env_now env)) /\
    (st ∉ EntityRepo.update_terminal_statuses ->
     closed_at e <> Some "" -> closed_at e' = None).
Proof.
  intros Hfind Hst Hrun.
  destruct (update_inv _ _ _ _ _ _ _ Hfind Hrun) as (p & Hp & Hfound & _).
  apply allowedUpdates_fields in Hp
    as (_ & Hstatus & Hvalid & _ & Hclosed & _).
  split; [by apply Hvalid|]. eexists. split; [exact Hfound|].
  simpl. rewrite Hstatus, Hclosed, Hst. simpl. split_and!; [done| |].
  - intros Hterm. by rewrite bool_decide_eq_true_2.
  - intros Hterm Hne. rewrite bool_decide_eq_false_2 by done.
    destruct (closed_at e) as [c|]; [|done]. unfold EntityRepo.truthy.
    case_bool_decide; [congruence|done].
Qed.

Lemma update_status_closed_at_witness :
  exists s1 r1 s2 r2 e1 e2,
    EntityRepo.update (Sample.env "") "ga-bbbb" (Sample.new_status "completed")
      Sample.actions = (s1, inr r1) /\
    EntityRepo.find s1 "ga-bbbb" = Some e1 /\
    closed_at e1 = Some "2026-01-17T10:00:00.000Z" /\
    EntityRepo.update (Sample.env "") "ga-bbbb" (Sample.new_status "open") s1
      = (s2, inr r2) /\
    EntityRepo.find s2 "ga-bbbb" = Some e2 /\ closed_at e2 = None.
Proof.
  destruct (EntityRepo.update (Sample.env "") "ga-bbbb"
              (Sample.new_status "completed") Sample.actions)
    as [s1 [err|r1]] eqn:Hrun1; [exfalso; by vm_compute in Hrun1|].
  destruct (EntityRepo.find Sample.actions "ga-bbbb") as [e|] eqn:He;
    [|exfalso; by vm_compute in He].
  destruct (update_status_closed_at _ _ (Sample.new_status "completed") _ _ _ _
              "completed" He eq_refl Hrun1)
    as (_ & e1 & Hfound1 & _ & Hterm1 & _).
  destruct (EntityRepo.update (Sample.env "") "ga-bbbb"
              (Sample.new_status "open") s1)
    as [s2 [err|r2]] eqn:Hrun2.
  { exfalso. pose proof (f_equal fst Hrun1) as Hs1. cbn [fst] in Hs1.
    rewrite <- Hs1 in Hrun2. by vm_compute in Hrun2. }
  destruct (update_status_closed_at _ _ (Sample.new_status "open") _ _ _ _
              "open" Hfound1 eq_refl Hrun2)
    as (_ & e2 & Hfound2 & _ & _ & Hopen2).
  exists s1, r1, s2, r2, e1, e2. split_and!; try done.
  - apply Hterm1. apply (bool_decide_unpack _). by vm_compute.
  - apply Hopen2.
    + intros Hin%(bool_decide_pack _). by vm_compute in Hin.
    + rewrite Hterm1; [done|]. apply (bool_decide_unpack _). by vm_compute.
Defined.

(** X11. The metadata of an update are merged into the stored ones key by
    key: a key of the update takes the update's value, every other key
    keeps its value; an update without metadata leaves them alone. *)
Theorem update_metadata_merge env i updates s s' r e :
  EntityRepo.find s i = Some e ->
  EntityRepo.update env i updates s = (s', inr r) ->
  exists e',
    EntityRepo.find s' i = Some e' /\
    match u_metadata updates with
    | Some m =>
        forall k, metadata e' !! k =
                  match m !! k with
                  | Some v => Some v
                  | None => metadata e !! k
                  end
    | None => metadata e' = metadata e
    end.
Proof.
  intros Hfind Hrun.
  destruct (update_inv _ _ _ _ _ _ _ Hfind Hrun) as (p & Hp & Hfound & _).
  apply allowedUpdates_fields in Hp as (_ & _ & _ & _ & _ & Hmeta & _).
  eexists. split; [exact Hfound|]. simpl. rewrite Hmeta.
  destruct (u_metadata updates) as [m|]; simpl; [|done].
  intros k. rewrite lookup_union.
  by destruct (m !! k), (metadata e !! k).
Qed.

Lemma update_metadata_merge_witness :
  exists s' r e',
    EntityRepo.update (Sample.env "") "ga-bbbb"
      (Sample.new_metadata {[ "ward" := "7" ]}) Sample.actions = (s', inr r) /\
    EntityRepo.find s' "ga-bbbb" = Some e' /\
    metadata e' !! "ward" = Some "7".
Proof.
  destruct (EntityRepo.update (Sample.env "") "ga-bbbb"
              (Sample.new_metadata {[ "ward" := "7" ]}) Sample.actions)
    as [s' [err|r]] eqn:Hrun; [exfalso; by vm_compute in Hrun|].
  destruct (EntityRepo.find Sample.actions "ga-bbbb") as [e|] eqn:He;
    [|exfalso; by vm_compute in He].
  destruct (update_metadata_merge _ _ _ _ _ _ _ He Hrun) as (e' & Hfound & Hk).
  exists s', r, e'. split_and!; [done|done|]. simpl in Hk. by rewrite Hk.
Defined.

(** X12. [update] ignores the type-specific fields of other types: only an
    action's assignee and due date, only an idea's supporters, support count
    and classification, and only a problem's location can change. *)
Theorem update_ignores_foreign_fields env i updates s s' r e :
  EntityRepo.find s i = Some e ->
  EntityRepo.update env i updates s = (s', inr r) ->
  exists e',
    EntityRepo.find s' i = Some e' /\
    (type e <> Action -> assignee e' = assignee e /\ due_date e' = due_date e) /\
    (type e <> Idea ->
     supporters e' = supporters e /\ support_count e' = support_count e /\
     ai_classification e' = ai_classification e) /\
    (type e <> Problem -> location e' = location e).
Proof.
  intros Hfind Hrun.
  destruct (update_inv _ _ _ _ _ _ _ Hfind Hrun) as (p & Hp & Hfound & _).
  apply allowedUpdates_fields in Hp
    as (_ & _ & _ & _ & _ & _ & Ha & Hd & Hc & Hs & Hai & Hloc & _).
  eexists. split; [exact Hfound|]. simpl.
  rewrite Ha, Hd, Hc, Hs, Hai. split_and!.
  - intros Hne. by rewrite !bool_decide_eq_false_2.
  - intros Hne. by rewrite !bool_decide_eq_false_2.
  - intros Hne. by rewrite Hloc.
Qed.

Lemma update_ignores_foreign_fields_witness :
  exists s' r e',
    EntityRepo.update (Sample.env "") "gd-dddd" (Sample.new_assignee "clerk")
      Sample.one_idea = (s', inr r) /\
    EntityRepo.find s' "gd-dddd" = Some e' /\ assignee e' = None.
Proof.
  destruct (EntityRepo.update (Sample.env "") "gd-dddd"
              (Sample.new_assignee "clerk") Sample.one_idea)
    as [s' [err|r]] eqn:Hrun; [exfalso; by vm_compute in Hrun|].
  destruct (EntityRepo.find Sample.one_idea "gd-dddd") as [e|] eqn:He;
    [|exfalso; by vm_compute in He].
  destruct (update_ignores_foreign_fields _ _ _ _ _ _ _ He Hrun)
    as (e' & Hfound & Hact & _).
  exists s', r, e'. split_and!; [done|done|].
  destruct Hact as [-> _].
  - intros Htype. vm_compute in He. injection He as <-. done.
  - vm_compute in He. by injection He as <-.
Defined.

(** X13. [update] keeps an entity well formed: a status among the statuses
    of its type and a priority among 0..4 stay so, relations that the call
    supplies are all valid edges of the store it leaves, and a government
    that the call assigns is the id of a stored government. *)
Theorem update_keeps_well_formed env i updates s s' r e :
  EntityRepo.find s i = Some e ->
  EntityRepo.update env i updates s = (s', inr r) ->
  exists e',
    EntityRepo.find s' i = Some e' /\
    (status e ∈ EntityRepo.ENTITY_STATUSES (type e) ->
     status e' ∈ EntityRepo.ENTITY_STATUSES (type e')) /\
    (priority e ∈ EntityRepo.PRIORITIES ->
     priority e' ∈ EntityRepo.PRIORITIES) /\
    (is_Some (u_relations updates) ->
     Forall (EntitySpec.valid_edge s' (type e')) (relations e')) /\
    (forall g, is_Some (u_gov_id updates) -> gov_id e' = Some g ->
               exists gv, gv ∈ governments s' /\ g_id gv = g).
Proof.
  intros Hfind Hrun.
  destruct (update_inv _ _ _ _ _ _ _ Hfind Hrun)
    as (p & Hp & Hfound & Hother & _ & Hgovs & _).
  pose proof (allowedUpdates_patch _ _ _ _ _ _ Hp)
    as (_ & _ & _ & _ & Hgsome & _).
  apply allowedUpdates_fields in Hp
    as (_ & Hstatus & Hvalid & Hprio & _ & _ & _ & _ & _ & _ & _ & _ & _ & _
        & Hrels & Hedges & Hgov).
  eexists. split; [exact Hfound|]. simpl. split_and!.
  - intros Hold. rewrite Hstatus.
    destruct (u_status updates) as [st|] eqn:Hst; simpl; [by apply Hvalid|done].
  - intros Hold. destruct (p_priority p) as [n|] eqn:Hn; simpl;
      [by apply Hprio|done].
  - intros [rels Hsome]. rewrite Hrels, Hsome. simpl.
    eapply Forall_impl; [by apply Hedges|].
    intros rel. apply (valid_edge_after s s' i); [by rewrite Hfound, Hfind|done].
  - intros g Hsupplied Hg. apply Hgsome in Hsupplied as [g' Hg'].
    rewrite Hg' in Hg. simpl in Hg. subst g'. rewrite Hgovs. by apply Hgov.
Qed.

Lemma update_keeps_well_formed_witness :
  exists s' r e',
    EntityRepo.update (Sample.env "") "ga-aaaa"
      (Sample.new_title_and_priority "Resurface Main Street by June" 0)
      Sample.actions = (s', inr r) /\
    EntityRepo.find s' "ga-aaaa" = Some e' /\
    priority e' ∈ EntityRepo.PRIORITIES.
Proof.
  destruct (EntityRepo.update (Sample.env "") "ga-aaaa"
              (Sample.new_title_and_priority "Resurface Main Street by June" 0)
              Sample.actions)
    as [s' [err|r]] eqn:Hrun; [exfalso; by vm_compute in Hrun|].
  destruct (EntityRepo.find Sample.actions "ga-aaaa") as [e|] eqn:He;
    [|exfalso; by vm_compute in He].
  destruct (update_keeps_well_formed _ _ _ _ _ _ _ He Hrun)
    as (e' & Hfound & _ & Hprio & _).
  exists s', r, e'. split_and!; [done|done|]. apply Hprio.
  vm_compute in He. injection He as <-. simpl. set_solver.
Defined.
End UpdateProperties.

(** ** Closing, support and removal *)

Section Close.
Import EntityRepo EntitySpec RelationEngine.
Local Open Scope store_scope.

Lemma close_status_valid t options :
  close_status t options ∈ ENTITY_STATUSES t.
Proof.
  destruct t, options as [[] [] ?]; apply (bool_decide_unpack _); by vm_compute.
Qed.

Lemma close_status_terminal t options :
  close_status t options ∈ terminalStatuses.
Proof.
  destruct t, options as [[] [] ?]; apply (bool_decide_unpack _); by vm_compute.
Qed.

Lemma close_status_stamped t options :
  close_status t options <> "accepted" ->
  close_status t options ∈ update_terminal_statuses.
Proof.
  destruct t, options as [[] [] ?]; intros Hne; try done;
    apply (bool_decide_unpack _); by vm_compute.
Qed.

(** An update of the status and the metadata alone passes every check as
    soon as the status is one of the type. *)
Lemma update_status_metadata env i s e st m :
  find s i = Some e ->
  st ∈ ENTITY_STATUSES (type e) ->
  exists s' r,
    update env i
      {| u_title := None; u_body := None; u_status := Some st;
         u_priority := None; u_gov_id := None; u_relations := None;
         u_location := None; u_assignee := None; u_due_date := None;
         u_support_count := None; u_supporters := None;
         u_ai_classification := None; u_metadata := m |} s = (s', inr (Some r)).
Proof.
  intros Hfind Hst. rewrite (update_found _ _ _ _ _ Hfind).
  unfold allowedUpdates, validateStatus, check, bind, ret. simpl.
  rewrite bool_decide_eq_true_2 by done. simpl.
  destruct (type e); simpl;
    match goal with
    | |- context [updateRecord env i ?p s] =>
        destruct (updateRecord_found env i p s e Hfind) as (s' & e0 & Hrun & _);
        rewrite Hrun; by eexists _, _
    end.
Qed.

Lemma close_found env i options s e :
  find s i = Some e ->
  close env i options s =
  update env i
    {| u_title := None; u_body := None;
       u_status := Some (close_status (type e) options);
       u_priority := None; u_gov_id := None; u_relations := None;
       u_location := None; u_assignee := None; u_due_date := None;
       u_support_count := None; u_supporters := None;
       u_ai_classification := None;
       u_metadata :=
         match nonempty (reason options) with
         | Some r => Some {[ "close_reason" := r ]}
         | None => None
         end |} s.
Proof. intros Hfind. unfold close, bind, gets. simpl. by rewrite Hfind. Qed.

Lemma find_id s i e : find s i = Some e -> id e = i.
Proof. intros Hfind. by apply findById_Some in Hfind as [_ Hid]. Qed.

(** What [close] stores, for the proofs about blockers. *)
Lemma close_stored env i options s s' r e :
  find s i = Some e ->
  close env i options s = (s', inr r) ->
  exists e',
    find s' i = Some e' /\ unresolved e' = false /\
    relations e' = relations e /\
    (forall j, j <> i -> find s' j = find s j).
Proof.
  intros Hfind. rewrite (close_found _ _ _ _ _ Hfind). intros Hrun.
  destruct (update_inv _ _ _ _ _ _ _ Hfind Hrun)
    as (p & Hp & Hfound & Hother & _).
  apply allowedUpdates_fields in Hp
    as (_ & Hstatus & _ & _ & _ & _ & _ & _ & _ & _ & _ & _ & _ & _ & Hrels & _).
  eexists. split; [exact Hfound|]. simpl in Hstatus, Hrels.
  split_and!; [|by simpl; rewrite Hrels|done].
  unfold unresolved. simpl. rewrite Hstatus. simpl.
  rewrite bool_decide_eq_true_2; [done|apply close_status_terminal].
Qed.

Lemma blockers_after_close s s' i e' (rels : list Relation) :
  find s' i = Some e' -> unresolved e' = false ->
  (forall j, j <> i -> find s' j = find s j) ->
  map (fun b => {| b_id := id b; b_title := title b; b_status := status b |})
      (List.filter unresolved
         (omap (fun rel => find s' (rel_target rel)) rels)) =
  List.filter (fun b => negb (bool_decide (b_id b = i)))
    (map (fun b => {| b_id := id b; b_title := title b; b_status := status b |})
       (List.filter unresolved
          (omap (fun rel => find s (rel_target rel)) rels))).
Proof.
  intros Hfound Hterm Hother.
  induction rels as [|rel rels IH]; simpl; [done|].
  destruct (decide (rel_target rel = i)) as [Heq|Hne].
  - rewrite Heq, Hfound. simpl. rewrite Hterm.
    destruct (find s i) as [d|] eqn:Hd; simpl; [|done].
    destruct (unresolved d); simpl; [|done].
    rewrite bool_decide_eq_true_2 by by apply find_id in Hd. done.
  - rewrite (Hother _ Hne).
    destruct (find s (rel_target rel)) as [d|] eqn:Hd; simpl; [|done].
    destruct (unresolved d); simpl; [|done].
    rewrite bool_decide_eq_false_2; [simpl; f_equal; exact IH|].
    apply find_id in Hd. congruence.
Qed.
End Close.

(** X14. [close] never fails on an entity that exists: it stores the
    closing status of the entity's type, which is one of the statuses
    [isBlocked] counts as terminal; unless that status is accepted,
    [closed_at] is the time of the call; a reason is recorded under the
    metadata key close_reason beside the metadata already there; no other
    entity changes. *)
Theorem close_sets_terminal_status env i options s e :
  EntityRepo.find s i = Some e ->
  exists s' r e',
    EntityRepo.close env i options s = (s', inr (Some r)) /\
    EntityRepo.find s' i = Some e' /\
    status e' = EntityRepo.close_status (type e) options /\
    status e' ∈ RelationEngine.terminalStatuses /\
    (status e' <> "accepted" -> closed_at e' = Some (env_now env)) /\
    metadata e' =
      match EntityRepo.nonempty (EntityRepo.reason options) with
      | Some why => <[ "close_reason" := why ]> (metadata e)
      | None => metadata e
      end /\
    (forall j, j <> i -> EntityRepo.find s' j = EntityRepo.find s j).
Proof.
  intros Hfind. rewrite (close_found _ _ _ _ _ Hfind).
  destruct (update_status_metadata env i s e
              (EntityRepo.close_status (type e) options)
              (match EntityRepo.nonempty (EntityRepo.reason options) with
               | Some r => Some {[ "close_reason" := r ]}
               | None => None
               end) Hfind (close_status_valid _ _)) as (s' & r & Hrun).
  rewrite Hrun.
  destruct (update_inv _ _ _ _ _ _ _ Hfind Hrun)
    as (p & Hp & Hfound & Hother & _).
  apply allowedUpdates_fields in Hp
    as (_ & Hstatus & _ & _ & Hclosed & Hmeta & _).
  eexists s', _, _. split; [done|]. split; [exact Hfound|].
  simpl. rewrite Hstatus, Hclosed, Hmeta. simpl.
  split_and!; [done|apply close_status_terminal| | |done].
  - intros Hne. by rewrite bool_decide_eq_true_2 by by apply close_status_stamped.
  - destruct (EntityRepo.nonempty _); simpl; [|done].
    by rewrite insert_union_singleton_l.
Qed.

Lemma close_sets_terminal_status_witness :
  exists s' r e',
    EntityRepo.close (Sample.env "") "ga-bbbb"
      (Sample.with_reason "delivered") Sample.actions = (s', inr (Some r)) /\
    EntityRepo.find s' "ga-bbbb" = Some e' /\
    status e' = "completed" /\
    metadata e' !! "close_reason" = Some "delivered".
Proof.
  destruct (EntityRepo.find Sample.actions "ga-bbbb") as [e|] eqn:He;
    [|exfalso; by vm_compute in He].
  destruct (close_sets_terminal_status (Sample.env "") "ga-bbbb"
              (Sample.with_reason "delivered") Sample.actions e He)
    as (s' & r & e' & Hrun & Hfound & Hstatus & _ & _ & Hmeta & _).
  exists s', r, e'. split_and!; [done|done| |].
  - rewrite Hstatus. vm_compute in He. by injection He as <-.
  - rewrite Hmeta. simpl. apply lookup_insert_eq.
Defined.

(** X15. Closing an entity removes it, and nothing else, from every list of
    blockers: after [close] of an existing entity, [isBlocked] reports for
    each entity the blockers it reported before without the closed one. *)
Theorem close_unblocks env i options s s' r e :
  EntityRepo.find s i = Some e ->
  EntityRepo.close env i options s = (s', inr r) ->
  forall j,
    RelationEngine.blockers (RelationEngine.isBlocked s' j) =
    List.filter (fun b => negb (bool_decide (RelationEngine.b_id b = i)))
                (RelationEngine.blockers (RelationEngine.isBlocked s j)).
Proof.
  intros Hfind Hrun j.
  destruct (close_stored _ _ _ _ _ _ _ Hfind Hrun)
    as (e' & Hfound & Hterm & Hrels & Hother).
  unfold RelationEngine.isBlocked, RelationEngine.findDependencies. simpl.
  destruct (decide (j = i)) as [->|Hne].
  - rewrite Hfound, Hfind, Hrels.
    by apply blockers_after_close with (e' := e').
  - rewrite (Hother _ Hne). destruct (EntityRepo.find s j) as [ej|]; [|done].
    by apply blockers_after_close with (e' := e').
Qed.

Lemma close_unblocks_witness :
  RelationEngine.blocked (RelationEngine.isBlocked Sample.actions "ga-aaaa")
    = true /\
  exists s' r,
    EntityRepo.close (Sample.env "") "ga-bbbb" Sample.keep_open Sample.actions
      = (s', inr r) /\
    RelationEngine.blockers (RelationEngine.isBlocked s' "ga-aaaa") = [].
Proof.
  split; [by vm_compute|].
  destruct (EntityRepo.close (Sample.env "") "ga-bbbb" Sample.keep_open
              Sample.actions) as [s' [err|r]] eqn:Hrun;
    [exfalso; by vm_compute in Hrun|].
  destruct (EntityRepo.find Sample.actions "ga-bbbb") as [e|] eqn:He;
    [|exfalso; by vm_compute in He].
  exists s', r. split; [done|].
  rewrite (close_unblocks _ _ _ _ _ _ _ He Hrun "ga-aaaa"). by vm_compute.
Defined.

(** ** Support, removal and unlinking *)

Section Support.
Import EntityRepo EntitySpec RelationEngine.
Local Open Scope store_scope.

Lemma addSupport_found env i supporterId s e :
  find s i = Some e ->
  addSupport env i supporterId s =
  if negb (bool_decide (type e = Idea)) then (s, inl (NotAnIdea i))
  else if bool_decide (supporterId ∈ default [] (supporters e))
  then (s, inl (AlreadySupported supporterId))
  else
    update env i
      {| u_title := None; u_body := None; u_status := None;
         u_priority := None; u_gov_id := None; u_relations := None;
         u_location := None; u_assignee := None; u_due_date := None;
         u_support_count := Some (Js.add (default 0%Z (support_count e)) 1);
         u_supporters := Some (default [] (supporters e) ++ [supporterId]);
         u_ai_classification := None; u_metadata := None |} s.
Proof.
  intros Hfind. unfold addSupport, bind, gets, check. simpl. rewrite Hfind.
  case_bool_decide; simpl; [|done]. by case_bool_decide.
Qed.

(** An update of the type-specific fields alone passes every check. *)
Lemma update_plain env i s e a d c sup ai m :
  find s i = Some e ->
  exists s' r,
    update env i
      {| u_title := None; u_body := None; u_status := None;
         u_priority := None; u_gov_id := None; u_relations := None;
         u_location := None; u_assignee := a; u_due_date := d;
         u_support_count := c; u_supporters := sup;
         u_ai_classification := ai; u_metadata := m |} s = (s', inr (Some r)).
Proof.
  intros Hfind. rewrite (update_found _ _ _ _ _ Hfind).
  unfold allowedUpdates, bind, ret. simpl.
  destruct (type e); simpl;
    match goal with
    | |- context [updateRecord env i ?p s] =>
        destruct (updateRecord_found env i p s e Hfind) as (s' & e0 & Hrun & _);
        rewrite Hrun; by eexists _, _
    end.
Qed.

Lemma filter_length_eq {A} (f : A -> bool) (l : list A) :
  length (List.filter f l) = length l <-> forall x, x ∈ l -> f x = true.
Proof.
  induction l as [|a l IH]; simpl.
  - split; [|done]. intros _ x Hx. by apply elem_of_nil in Hx.
  - pose proof (filter_length_le f l) as Hle.
    destruct (f a) eqn:Hfa; simpl.
    + split.
      * intros Hlen x [->|Hx]%elem_of_cons; [done|]. apply IH; [lia|done].
      * intros Hall. f_equal. apply IH. intros x Hx. apply Hall. by right.
    + split; [lia|]. intros Hall. specialize (Hall a). rewrite Hfa in Hall.
      discriminate Hall. by left.
Qed.

Lemma findById_filter_other records i j :
  j <> i ->
  Storage.findById
    (List.filter (fun r => negb (bool_decide (id r = i))) records) j =
  Storage.findById records j.
Proof.
  intros Hne. unfold Storage.findById.
  induction records as [|r records IH]; simpl; [done|].
  case_bool_decide as Hid; simpl.
  - rewrite bool_decide_eq_false_2 by congruence. done.
  - by rewrite IH.
Qed.

Lemma findById_filter_self records i :
  Storage.findById
    (List.filter (fun r => negb (bool_decide (id r = i))) records) i = None.
Proof.
  unfold Storage.findById.
  induction records as [|r records IH]; simpl; [done|].
  case_bool_decide as Hid; simpl; [done|].
  by rewrite bool_decide_eq_false_2.
Qed.

Lemma removeRelation_found env s sourceId relationType targetId e :
  find s sourceId = Some e ->
  removeRelation env sourceId relationType targetId s =
  let newRelations :=
    List.filter (fun r => negb (same_edge relationType targetId r))
                (relations e) in
  if length newRelations =? length (relations e)
  then (s, inl (RelationNotFound sourceId relationType targetId))
  else update env sourceId (only_relations newRelations) s.
Proof.
  intros Hfind. unfold removeRelation, bind, gets. simpl. rewrite Hfind.
  by destruct (_ =? _).
Qed.

Lemma same_edge_eq t b rel :
  same_edge t b rel = true <-> rel = {| rel_type := t; rel_target := b |}.
Proof.
  unfold same_edge. rewrite andb_true_iff, !bool_decide_eq_true.
  destruct rel as [t' b']. simpl. split; [by intros [-> ->]|by intros [= -> ->]].
Qed.

Lemma elem_of_without_edge t b rels rel :
  rel ∈ List.filter (fun r => negb (same_edge t b r)) rels <->
  rel ∈ rels /\ rel <> {| rel_type := t; rel_target := b |}.
Proof.
  rewrite list_elem_of_In, filter_In, <- list_elem_of_In.
  rewrite negb_true_iff, <- not_true_iff_false, same_edge_eq. done.
Qed.

Lemma without_edge_length t b rels :
  (length (List.filter (fun r => negb (same_edge t b r)) rels) =? length rels)
  = negb (bool_decide ({| rel_type := t; rel_target := b |} ∈ rels)).
Proof.
  case_bool_decide as Hin; simpl.
  - apply Nat.eqb_neq. rewrite filter_length_eq. intros Hall.
    specialize (Hall _ Hin). apply negb_true_iff in Hall.
    apply not_true_iff_false in Hall. apply Hall. by apply same_edge_eq.
  - apply Nat.eqb_eq, filter_length_eq. intros rel Hrel.
    apply negb_true_iff, not_true_iff_false. intros ->%same_edge_eq. done.
Qed.

Lemma without_edge_app t b rels :
  {| rel_type := t; rel_target := b |} ∉ rels ->
  List.filter (fun r => negb (same_edge t b r))
              (rels ++ [{| rel_type := t; rel_target := b |}]) = rels.
Proof.
  intros Hnew. rewrite List.filter_app. simpl.
  replace (same_edge t b _) with true by (symmetry; by apply same_edge_eq).
  simpl. rewrite app_nil_r.
  induction rels as [|rel rels IH]; simpl; [done|].
  apply not_elem_of_cons in Hnew as [Hne Hnew].
  destruct (same_edge t b rel) eqn:Hsame; simpl.
  - by apply same_edge_eq in Hsame.
  - by rewrite IH.
Qed.

Lemma link_inv env a t b s s' x :
  link env a t b s = (s', inr x) ->
  a <> b /\
  (is_dependency t = true -> wouldCreateCycle s a b t = false) /\
  addRelation env a t b s = (s', inr x).
Proof.
  destruct (decide (a = b)) as [->|Hne].
  { unfold link, check, bind. by rewrite bool_decide_eq_true_2. }
  rewrite (link_distinct _ _ _ _ _ Hne).
  destruct (is_dependency t) eqn:Hdep; simpl; [|done].
  by destruct (wouldCreateCycle s a b t).
Qed.

(** What a successful [addRelation] validated. *)
Lemma addRelation_validated env s s' a t b x e :
  find s a = Some e ->
  addRelation env a t b s = (s', inr x) ->
  Forall (valid_edge s (type e)) (relations e) /\
  ({| rel_type := t; rel_target := b |} ∉ relations e) /\
  exists e',
    find s' a = Some e' /\ type e' = type e /\
    relations e' = relations e ++ [{| rel_type := t; rel_target := b |}] /\
    (forall j, j <> a -> find s' j = find s j).
Proof.
  intros Hfind Hadd.
  rewrite (addRelation_found _ _ _ _ _ _ Hfind) in Hadd.
  destruct (validateRelation _ _ s) as [s1 [err|rel']] eqn:Hval; simpl in Hadd;
    [done|].
  apply validateRelation_inv in Hval as (Hvalid & -> & ->).
  destruct (existsb _ _) eqn:Hdup; [done|]. simpl in Hdup.
  destruct (update_inv _ _ _ _ _ _ _ Hfind Hadd)
    as (p & Hp & Hfound & Hother & _).
  apply allowedUpdates_fields in Hp
    as (_ & _ & _ & _ & _ & _ & _ & _ & _ & _ & _ & _ & _ & _ & Hrels & Hall & _).
  specialize (Hall _ eq_refl). apply Forall_app in Hall as [Hall _].
  split_and!; [done| |].
  - intros Hin%existsb_same_edge. congruence.
  - eexists. split; [exact Hfound|]. simpl. by rewrite Hrels.
Qed.
End Support.

(** The sum of two integer Numbers is exact as long as it stays within
    2^53. *)
Lemma add_exact (x y : Z) : (Z.abs (x + y) <= 2 ^ 53)%Z -> Js.add x y = (x + y)%Z.
Proof.
  intros Hsafe. unfold Js.add, Js.to_number.
  by destruct (Z.leb_spec (Z.abs (x + y)) (2 ^ 53)); [|lia].
Qed.

(** X16. A first expression of support for an idea succeeds: the supporter
    is appended to the supporters and no other entity changes; the same
    supporter is then turned away, and the store stays as it is.  The
    support count is the Number [count + 1]: as long as the count is below
    2^53 in absolute value it grows by one (so a count that equalled the
    number of supporters still does), and a count of 2^53 stays what it
    is. *)
Theorem addSupport_once env env' i supporterId s e :
  EntityRepo.find s i = Some e ->
  type e = Idea ->
  supporterId ∉ default [] (supporters e) ->
  exists s' r e',
    EntityRepo.addSupport env i supporterId s = (s', inr (Some r)) /\
    EntityRepo.find s' i = Some e' /\
    supporters e' = Some (default [] (supporters e) ++ [supporterId]) /\
    support_count e' = Some (Js.add (default 0%Z (support_count e)) 1) /\
    ((Z.abs (default 0%Z (support_count e)) < 2 ^ 53)%Z ->
     support_count e' = Some (default 0%Z (support_count e) + 1)%Z /\
     (default 0%Z (support_count e)
        = Z.of_nat (length (default [] (supporters e))) ->
      default 0%Z (support_count e')
        = Z.of_nat (length (default [] (supporters e'))))) /\
    (default 0%Z (support_count e) = (2 ^ 53)%Z ->
     support_count e' = Some (2 ^ 53)%Z) /\
    (forall j, j <> i -> EntityRepo.find s' j = EntityRepo.find s j) /\
    EntityRepo.addSupport env' i supporterId s'
      = (s', inl (AlreadySupported supporterId)).
Proof.
  intros Hfind Hidea Hnew.
  rewrite (addSupport_found _ _ _ _ _ Hfind).
  rewrite (bool_decide_eq_true_2 _ Hidea), (bool_decide_eq_false_2 _ Hnew).
  cbn [negb].
  destruct (update_plain env i s e None None
              (Some (Js.add (default 0%Z (support_count e)) 1))
              (Some (default [] (supporters e) ++ [supporterId])) None None
              Hfind) as (s' & r & Hrun).
  rewrite Hrun.
  destruct (update_inv _ _ _ _ _ _ _ Hfind Hrun)
    as (p & Hp & Hfound & Hother & _).
  apply allowedUpdates_fields in Hp
    as (_ & _ & _ & _ & _ & _ & _ & _ & Hcount & Hsup & _).
  simpl in Hcount, Hsup.
  rewrite (bool_decide_eq_true_2 _ Hidea) in Hcount, Hsup.
  eexists s', r, _. split; [done|]. split; [exact Hfound|].
  simpl. rewrite Hcount, Hsup.
  split_and!; [done|done| | |done|].
  - intros Hsafe. rewrite add_exact by lia. split; [done|].
    simpl. intros ->. rewrite length_app. simpl. lia.
  - intros ->. by vm_compute.
  - rewrite (addSupport_found _ _ _ _ _ Hfound). simpl.
    rewrite (bool_decide_eq_true_2 _ Hidea), Hsup. simpl.
    rewrite bool_decide_eq_true_2; [done|].
    apply elem_of_app. right. by apply list_elem_of_singleton.
Qed.

Lemma addSupport_once_witness :
  exists s' r e',
    EntityRepo.addSupport (Sample.env "") "gd-dddd" "resident-17"
      Sample.one_idea = (s', inr (Some r)) /\
    EntityRepo.find s' "gd-dddd" = Some e' /\
    supporters e' = Some ["resident-17"] /\
    support_count e' = Some 1%Z /\
    EntityRepo.addSupport (Sample.env "") "gd-dddd" "resident-17" s'
      = (s', inl (AlreadySupported "resident-17")).
Proof.
  destruct (EntityRepo.find Sample.one_idea "gd-dddd") as [e|] eqn:He;
    [|exfalso; by vm_compute in He].
  assert (type e = Idea /\ supporters e = Some [] /\ support_count e = Some 0%Z)
    as (Hidea & Hsup & Hcount).
  { vm_compute in He. by injection He as <-. }
  destruct (addSupport_once (Sample.env "") (Sample.env "") "gd-dddd"
              "resident-17" Sample.one_idea e He Hidea)
    as (s' & r & e' & Hrun & Hfound & Hsupp & _ & Hsafe & _ & _ & Hagain).
  { rewrite Hsup. simpl. apply not_elem_of_nil. }
  exists s', r, e'. split_and!; [done|done| | |done].
  - by rewrite Hsupp, Hsup.
  - destruct Hsafe as [-> _]; rewrite Hcount; [by vm_compute|done].
Defined.

(** X17. [remove] never fails; it answers whether the id was stored, leaves
    no record with that id and every other id as it was: the entities that
    point to the removed one keep their edges to it. *)
Theorem remove_result i s :
  exists s',
    EntityRepo.remove i s
      = (s', inr (bool_decide (is_Some (EntityRepo.find s i)))) /\
    EntityRepo.find s' i = None /\
    (forall j, j <> i -> EntityRepo.find s' j = EntityRepo.find s j) /\
    governments s' = governments s /\
    (EntityRepo.find s i = None -> s' = s).
Proof.
  unfold EntityRepo.remove, Storage.deleteRecord, EntityRepo.find.
  destruct (Nat.eqb_spec
              (length (List.filter (fun r => negb (bool_decide (id r = i)))
                                   (entities s)))
              (length (entities s))) as [Heq|Hne].
  - assert (Storage.findById (entities s) i = None) as Hnone.
    { destruct (Storage.findById (entities s) i) as [e|] eqn:He; [|done].
      apply findById_Some in He as [Hin Hid].
      pose proof (proj1 (filter_length_eq _ _) Heq e Hin) as Hkeep.
      simpl in Hkeep. by rewrite bool_decide_eq_true_2 in Hkeep. }
    exists s. rewrite Hnone. rewrite bool_decide_eq_false_2 by by intros [? [=]].
    done.
  - assert (is_Some (Storage.findById (entities s) i)) as Hsome.
    { destruct (Storage.findById (entities s) i) as [e|] eqn:He; [by eexists|].
      exfalso. apply Hne, filter_length_eq. intros x Hx.
      apply list_elem_of_In in Hx.
      pose proof (find_none _ _ He x Hx) as Hid. simpl in Hid.
      by rewrite Hid. }
    eexists. rewrite bool_decide_eq_true_2 by done. split; [done|]. simpl.
    split_and!; [apply findById_filter_self| |done|].
    + intros j Hj. by apply findById_filter_other.
    + intros Hnone. rewrite Hnone in Hsome. by destruct Hsome.
Qed.

(** X18. [unlink] takes away the edge it names and no other: it fails with
    a not-found error, leaving the store alone, when the source does not
    carry the edge; when it succeeds, the source carried it and carries
    afterwards its former relations, in order, without that edge. *)
Theorem unlink_removes_edge env sourceId relationType targetId s e :
  EntityRepo.find s sourceId = Some e ->
  let relation := {| rel_type := relationType; rel_target := targetId |} in
  (relation ∉ relations e ->
   RelationEngine.unlink env sourceId relationType targetId s
     = (s, inl (RelationNotFound sourceId relationType targetId))) /\
  (forall s' r,
      RelationEngine.unlink env sourceId relationType targetId s
        = (s', inr r) ->
      relation ∈ relations e /\
      exists e',
        EntityRepo.find s' sourceId = Some e' /\
        relations e' = List.filter (fun rel => negb (bool_decide (rel = relation)))
                                   (relations e) /\
        (relation ∉ relations e') /\
        (forall j, j <> sourceId ->
                   EntityRepo.find s' j = EntityRepo.find s j)).
Proof.
  intros Hfind relation. unfold RelationEngine.unlink.
  rewrite (removeRelation_found _ _ _ _ _ _ Hfind). cbn zeta.
  rewrite without_edge_length. split.
  - intros Hout. by rewrite bool_decide_eq_false_2.
  - intros s' r. case_bool_decide as Hin; simpl; [|done]. intros Hrun.
    split; [done|].
    destruct (update_inv _ _ _ _ _ _ _ Hfind Hrun)
      as (p & Hp & Hfound & Hother & _).
    apply allowedUpdates_fields in Hp
      as (_ & _ & _ & _ & _ & _ & _ & _ & _ & _ & _ & _ & _ & _ & Hrels & _).
    eexists. split; [exact Hfound|]. simpl. rewrite Hrels. simpl.
    assert (List.filter (fun r0 => negb (EntityRepo.same_edge relationType targetId r0))
                        (relations e) =
            List.filter (fun rel => negb (bool_decide (rel = relation)))
                        (relations e)) as Hsame.
    { apply filter_ext. intros rel. f_equal.
      apply eq_true_iff_eq. rewrite same_edge_eq, bool_decide_eq_true. done. }
    split_and!; [exact Hsame| |done].
    intros [_ Habs]%elem_of_without_edge. done.
Qed.

Lemma unlink_removes_edge_witness :
  exists e s' r e',
    EntityRepo.find Sample.actions "ga-aaaa" = Some e /\
    RelationEngine.unlink (Sample.env "") "ga-aaaa" "depends_on" "ga-bbbb"
      Sample.actions = (s', inr r) /\
    EntityRepo.find s' "ga-aaaa" = Some e' /\
    ({| rel_type := "depends_on"; rel_target := "ga-bbbb" |} ∉ relations e').
Proof.
  destruct (EntityRepo.find Sample.actions "ga-aaaa") as [e|] eqn:He;
    [|exfalso; by vm_compute in He].
  destruct (RelationEngine.unlink (Sample.env "") "ga-aaaa" "depends_on"
              "ga-bbbb" Sample.actions) as [s' [err|r]] eqn:Hrun;
    [exfalso; by vm_compute in Hrun|].
  destruct (unlink_removes_edge (Sample.env "") "ga-aaaa" "depends_on"
              "ga-bbbb" Sample.actions e He) as [_ Hok].
  destruct (Hok s' r Hrun) as (_ & e' & Hfound & _ & Hout & _).
  by exists e, s', r, e'.
Defined.

(** X19. [unlink] undoes [link]: after a successful [link], unlinking the
    same edge succeeds and gives the source back the relations it had, with
    every other entity as before the two calls. *)
Theorem link_then_unlink env env' sourceId relationType targetId s s1 r1 e :
  EntityRepo.find s sourceId = Some e ->
  RelationEngine.link env sourceId relationType targetId s = (s1, inr r1) ->
  exists s2 r2 e2,
    RelationEngine.unlink env' sourceId relationType targetId s1
      = (s2, inr (Some r2)) /\
    EntityRepo.find s2 sourceId = Some e2 /\
    relations e2 = relations e /\
    (forall j, j <> sourceId -> EntityRepo.find s2 j = EntityRepo.find s j).
Proof.
  intros Hfind Hlink. apply link_inv in Hlink as (_ & _ & Hadd).
  destruct (addRelation_validated _ _ _ _ _ _ _ _ Hfind Hadd)
    as (Hvalid & Hnew & e1 & Hfound1 & Htype1 & Hrels1 & Hother1).
  unfold RelationEngine.unlink.
  rewrite (removeRelation_found _ _ _ _ _ _ Hfound1). cbn zeta.
  rewrite without_edge_length, Hrels1.
  rewrite bool_decide_eq_true_2
    by (apply elem_of_app; right; by apply list_elem_of_singleton).
  cbn [negb]. rewrite (without_edge_app _ _ _ Hnew).
  destruct (update_relations env' sourceId s1 e1 (relations e) Hfound1)
    as (s2 & e2 & Hrun & _ & Hrels2 & _ & Hother2).
  { rewrite Htype1. eapply Forall_impl; [exact Hvalid|].
    intros rel. apply (valid_edge_after s s1 sourceId); [|done].
    rewrite Hfound1, Hfind. simpl. by f_equal. }
  rewrite Hrun.
  destruct (EntityRepo.find s2 sourceId) as [e2'|] eqn:Hfound2; [|done].
  exists s2, e2, e2'. split_and!; [done|done|by injection Hrels2|].
  intros j Hj. by rewrite Hother2, Hother1.
Qed.

Lemma link_then_unlink_witness :
  exists e s1 r1 s2 r2 e2,
    EntityRepo.find Sample.actions "ga-cccc" = Some e /\
    RelationEngine.link (Sample.env "") "ga-cccc" "depends_on" "ga-aaaa"
      Sample.actions = (s1, inr r1) /\
    RelationEngine.unlink (Sample.env "") "ga-cccc" "depends_on" "ga-aaaa" s1
      = (s2, inr (Some r2)) /\
    EntityRepo.find s2 "ga-cccc" = Some e2 /\
    relations e2 = relations e.
Proof.
  destruct (EntityRepo.find Sample.actions "ga-cccc") as [e|] eqn:He;
    [|exfalso; by vm_compute in He].
  destruct (RelationEngine.link (Sample.env "") "ga-cccc" "depends_on"
              "ga-aaaa" Sample.actions) as [s1 [err|r1]] eqn:Hrun;
    [exfalso; by vm_compute in Hrun|].
  destruct (link_then_unlink (Sample.env "") (Sample.env "") "ga-cccc"
              "depends_on" "ga-aaaa" Sample.actions s1 r1 e He Hrun)
    as (s2 & r2 & e2 & Hun & Hfound & Hrels & _).
  by exists e, s1, r1, s2, r2, e2.
Defined.

(** ** Links and cycles *)

Section Acyclic.
Import EntityRepo EntitySpec RelationEngine RelationSpec.

Lemma tc_one_more {A} (R R' : relation A) (a b : A) :
  (forall x y, R' x y -> R x y \/ (x = a /\ y = b)) ->
  forall x y, tc R' x y -> tc R x y \/ (rtc R x a /\ rtc R b y).
Proof.
  intros Hstep x y Hpath.
  induction Hpath as [x y Hxy|x y z Hxy _ IH].
  - destruct (Hstep _ _ Hxy) as [HR|[-> ->]]; [left; by apply tc_once|].
    right. split; apply rtc_refl.
  - destruct (Hstep _ _ Hxy) as [HR|[-> ->]].
    + destruct IH as [Hyz|[Hya Hbz]]; [left; by eapply tc_l|].
      right. split; [by eapply rtc_l|done].
    + right. split; [apply rtc_refl|].
      destruct IH as [Hyz|[_ Hbz]]; [by apply tc_rtc|done].
Qed.

(** The dependency-forming edges after a successful [addRelation]. *)
Lemma edge_after_addRelation env s s' a t b x :
  addRelation env a t b s = (s', inr x) ->
  forall v w,
    edge s' v w ->
    edge s v w \/ (v = a /\ w = b /\ is_dependency t = true).
Proof.
  intros Hadd v w (ev & rel & Hv & Hrel & Hdep & Htarget).
  destruct (addRelation_inv _ _ _ _ _ _ _ Hadd) as (e & Hfind & _).
  destruct (addRelation_validated _ _ _ _ _ _ _ _ Hfind Hadd)
    as (_ & _ & e' & Hfound & _ & Hrels & Hother).
  destruct (decide (v = a)) as [->|Hne].
  - rewrite Hfound in Hv. injection Hv as <-. rewrite Hrels in Hrel.
    apply elem_of_app in Hrel as [Hold|Hnew%list_elem_of_singleton].
    + left. by exists e, rel.
    + right. subst rel. simpl in *. split_and!; [done|done|].
      by apply bool_decide_eq_true.
  - left. exists ev, rel. by rewrite <- (Hother _ Hne).
Qed.

Lemma actions_edge x y :
  edge Sample.actions x y -> x = "ga-aaaa" /\ y = "ga-bbbb".
Proof.
  intros (e & rel & Hfind & Hrel & _ & <-).
  apply findById_Some in Hfind as [Hin <-].
  remember (entities Sample.actions) as l eqn:Hl. vm_compute in Hl. subst l.
  repeat (apply elem_of_cons in Hin as [->|Hin]);
    try (by apply elem_of_nil in Hin); simpl in Hrel;
    repeat (apply elem_of_cons in Hrel as [->|Hrel]);
    try (by apply elem_of_nil in Hrel).
  done.
Qed.

Lemma actions_acyclic : acyclic Sample.actions.
Proof.
  intros x Hcycle. inversion Hcycle as [? ? Hxx|? y ? Hxy Hyx]; subst.
  - apply actions_edge in Hxx as [-> [=]].
  - apply actions_edge in Hxy as [-> ->].
    inversion Hyx as [? ? Hba|? z ? Hbz _]; subst.
    + by apply actions_edge in Hba as [[=] _].
    + by apply actions_edge in Hbz as [[=] _].
Qed.
End Acyclic.

(** X20. [link] keeps the dependency graph free of cycles: when the edges of
    type depends_on, requires and blocks form no cycle, they form none after
    a successful [link], whatever the type of the new edge. *)
Theorem link_keeps_acyclic env sourceId relationType targetId s s' r :
  RelationSpec.acyclic s ->
  RelationEngine.link env sourceId relationType targetId s = (s', inr r) ->
  RelationSpec.acyclic s'.
Proof.
  intros Hacyclic Hlink x Hcycle.
  apply link_inv in Hlink as (_ & Hsearch & Hadd).
  pose proof (edge_after_addRelation _ _ _ _ _ _ _ Hadd) as Hedge.
  destruct (RelationEngine.is_dependency relationType) eqn:Hdep.
  - destruct (tc_one_more (RelationSpec.edge s) (RelationSpec.edge s')
                sourceId targetId) with (x := x) (y := x)
      as [Hold|[Hxa Hbx]]; [|done|by apply (Hacyclic x)|].
    { intros v w Hvw. destruct (Hedge _ _ Hvw) as [?|(-> & -> & _)]; auto. }
    assert (RelationSpec.reachable s targetId sourceId) as Hreach
      by by etrans.
    apply (wouldCreateCycle_reachable s sourceId targetId relationType Hdep)
      in Hreach.
    rewrite Hsearch in Hreach; done.
  - apply (Hacyclic x).
    apply (tc_congruence (fun v => v) (RelationSpec.edge s)) in Hcycle;
      [done|].
    intros v w Hvw. destruct (Hedge _ _ Hvw) as [?|(_ & _ & Habs)]; [done|].
    congruence.
Qed.

Lemma link_keeps_acyclic_witness :
  exists s' r,
    RelationEngine.link (Sample.env "") "ga-bbbb" "depends_on" "ga-cccc"
      Sample.actions = (s', inr r) /\
    RelationSpec.acyclic s'.
Proof.
  destruct (RelationEngine.link (Sample.env "") "ga-bbbb" "depends_on"
              "ga-cccc" Sample.actions) as [s' [err|r]] eqn:Hrun;
    [exfalso; by vm_compute in Hrun|].
  exists s', r. split; [done|].
  exact (link_keeps_acyclic _ _ _ _ _ _ _ actions_acyclic Hrun).
Defined.

(** ** Transitive dependencies *)

Section Collect.
Import EntityRepo RelationEngine RelationSpec.
Variable s : Store.

Lemma collect_terminates (fuel : nat) (visited : gset string)
    (queue : list string) :
  length queue + pending visited (entities s) < fuel ->
  is_Some (collect fuel s visited queue).
Proof.
  revert visited queue. induction fuel as [|fuel IH]; intros visited queue Hfuel;
    [lia|].
  simpl. destruct queue as [|currentId queue]; [done|]. simpl in Hfuel.
  case_bool_decide as Hvis.
  { apply IH. lia. }
  destruct (find s currentId) as [current|] eqn:Hfind.
  - apply fmap_is_Some, IH. rewrite length_app.
    pose proof (followed_length ({[currentId]} ∪ visited) (relations current)).
    pose proof (pending_visit visited (entities s) currentId current Hfind Hvis).
    lia.
  - apply IH.
    assert (visited ⊆ {[currentId]} ∪ visited) as Hsub by set_solver.
    pose proof (pending_mono visited ({[currentId]} ∪ visited) (entities s) Hsub).
    lia.
Qed.

(** Every record collected is the one found under its id, was not visited
    before and is reachable from the queue; no id is collected twice. *)
Lemma collect_sound (fuel : nat) (visited : gset string) (queue : list string)
    (result : list Entity) :
  collect fuel s visited queue = Some result ->
  (forall d, d ∈ result ->
             find s (id d) = Some d /\ (id d ∉ visited) /\
             exists q, q ∈ queue /\ reachable s q (id d)) /\
  NoDup (id <$> result).
Proof.
  revert visited queue result.
  induction fuel as [|fuel IH]; intros visited queue result; [done|].
  simpl. destruct queue as [|currentId queue].
  { intros [= <-]. split; [|constructor]. intros d Hd.
    by apply elem_of_nil in Hd. }
  case_bool_decide as Hvis.
  { intros [Hall Hnodup]%IH. split; [|done]. intros d Hd.
    destruct (Hall d Hd) as (Hfind & Hnew & q & Hq & Hreach).
    split_and!; [done|done|]. exists q. split; [by right|done]. }
  destruct (find s currentId) as [current|] eqn:Hfind.
  - destruct (collect fuel s _ _) as [rest|] eqn:Hrest; [|done].
    intros [= <-]. apply IH in Hrest as [Hall Hnodup].
    pose proof (find_id _ _ _ Hfind) as Hid.
    split.
    + intros d [->|Hd]%elem_of_cons.
      * rewrite Hid. split_and!; [done|done|].
        exists currentId. split; [left|apply rtc_refl].
      * destruct (Hall d Hd) as (Hd' & Hnew & q & Hq & Hreach).
        split_and!; [done|set_solver|].
        apply elem_of_app in Hq as [Hq|Hq].
        -- exists q. split; [by right|done].
        -- apply elem_of_followed in Hq as [_ Hedge].
           exists currentId. split; [left|].
           eapply rtc_l; [|exact Hreach]. by eapply edge_found.
    + simpl. constructor; [|done]. rewrite Hid.
      intros (d & Hd & Hin)%list_elem_of_fmap.
      destruct (Hall d Hin) as (_ & Hnew & _). set_solver.
  - intros [Hall Hnodup]%IH. split; [|done]. intros d Hd.
    destruct (Hall d Hd) as (Hfind' & Hnew & q & Hq & Hreach).
    split_and!; [done|set_solver|]. exists q. split; [by right|done].
Qed.

(** The nodes visited form a set that is closed under the edges, and every
    record found under a node visited by this run is collected. *)
Lemma collect_complete (fuel : nat) (visited : gset string)
    (queue : list string) (result : list Entity) :
  collect fuel s visited queue = Some result ->
  frontier_closed s visited queue ->
  exists V : gset string,
    visited ⊆ V /\ (forall q, q ∈ queue -> q ∈ V) /\
    (forall v w, v ∈ V -> edge s v w -> w ∈ V) /\
    (forall v d, v ∈ V -> v ∉ visited -> find s v = Some d -> d ∈ result).
Proof.
  revert visited queue result.
  induction fuel as [|fuel IH]; intros visited queue result; [done|].
  simpl. destruct queue as [|currentId queue].
  { intros [= <-] Hclosed. exists visited. split_and!; [done| | |done].
    - intros q Hq. by apply elem_of_nil in Hq.
    - intros v w Hv Hedge. destruct (Hclosed v w Hv Hedge) as [?|Hq]; [done|].
      by apply elem_of_nil in Hq. }
  case_bool_decide as Hvis.
  { intros Hrun Hclosed.
    destruct (IH visited queue result Hrun) as (V & HV & Hq & HVc & Hres).
    - intros v w Hv Hedge. destruct (Hclosed v w Hv Hedge) as [?|Hw]; [by left|].
      apply elem_of_cons in Hw as [->|Hw]; [by left|by right].
    - exists V. split_and!; [done| |done|done].
      intros q [->|Hin]%elem_of_cons; [by apply HV|by apply Hq]. }
  destruct (find s currentId) as [current|] eqn:Hfind.
  - destruct (collect fuel s _ _) as [rest|] eqn:Hrest; [|done].
    intros [= <-] Hclosed.
    destruct (IH _ _ _ Hrest) as (V & HV & Hq & HVc & Hres).
    + intros v w Hv Hedge.
      apply elem_of_union in Hv as [->%elem_of_singleton|Hv].
      * destruct (decide (w ∈ ({[currentId]} ∪ visited : gset string)))
          as [?|Hnew]; [by left|].
        right. apply elem_of_app. right. apply elem_of_followed.
        split; [done|]. by eapply edge_found.
      * destruct (Hclosed v w Hv Hedge) as [?|Hw]; [left; set_solver|].
        apply elem_of_cons in Hw as [->|Hw]; [left; set_solver|].
        right. apply elem_of_app. by left.
    + exists V. split_and!; [set_solver| |done|].
      * intros q [->|Hin]%elem_of_cons; [set_solver|].
        apply Hq, elem_of_app. by left.
      * intros v d Hv Hnew Hd. destruct (decide (v = currentId)) as [->|Hne].
        -- rewrite Hfind in Hd. injection Hd as <-. left.
        -- right. apply (Hres v); [done|set_solver|done].
  - intros Hrun Hclosed.
    destruct (IH _ _ _ Hrun) as (V & HV & Hq & HVc & Hres).
    + intros v w Hv Hedge.
      apply elem_of_union in Hv as [->%elem_of_singleton|Hv].
      * by apply edge_missing in Hedge.
      * destruct (Hclosed v w Hv Hedge) as [?|Hw]; [left; set_solver|].
        apply elem_of_cons in Hw as [->|Hw]; [left; set_solver|by right].
    + exists V. split_and!; [set_solver| |done|].
      * intros q [->|Hin]%elem_of_cons; [set_solver|by apply Hq].
      * intros v d Hv Hnew Hd. destruct (decide (v = currentId)) as [->|Hne].
        -- congruence.
        -- apply (Hres v); [done|set_solver|done].
Qed.

(** The loop of [getTransitiveDependencies] ends within its fuel, and
    collects the records found under the ids reachable from the start. *)
Lemma getTransitiveDependencies_run (root : string) :
  exists result,
    collect (search_fuel s) s ∅ [root] = Some result /\
    getTransitiveDependencies s root = result /\
    NoDup (id <$> result) /\
    forall d, d ∈ result <->
              reachable s root (id d) /\ find s (id d) = Some d.
Proof.
  destruct (collect_terminates (search_fuel s) ∅ [root]) as [result Hrun].
  { unfold search_fuel. rewrite pending_empty. simpl. lia. }
  exists result. unfold getTransitiveDependencies. rewrite Hrun.
  split_and!; [done|done|by apply collect_sound in Hrun as [_ ?]|].
  intros d. split.
  - intros Hd. apply collect_sound in Hrun as [Hall _].
    destruct (Hall d Hd) as (Hfind & _ & q & ->%list_elem_of_singleton & Hreach).
    done.
  - intros [Hreach Hfind].
    apply collect_complete in Hrun as (V & _ & Hq & HVc & Hres).
    + apply (Hres (id d)); [|set_solver|done].
      eapply closed_reachable; [exact HVc|exact Hreach|]. apply Hq. left.
    + intros v w Hv. set_solver.
Qed.
End Collect.

(** X21. [getTransitiveDependencies] returns, without repeating an id, the
    records found under the ids that can be reached from the start along
    edges of type depends_on, requires or blocks, the start included; the
    loop always ends. *)
Theorem getTransitiveDependencies_reachable s entityId :
  NoDup (id <$> RelationEngine.getTransitiveDependencies s entityId) /\
  (forall d,
      d ∈ RelationEngine.getTransitiveDependencies s entityId <->
      RelationSpec.reachable s entityId (id d) /\
      EntityRepo.find s (id d) = Some d) /\
  is_Some (RelationEngine.collect (RelationEngine.search_fuel s) s ∅ [entityId]).
Proof.
  destruct (getTransitiveDependencies_run s entityId)
    as (result & Hrun & -> & Hnodup & Hall).
  by rewrite Hrun.
Qed.

(** ** Listing *)

Section SortKeys.
Import EntityQuery.







End SortKeys.

Section InsertionSort.
Import EntityQuery.
Context {A : Type} (cmp : A -> A -> Z).
Hypothesis cmp_total : forall a b, (cmp a b <= 0)%Z \/ (cmp b a <= 0)%Z.
Hypothesis cmp_trans :
  forall a b c, (cmp a b <= 0)%Z -> (cmp b c <= 0)%Z -> (cmp a c <= 0)%Z.




End InsertionSort.

Section Listing.
Import EntityQuery.






End Listing.



(** X23. The graph of [getGraphData] has one node for each entity that
    [list] returns, and an edge for each relation of a listed entity whose
    target is listed as well; so both ends of every edge are nodes. *)
Theorem getGraphData_edges_within s filters :
  let g := EntityQuery.getGraphData s filters in
  let ids := id <$> EntityQuery.list s filters in
  (EntityQuery.n_id <$> EntityQuery.nodes g) = ids /\
  (forall ed,
      ed ∈ EntityQuery.edges g <->
      exists e rel,
        e ∈ EntityQuery.list s filters /\ rel ∈ relations e /\
        rel_target rel ∈ ids /\
        ed = {| EntityQuery.e_source := id e;
                EntityQuery.e_target := rel_target rel;
                EntityQuery.e_type := rel_type rel |}) /\
  (forall ed,
      ed ∈ EntityQuery.edges g ->
      EntityQuery.e_source ed ∈ ids /\ EntityQuery.e_target ed ∈ ids).
Proof.
  intros g ids. subst g ids. unfold EntityQuery.getGraphData. simpl.
  assert (map EntityQuery.n_id
            (map (fun e => {| EntityQuery.n_id := id e;
                              EntityQuery.n_type := type e;
                              EntityQuery.n_title := title e;
                              EntityQuery.n_status := status e;
                              EntityQuery.n_priority := priority e;
                              EntityQuery.n_gov_id := gov_id e |})
                 (EntityQuery.list s filters))
          = id <$> EntityQuery.list s filters) as Hids.
  { rewrite map_map. done. }
  rewrite Hids.
  assert (forall ed,
      ed ∈ flat_map (EntityQuery.edges_within
                       (Js.new_Set (id <$> EntityQuery.list s filters)))
                    (EntityQuery.list s filters) <->
      exists e rel,
        e ∈ EntityQuery.list s filters /\ rel ∈ relations e /\
        rel_target rel ∈ (id <$> EntityQuery.list s filters) /\
        ed = {| EntityQuery.e_source := id e;
                EntityQuery.e_target := rel_target rel;
                EntityQuery.e_type := rel_type rel |}) as Hedges.
  { intros ed. rewrite list_elem_of_In, in_flat_map. split.
    - intros (e & He & Hed). unfold EntityQuery.edges_within in Hed.
      apply in_map_iff in Hed as (rel & <- & Hrel).
      apply filter_In in Hrel as [Hrel Hhas].
      apply bool_decide_eq_true_1 in Hhas.
      apply (proj1 (new_Set_elem _ _)) in Hhas.
      exists e, rel.
      split_and!; [by apply list_elem_of_In|by apply list_elem_of_In|done|done].
    - intros (e & rel & He & Hrel & Hin & ->). exists e.
      split; [by apply list_elem_of_In|]. unfold EntityQuery.edges_within.
      apply in_map_iff. exists rel. split; [done|]. apply filter_In.
      split; [by apply list_elem_of_In|].
      by apply bool_decide_eq_true_2, new_Set_elem. }
  split_and!; [done|exact Hedges|].
  intros ed (e & rel & He & _ & Hin & ->)%Hedges. simpl. split; [|done].
  apply list_elem_of_fmap. by exists e.
Qed.

(** ** The dependency graph and the relations of an entity *)

Section DependencyGraph.
Import EntityRepo RelationEngine RelationSpec.

Lemma nonempty_root (root : string) :
  root <> "" -> nonempty (Some root) = Some root.
Proof.
  intros Hne. unfold nonempty, truthy. by rewrite bool_decide_eq_false_2.
Qed.

Lemma elem_of_findByRelation records targetId relationType e :
  e ∈ Storage.findByRelation records targetId relationType <->
  e ∈ records /\
  exists rel, rel ∈ relations e /\ rel_target rel = targetId /\
              match relationType with
              | Some t => t = "" \/ rel_type rel = t
              | None => True
              end.
Proof.
  unfold Storage.findByRelation.
  rewrite list_elem_of_In, filter_In, <- list_elem_of_In, existsb_exists.
  split.
  - intros (He & rel & Hrel%list_elem_of_In & Hmatch). split; [done|].
    exists rel. apply andb_true_iff in Hmatch as [Htarget%bool_decide_eq_true Hty].
    split_and!; [done|done|]. destruct relationType as [t|]; [|done].
    apply orb_true_iff in Hty as [?%bool_decide_eq_true|?%bool_decide_eq_true];
      auto.
  - intros (He & rel & Hrel & Htarget & Hty). split; [done|]. exists rel.
    split; [by apply list_elem_of_In|]. apply andb_true_iff.
    split; [by apply bool_decide_eq_true|].
    destruct relationType as [t|]; [|done]. apply orb_true_iff.
    destruct Hty; [left|right]; by apply bool_decide_eq_true.
Qed.
End DependencyGraph.

(** X24. The dependency graph of a root has a node, made of the id, type,
    title and status, for each record found under an id reachable from the
    root, and an edge for each edge of type
    depends_on, requires or blocks that leaves such a record and leads to
    an id under which a record is stored. *)
Theorem getDependencyGraph_rooted s root :
  root <> "" ->
  let g := RelationEngine.getDependencyGraph s (Some root) in
  (forall n,
      n ∈ RelationEngine.dg_nodes g <->
      exists d,
        RelationSpec.reachable s root (id d) /\
        EntityRepo.find s (id d) = Some d /\
        n = {| RelationEngine.dn_id := id d;
               RelationEngine.dn_type := type d;
               RelationEngine.dn_title := title d;
               RelationEngine.dn_status := status d |}) /\
  (forall ed,
      ed ∈ RelationEngine.dg_edges g <->
      exists d rel,
        RelationSpec.reachable s root (id d) /\
        EntityRepo.find s (id d) = Some d /\
        rel ∈ relations d /\
        rel_type rel ∈ RelationEngine.DEPENDENCY_RELATIONS /\
        is_Some (EntityRepo.find s (rel_target rel)) /\
        ed = {| EntityQuery.e_source := id d;
                EntityQuery.e_target := rel_target rel;
                EntityQuery.e_type := rel_type rel |}).
Proof.
  intros Hroot g. subst g. unfold RelationEngine.getDependencyGraph.
  rewrite (nonempty_root _ Hroot). simpl.
  destruct (getTransitiveDependencies_run s root)
    as (result & _ & -> & _ & Hall).
  split.
  - intros n. rewrite list_elem_of_In, in_map_iff. split.
    + intros (d & <- & Hd%list_elem_of_In%Hall). exists d. tauto.
    + intros (d & Hreach & Hfind & ->). exists d. split; [done|].
      by apply list_elem_of_In, Hall.
  - intros ed. rewrite list_elem_of_In, in_flat_map. split.
    + intros (d & Hd%list_elem_of_In%Hall & Hed).
      apply in_map_iff in Hed as (rel & <- & Hrel).
      apply filter_In in Hrel as [Hrel [Hdep Hhas]%andb_true_iff].
      apply bool_decide_eq_true_1 in Hdep, Hhas.
      apply (proj1 (new_Set_elem _ _)) in Hhas.
      apply list_elem_of_In, in_map_iff in Hhas as (d' & Hid & Hd').
      apply list_elem_of_In, Hall in Hd' as [_ Hfind'].
      exists d, rel. destruct Hd as [Hreach Hfind].
      split_and!; [done|done|by apply list_elem_of_In|done| |done].
      rewrite <- Hid. by eexists.
    + intros (d & rel & Hreach & Hfind & Hrel & Hdep & [d' Hfind'] & ->).
      exists d. split; [by apply list_elem_of_In, Hall|].
      apply in_map_iff. exists rel. split; [done|]. apply filter_In.
      split; [by apply list_elem_of_In|]. apply andb_true_iff.
      split; [by apply bool_decide_eq_true_2|].
      apply bool_decide_eq_true_2, new_Set_elem, list_elem_of_In, in_map_iff.
      pose proof (find_id _ _ _ Hfind') as Hid.
      exists d'. split; [done|]. apply list_elem_of_In, Hall.
      rewrite Hid. split; [|done].
      eapply rtc_r; [exact Hreach|]. by exists d, rel.
Qed.

Lemma getDependencyGraph_rooted_witness :
  {| EntityQuery.e_source := "ga-aaaa"; EntityQuery.e_target := "ga-bbbb";
     EntityQuery.e_type := "depends_on" |}
  ∈ RelationEngine.dg_edges
      (RelationEngine.getDependencyGraph Sample.actions (Some "ga-aaaa")).
Proof.
  destruct (getDependencyGraph_rooted Sample.actions "ga-aaaa") as [_ Hedges];
    [done|].
  destruct (EntityRepo.find Sample.actions "ga-aaaa") as [e|] eqn:He;
    [|exfalso; by vm_compute in He].
  pose proof (find_id _ _ _ He) as Hid.
  assert (relations e = [{| rel_type := "depends_on"; rel_target := "ga-bbbb" |}])
    as Hrels.
  { vm_compute in He. by injection He as <-. }
  apply Hedges.
  exists e, {| rel_type := "depends_on"; rel_target := "ga-bbbb" |}.
  rewrite Hid, Hrels. split_and!; [apply rtc_refl|done|left|left| |done].
  simpl. destruct (EntityRepo.find Sample.actions "ga-bbbb") eqn:Hb;
    [by eexists|exfalso; by vm_compute in Hb].
Defined.

(** X25. Blocking and depending are two views of the same edges: an entity
    is among those [findBlocked] reports for a target exactly when it is
    stored and carries a depends_on edge to the target, and then, when its
    id and the target's find their records, the target is among the
    dependencies [findDependencies] reports for it. *)
Theorem findBlocked_findDependencies s targetId :
  (forall e,
      e ∈ RelationEngine.findBlocked s targetId <->
      e ∈ entities s /\
      {| rel_type := "depends_on"; rel_target := targetId |} ∈ relations e) /\
  (forall e target,
      e ∈ RelationEngine.findBlocked s targetId ->
      EntityRepo.find s (id e) = Some e ->
      EntityRepo.find s targetId = Some target ->
      target ∈ RelationEngine.findDependencies s (id e)) /\
  (forall i d,
      d ∈ RelationEngine.findDependencies s i ->
      exists e, EntityRepo.find s i = Some e /\
                e ∈ RelationEngine.findBlocked s (id d)).
Proof.
  assert (forall t e,
      e ∈ RelationEngine.findBlocked s t <->
      e ∈ entities s /\
      {| rel_type := "depends_on"; rel_target := t |} ∈ relations e) as Hblocked.
  { intros t e. unfold RelationEngine.findBlocked, EntityRepo.findRelatedFrom.
    rewrite elem_of_findByRelation. split.
    - intros (He & [ty tg] & Hrel & Htarget & [Hty|Hty]); [done|].
      simpl in *. by subst.
    - intros [He Hrel]. split; [done|]. eexists. split; [exact Hrel|].
      simpl. auto. }
  split_and!; [by apply Hblocked| |].
  - intros e target [_ Hrel]%Hblocked Hfind Htarget.
    apply elem_of_findDependencies. by eexists e, _.
  - intros i d (e & [ty tg] & Hfind & Hrel & Hty & Hd)%elem_of_findDependencies.
    simpl in *. subst ty. exists e. split; [done|]. apply Hblocked.
    apply find_id in Hd as ->. split; [|done].
    by apply findById_Some in Hfind as [? _].
Qed.

(** X26. [getRelations] fails exactly on an id that is not stored.
    Otherwise it lists the entity's own edges in order, each with the
    record found under its target, and as incoming relations exactly the
    edges that stored entities carry to this id. *)
Theorem getRelations_both_directions s entityId :
  match RelationEngine.getRelations s entityId with
  | inl err =>
      EntityRepo.find s entityId = None /\
      err = RelationEngine.EntityNotFound entityId
  | inr r =>
      exists ent,
        EntityRepo.find s entityId = Some ent /\
        RelationEngine.outgoing r =
          (fun rel => {| RelationEngine.o_type := rel_type rel;
                         RelationEngine.o_target := rel_target rel;
                         RelationEngine.o_targetEntity :=
                           EntityRepo.find s (rel_target rel) |})
            <$> relations ent /\
        forall inc,
          inc ∈ RelationEngine.incoming r <->
          exists related rel,
            related ∈ entities s /\ rel ∈ relations related /\
            rel_target rel = entityId /\
            inc = {| RelationEngine.i_type := rel_type rel;
                     RelationEngine.i_source := id related;
                     RelationEngine.i_sourceEntity := related |}
  end.
Proof.
  unfold RelationEngine.getRelations.
  destruct (EntityRepo.find s entityId) as [ent|] eqn:Hfind; [|done].
  exists ent. split_and!; [done|done|]. simpl.
  intros inc. rewrite list_elem_of_In, in_flat_map. split.
  - intros (related & Hrelated & Hinc).
    apply list_elem_of_In, elem_of_findByRelation in Hrelated as [Hin _].
    apply in_map_iff in Hinc as (rel & <- & Hrel).
    apply filter_In in Hrel as [Hrel Htarget%bool_decide_eq_true].
    exists related, rel. split_and!; [done|by apply list_elem_of_In|done|done].
  - intros (related & rel & Hin & Hrel & Htarget & ->). exists related. split.
    + apply list_elem_of_In, elem_of_findByRelation. split; [done|].
      by exists rel.
    + apply in_map_iff. exists rel. split; [done|]. apply filter_In.
      split; [by apply list_elem_of_In|by apply bool_decide_eq_true].
Qed.

(** ** Relation types *)

Section RelationTypes.
Import EntityRepo EntitySpec RelationEngine.

Lemma declared_entries name ft :
  declared_relation name = Some ft <-> (name, ft) ∈ RELATION_ENTRIES.
Proof.
  split.
  - unfold declared_relation.
    repeat case_bool_decide; intros [= <-]; subst;
      repeat match goal with
             | H : _ ∈ _ :: _ |- _ => apply elem_of_cons in H as [->|H]
             | H : _ ∈ [] |- _ => by apply elem_of_nil in H
             end;
      apply (bool_decide_unpack _); by vm_compute.
  - unfold RELATION_ENTRIES. intros Hin.
    repeat (apply elem_of_cons in Hin as [[= -> ->]|Hin]; [by vm_compute|]).
    by apply elem_of_nil in Hin.
Qed.

Lemma type_name_inj t t' : type_name t = type_name t' -> t = t'.
Proof. by destruct t, t'. Qed.

Lemma validateRelationType_declared name sourceType targetType :
  validateRelationType name sourceType targetType = IsValid <->
  exists from to,
    declared_relation name = Some (from, to) /\
    type_name from = sourceType /\ type_name to = targetType.
Proof.
  unfold validateRelationType, RELATION_TYPES.
  destruct (declared_relation name) as [[from to]|].
  - split.
    + repeat case_bool_decide; simpl; try done. intros _. by exists from, to.
    + intros (f & t & [= <- <-] & Hf & Ht). by rewrite !bool_decide_eq_true_2.
  - split; [by case_bool_decide|]. by intros (? & ? & ? & _).
Qed.
End RelationTypes.

(** X27. [validateRelationType] accepts a relation type for a pair of
    entity types exactly when [getSuggestedRelations] proposes it for that
    pair, and exactly when [validateRelation], which [create], [update] and
    [addRelation] go through, accepts an edge of that type between entities
    of these types. *)
Theorem validateRelationType_agrees :
  (forall relationType sourceType targetType,
      RelationEngine.validateRelationType relationType sourceType targetType
        = RelationEngine.IsValid <->
      relationType ∈ RelationEngine.getSuggestedRelations sourceType targetType) /\
  (forall s rel sourceType,
      EntityRepo.validateRelation rel sourceType s = (s, inr rel) <->
      rel_target rel <> "" /\
      exists target,
        EntityRepo.find s (rel_target rel) = Some target /\
        RelationEngine.validateRelationType (rel_type rel)
          (type_name sourceType) (type_name (type target))
          = RelationEngine.IsValid).
Proof.
  split.
  - intros name st tt. rewrite validateRelationType_declared.
    unfold RelationEngine.getSuggestedRelations.
    rewrite list_elem_of_In, in_map_iff. split.
    + intros (from & to & Hdecl%declared_entries & Hfrom & Hto).
      exists (name, (from, to)). split; [done|]. apply filter_In.
      split; [by apply list_elem_of_In|]. simpl.
      by rewrite !bool_decide_eq_true_2.
    + intros ([name' [from to]] & Hname & Hin). simpl in Hname. subst name'.
      apply filter_In in Hin as [Hin Hmatch]. simpl in Hmatch.
      apply andb_true_iff in Hmatch
        as [Hfrom%bool_decide_eq_true Hto%bool_decide_eq_true].
      exists from, to. split; [|done].
      by apply declared_entries, list_elem_of_In.
  - intros s rel t. split.
    + intros (Hvalid & _ & _)%validateRelation_inv.
      destruct Hvalid as (Htarget & target & Hfind & Hdecl).
      split; [done|]. exists target. split; [done|].
      apply validateRelationType_declared. by eexists _, _.
    + intros (Htarget & target & Hfind & Hvalid).
      apply validateRelationType_declared in Hvalid
        as (from & to & Hdecl & ->%type_name_inj & ->%type_name_inj).
      apply validateRelation_ok. split; [done|]. by exists target.
Qed.

(** ** Ranges of the heuristics *)

Section Ranges.
Import Ai.

Lemma token_set_nonempty (text : string) : AiSpec.token_set text <> ∅.
Proof.
  rewrite <- words_token_set. intros Hempty.
  pose proof (words_nonempty text) as Hne.
  destruct (words text) as [|w l]; [done|].
  assert (w ∈ (list_to_set (w :: l) : gset string)) as Hw
    by (apply elem_of_list_to_set; left).
  rewrite Hempty in Hw. set_solver.
Qed.

Lemma pos_of_nat_Z (n : nat) : n <> 0 -> Z.pos (Pos.of_nat n) = Z.of_nat n.
Proof. intros Hn. lia. Qed.

Lemma jaccard_range (A B : gset string) :
  A <> ∅ ->
  (0 <= AiSpec.jaccard A B <= 1)%Q /\
  ((AiSpec.jaccard A B == 1)%Q <-> A = B) /\
  ((AiSpec.jaccard A B == 0)%Q <-> A ∩ B = ∅).
Proof.
  intros HA. unfold AiSpec.jaccard.
  assert (size (A ∪ B) <> 0) as Hunion.
  { intros Hz%size_empty_iff. apply HA. set_solver. }
  assert (size (A ∩ B) <= size (A ∪ B)) as Hle
    by (apply subseteq_size; set_solver).
  rewrite !Qred_correct. unfold Qle, Qeq. simpl.
  rewrite (pos_of_nat_Z _ Hunion). split_and!; [lia|lia| |].
  - split.
    + intros Heq. assert (size (A ∩ B) = size (A ∪ B)) as Hsize by lia.
      assert (A ∩ B ≡ A ∪ B) as Hsets.
      { apply set_subseteq_size_equiv; [set_solver|lia]. }
      apply set_eq. intros x. set_solver.
    + intros <-. replace (A ∩ A) with A by set_solver.
      replace (A ∪ A) with A by set_solver. lia.
  - split.
    + intros Heq. apply leibniz_equiv, size_empty_iff. lia.
    + intros ->. rewrite size_empty. lia.
Qed.
End Ranges.

(** X28. The similarity of two texts lies between 0 and 1; for two
    non-empty texts it is 1 exactly when they have the same set of words,
    and 0 exactly when they have no word in common. *)
Theorem calculateSimilarity_range text1 text2 :
  (0 <= Ai.calculateSimilarity text1 text2 <= 1)%Q /\
  (text1 <> "" -> text2 <> "" ->
   ((Ai.calculateSimilarity text1 text2 == 1)%Q <->
    AiSpec.token_set text1 = AiSpec.token_set text2) /\
   ((Ai.calculateSimilarity text1 text2 == 0)%Q <->
    AiSpec.token_set text1 ∩ AiSpec.token_set text2 = ∅)).
Proof.
  rewrite calculateSimilarity_jaccard. unfold AiSpec.similarity.
  destruct (jaccard_range (AiSpec.token_set text1) (AiSpec.token_set text2)
              (token_set_nonempty text1)) as (Hrange & Hone & Hzero).
  split.
  - by destruct (bool_decide (text1 = "") || bool_decide (text2 = "")).
  - intros H1 H2. by rewrite !bool_decide_eq_false_2.
Qed.

Lemma calculateSimilarity_range_witness :
  (Ai.calculateSimilarity "Fix the pothole" "pothole: fix the... THE pothole!"
   == 1)%Q.
Proof.
  destruct (calculateSimilarity_range "Fix the pothole"
              "pothole: fix the... THE pothole!") as [_ Hone].
  apply Hone; [done|done|]. by vm_compute.
Defined.

Section Confidence.
Import Ai.

Lemma best_type_maximal (text : string) (t : EntityType) :
  AiSpec.score text t <= AiSpec.score text (AiSpec.best_type text) /\
  AiSpec.score text (AiSpec.best_type text) = AiSpec.max_score text /\
  AiSpec.max_score text <= AiSpec.total_score text <= 4 * AiSpec.max_score text.
Proof.
  unfold AiSpec.best_type, AiSpec.max_score, AiSpec.total_score. simpl.
  generalize (AiSpec.score text). intros f.
  repeat (match goal with
          | |- context [?x =? ?y] => destruct (Nat.eqb_spec x y)
          end; simpl);
    destruct t; lia.
Qed.

Lemma round2_range (x : Q) :
  (1 # 4 <= x <= 1)%Q -> (1 # 4 <= round2 x <= 1)%Q.
Proof.
  intros [Hlo Hhi]. unfold round2. rewrite Qred_correct.
  destruct x as [n d].
  assert (25 <= Qfloor ((n # d) * 100 + (1 # 2)) <= 100)%Z as [Hlo' Hhi'].
  { split.
    - change 25%Z with (Qfloor (inject_Z 25)). apply Qfloor_resp_le.
      unfold Qle in *. simpl in *. rewrite ?Pos.mul_1_r, ?Pos2Z.inj_mul. lia.
    - apply (Z.le_trans _ (Qfloor (201 # 2))); [|by vm_compute].
      apply Qfloor_resp_le.
      unfold Qle in *. simpl in *. rewrite ?Pos.mul_1_r, ?Pos2Z.inj_mul. lia. }
  revert Hlo' Hhi'. generalize (Qfloor ((n # d) * 100 + (1 # 2))).
  intros z Hlo' Hhi'. unfold Qle. simpl. lia.
Qed.

Lemma confidence_range (text : string) :
  (1 # 4 <= AiSpec.confidence text <= 1)%Q.
Proof.
  unfold AiSpec.confidence.
  destruct (best_type_maximal text Idea) as (_ & _ & Hle & Hge).
  destruct (Nat.eqb_spec (AiSpec.total_score text) 0) as [_|Hne]; [done|].
  rewrite Qred_correct. unfold Qle. simpl.
  rewrite (pos_of_nat_Z _ Hne). lia.
Qed.
End Confidence.

(** X29. The type [classifyText] returns has a score that no other type
    exceeds, and the confidence it reports lies between 0.25 and 1. *)
Theorem classifyText_best_and_confident text :
  (forall t, AiSpec.score text t
             <= AiSpec.score text (Ai.cl_type (Ai.classifyText text))) /\
  (1 # 4 <= Ai.cl_confidence (Ai.classifyText text) <= 1)%Q.
Proof.
  destruct (classifyText_spec text) as (_ & -> & ->). split.
  - intros t. by destruct (best_type_maximal text t) as [? _].
  - apply round2_range, confidence_range.
Qed.

Section Suggestions.
Import Ai.

Lemma insert_desc_perm x l : insert_desc x l ≡ₚ x :: l.
Proof.
  induction l as [|y l IH]; simpl; [done|].
  destruct (y.2 <=? x.2); [done|]. rewrite IH. apply Permutation_swap.
Qed.

Lemma getSuggestions_perm scores : getSuggestions scores ≡ₚ scores.
Proof.
  induction scores as [|x l IH]; simpl; [done|].
  rewrite insert_desc_perm. by rewrite IH.
Qed.

Lemma insert_desc_sorted x l :
  StronglySorted (fun a b : EntityType * nat => b.2 <= a.2) l ->
  StronglySorted (fun a b : EntityType * nat => b.2 <= a.2) (insert_desc x l).
Proof.
  induction 1 as [|y l Hl IH Hy]; simpl.
  - constructor; [constructor|done].
  - destruct (Nat.leb_spec y.2 x.2) as [Hle|Hgt].
    + constructor; [by constructor|]. constructor; [done|].
      eapply Forall_impl; [exact Hy|]. intros z Hz. simpl in *. lia.
    + constructor; [done|]. rewrite insert_desc_perm.
      constructor; [simpl; lia|done].
Qed.

Lemma getSuggestions_sorted scores :
  StronglySorted (fun a b : EntityType * nat => b.2 <= a.2)
                 (getSuggestions scores).
Proof.
  induction scores as [|x l IH]; simpl; [constructor|].
  by apply insert_desc_sorted.
Qed.

Lemma getSuggestions_head (text : string) :
  AiSpec.max_score text <> 0 ->
  head (getSuggestions (map (fun t => (t, AiSpec.score text t)) ENTITY_TYPES)) =
  Some (AiSpec.best_type text, AiSpec.max_score text).
Proof.
  unfold AiSpec.best_type, AiSpec.max_score. simpl.
  generalize (AiSpec.score text). intros f Hmax.
  repeat (match goal with
          | |- context [?x =? ?y] => destruct (Nat.eqb_spec x y)
          | |- context [?x <=? ?y] => destruct (Nat.leb_spec x y)
          end; simpl);
    try (exfalso; lia); repeat f_equal; lia.
Qed.
End Suggestions.

(** X30. The suggestions of [classifyText] are its four scores in
    non-increasing order; when some keyword matches, the first suggestion
    is the type returned, with its score. *)
Theorem classifyText_suggestions text :
  Ai.cl_suggestions (Ai.classifyText text)
    ≡ₚ Ai.cl_scores (Ai.classifyText text) /\
  StronglySorted (fun a b : EntityType * nat => b.2 <= a.2)
                 (Ai.cl_suggestions (Ai.classifyText text)) /\
  (AiSpec.max_score text <> 0 ->
   head (Ai.cl_suggestions (Ai.classifyText text)) =
   Some (Ai.cl_type (Ai.classifyText text),
         AiSpec.score text (Ai.cl_type (Ai.classifyText text)))).
Proof.
  destruct (classifyText_spec text) as (Hscores & Htype & _).
  assert (Ai.cl_suggestions (Ai.classifyText text) =
          Ai.getSuggestions (Ai.cl_scores (Ai.classifyText text))) as ->.
  { unfold Ai.classifyText. by destruct (fold_left _ _ _) as [[? ?] ?]. }
  split_and!; [apply getSuggestions_perm|apply getSuggestions_sorted|].
  intros Hmax. rewrite Hscores, Htype, (getSuggestions_head _ Hmax).
  by destruct (best_type_maximal text Idea) as (_ & -> & _).
Qed.
